(** * klio-logger-go: a shallow embedding of [logger.go]

    The logger decorates plain text messages with control sequences that the
    Klio host interprets.  This development embeds the package in Rocq:

    - Go strings and byte slices are [list byte];
    - the pieces of the Go standard library that [logger.go] calls
      ([unicode/utf8], [encoding/json], [strings], [fmt], [bufio], [bytes])
      are modelled in modules named after their packages;
    - [*Logger] values, [[]string] backing arrays and the write calls received
      by the sinks live in an explicit [World], and every method of the
      package is a computation in a state-and-panic monad over it. *)

From Stdlib Require Import ZArith Lia Bool.
From Stdlib Require Import Strings.Byte Strings.String.
From stdpp Require Import base tactics option list.

Local Open Scope Z_scope.

(** ** Bytes and strings *)

Definition bytes := list byte.

(** Numeric value of a byte, and the truncating conversion [byte(x)]. *)
Definition b2z (b : byte) : Z := Z.of_N (Byte.to_N b).

Definition z2b (z : Z) : byte :=
  match Byte.of_N (Z.to_N (z mod 256)) with
  | Some b => b
  | None => x00
  end.

(** Go string literal (ASCII part); control characters and quotes are
    written as explicit bytes below. *)
Definition lit (s : string) : bytes := list_byte_of_string s.

Definition ESC : byte := x1b.        (* escape, \033 *)
Definition backslash : byte := x5c.  (* backslash *)
Definition dquote : byte := x22.     (* double quote *)
Definition newline : byte := x0a.    (* line feed, \n *)
Definition creturn : byte := x0d.    (* carriage return, \r *)

Definition byte_eqb (a b : byte) : bool := Byte.eqb a b.

Fixpoint bytes_eqb (a b : bytes) : bool :=
  match a, b with
  | [], [] => true
  | x :: a', y :: b' => byte_eqb x y && bytes_eqb a' b'
  | _, _ => false
  end.

(** ** Package [unicode/utf8] *)

Module utf8.

Definition RuneError : Z := 0xFFFD.
Definition RuneSelf : Z := 0x80.
Definition MaxRune : Z := 0x10FFFF.
Definition UTFMax : nat := 4.

Definition surrogateMin : Z := 0xD800.
Definition surrogateMax : Z := 0xDFFF.

Definition t2 : Z := 0xC0.
Definition t3 : Z := 0xE0.
Definition t4 : Z := 0xF0.
Definition tx : Z := 0x80.

Definition maskx : Z := 0x3F.
Definition mask2 : Z := 0x1F.
Definition mask3 : Z := 0x0F.
Definition mask4 : Z := 0x07.

Definition rune1Max : Z := 0x7F.
Definition rune2Max : Z := 0x7FF.
Definition rune3Max : Z := 0xFFFF.

Definition locb : Z := 0x80.
Definition hicb : Z := 0xBF.

(* Entries of the table [first]: size and accept-range index of a
   sequence, keyed by its first byte. *)
Definition xx : Z := 0xF1.
Definition as_ : Z := 0xF0.
Definition s1 : Z := 0x02.
Definition s2 : Z := 0x13.
Definition s3 : Z := 0x03.
Definition s4 : Z := 0x23.
Definition s5 : Z := 0x34.
Definition s6 : Z := 0x04.
Definition s7 : Z := 0x44.

(** The 256-entry array [first], written by ranges of the index. *)
Definition first (b : byte) : Z :=
  let z := b2z b in
  if z <? 0x80 then as_
  else if z <? 0xC2 then xx
  else if z <? 0xE0 then s1
  else if z =? 0xE0 then s2
  else if z <? 0xED then s3
  else if z =? 0xED then s4
  else if z <? 0xF0 then s3
  else if z =? 0xF0 then s5
  else if z <? 0xF4 then s6
  else if z =? 0xF4 then s7
  else xx.

(** [acceptRanges[i]] as a pair [(lo, hi)]. *)
Definition acceptRanges (i : Z) : Z * Z :=
  if i =? 1 then (0xA0, hicb)
  else if i =? 2 then (locb, 0x9F)
  else if i =? 3 then (0x90, hicb)
  else if i =? 4 then (locb, 0x8F)
  else (locb, hicb).

(** [DecodeRuneInString]: the first rune of [s] and its width in bytes;
    [(RuneError, 1)] on an invalid encoding, [(RuneError, 0)] on the empty
    string. *)
Definition DecodeRuneInString (s : bytes) : Z * nat :=
  match s with
  | [] => (RuneError, 0%nat)
  | c0 :: t =>
    let x := first c0 in
    if as_ <=? x then ((if x =? xx then RuneError else b2z c0), 1%nat)
    else
      let sz := Z.to_nat (Z.land x 7) in
      let '(lo, hi) := acceptRanges (Z.shiftr x 4) in
      if Nat.ltb (length s) sz then (RuneError, 1%nat)
      else
        match t with
        | [] => (RuneError, 1%nat)
        | c1 :: t1 =>
          if (b2z c1 <? lo) || (hi <? b2z c1) then (RuneError, 1%nat)
          else if Nat.leb sz 2 then
            (Z.lor (Z.shiftl (Z.land (b2z c0) mask2) 6)
                   (Z.land (b2z c1) maskx), 2%nat)
          else
            match t1 with
            | [] => (RuneError, 1%nat)
            | c2 :: t2 =>
              if (b2z c2 <? locb) || (hicb <? b2z c2) then (RuneError, 1%nat)
              else if Nat.leb sz 3 then
                (Z.lor (Z.lor (Z.shiftl (Z.land (b2z c0) mask3) 12)
                              (Z.shiftl (Z.land (b2z c1) maskx) 6))
                       (Z.land (b2z c2) maskx), 3%nat)
              else
                match t2 with
                | [] => (RuneError, 1%nat)
                | c3 :: _ =>
                  if (b2z c3 <? locb) || (hicb <? b2z c3)
                  then (RuneError, 1%nat)
                  else
                    (Z.lor (Z.lor (Z.lor
                       (Z.shiftl (Z.land (b2z c0) mask4) 18)
                       (Z.shiftl (Z.land (b2z c1) maskx) 12))
                       (Z.shiftl (Z.land (b2z c2) maskx) 6))
                       (Z.land (b2z c3) maskx), 4%nat)
                end
            end
        end
  end.

(** [AppendRune] applied to the empty slice: the UTF-8 encoding of [r],
    with [uint32(r)] taken for the comparisons. *)
Definition AppendRune (r : Z) : bytes :=
  let i := r mod 2 ^ 32 in
  if i <=? rune1Max then [z2b r]
  else if i <=? rune2Max then
    [z2b (Z.lor t2 (Z.shiftr r 6)); z2b (Z.lor tx (Z.land r maskx))]
  else if (i <? surrogateMin) || ((surrogateMax <? i) && (i <=? rune3Max)) then
    [z2b (Z.lor t3 (Z.shiftr r 12));
     z2b (Z.lor tx (Z.land (Z.shiftr r 6) maskx));
     z2b (Z.lor tx (Z.land r maskx))]
  else if (rune3Max <? i) && (i <=? MaxRune) then
    [z2b (Z.lor t4 (Z.shiftr r 18));
     z2b (Z.lor tx (Z.land (Z.shiftr r 12) maskx));
     z2b (Z.lor tx (Z.land (Z.shiftr r 6) maskx));
     z2b (Z.lor tx (Z.land r maskx))]
  else [xef; xbf; xbd].

(** [RuneLen]: the number of bytes of the encoding of [r], negative when
    [r] cannot be encoded. *)
Definition RuneLen (r : Z) : Z :=
  if r <? 0 then -1
  else if r <=? rune1Max then 1
  else if r <=? rune2Max then 2
  else if (surrogateMin <=? r) && (r <=? surrogateMax) then -1
  else if r <=? rune3Max then 3
  else if r <=? MaxRune then 4
  else -1.

End utf8.

(** ** Package [encoding/json]

    [json.Marshal] on the two types the logger marshals, a [Level] (kind
    string) and a [[]string].  [Marshal] escapes HTML characters.  On these
    types it returns a nil error.  The string encoder is the one of Go 1.22
    and later; earlier releases write backspace and form feed as [\u0008]
    and [\u000c] instead of the two-byte escapes. *)

Module json.

Definition hex (n : Z) : byte :=
  nth (Z.to_nat n) (lit "0123456789abcdef") x30.

(** [htmlSafeSet[b]]: ASCII bytes copied verbatim into a JSON string. *)
Definition htmlSafeSet (b : byte) : bool :=
  let z := b2z b in
  (0x20 <=? z) && (z <? 0x80)
  && negb (z =? 0x22) && negb (z =? 0x5C)
  && negb (z =? 0x3C) && negb (z =? 0x3E) && negb (z =? 0x26).

(** The switch of [appendString] on an ASCII byte outside the safe set. *)
Definition escapeByte (b : byte) : bytes :=
  let z := b2z b in
  if (z =? 0x5C) || (z =? 0x22) then [backslash; b]
  else if z =? 0x08 then [backslash; x62]
  else if z =? 0x0C then [backslash; x66]
  else if z =? 0x0A then [backslash; x6e]
  else if z =? 0x0D then [backslash; x72]
  else if z =? 0x09 then [backslash; x74]
  else [backslash; x75; x30; x30; hex (Z.shiftr z 4); hex (Z.land z 0xF)].

(** The loop of [appendString] from position [i]; [src] is what is left of
    the string there.  The decoded width is at least one, so a fuel of
    [length src] reaches the end. *)
Fixpoint appendLoop (fuel : nat) (src : bytes) : bytes :=
  match fuel, src with
  | _, [] => []
  | O, _ => []
  | S fuel', b :: rest =>
    if b2z b <? utf8.RuneSelf then
      if htmlSafeSet b then b :: appendLoop fuel' rest
      else escapeByte b ++ appendLoop fuel' rest
    else
      let '(c, size) := utf8.DecodeRuneInString (take utf8.UTFMax src) in
      if (c =? utf8.RuneError) && Nat.eqb size 1 then
        lit "\ufffd" ++ appendLoop fuel' (drop size src)
      else if (c =? 0x2028) || (c =? 0x2029) then
        lit "\u202" ++ [hex (Z.land c 0xF)] ++ appendLoop fuel' (drop size src)
      else
        take size src ++ appendLoop fuel' (drop size src)
  end.

(** [appendString(nil, src, true)]: the quoted JSON string literal. *)
Definition appendString (src : bytes) : bytes :=
  [dquote] ++ appendLoop (length src) src ++ [dquote].

Inductive error := UnsupportedTypeError | UnsupportedValueError | MarshalerError.

(** [json.Marshal(v)] for a value of kind string. *)
Definition Marshal_string (v : bytes) : bytes * option error :=
  (appendString v, None).

(** The elements of an array, separated by commas. *)
Fixpoint arrayElems (l : list bytes) : bytes :=
  match l with
  | [] => []
  | [x] => appendString x
  | x :: rest => appendString x ++ lit "," ++ arrayElems rest
  end.

(** [json.Marshal(v)] for [v []string]; [None] is the nil slice, which the
    slice encoder writes as [null]. *)
Definition Marshal_strings (v : option (list bytes)) : bytes * option error :=
  match v with
  | None => (lit "null", None)
  | Some l => (lit "[" ++ arrayElems l ++ lit "]", None)
  end.

End json.

(** ** Package [unicode]

    [unicode.ToLower] has an ASCII fast path and otherwise looks the rune up
    in the table [CaseRanges].  The table is data of the Go distribution;
    it is a parameter here, [To_LowerCase r] standing for
    [unicode.To(unicode.LowerCase, r)]. *)

Module unicode.

Definition MaxASCII : Z := 0x7F.

Section CaseTable.
Variable To_LowerCase : Z -> Z.

Definition ToLower (r : Z) : Z :=
  if r <=? MaxASCII then
    if (0x41 <=? r) && (r <=? 0x5A) then r + (0x61 - 0x41) else r
  else To_LowerCase r.
End CaseTable.

End unicode.

(** ** Package [strings] *)

Module strings.

Section Map.
Variable mapping : Z -> Z.

(** Second loop of [strings.Map]: every rune of the rest is mapped and
    written to the builder; a negative result drops the rune. *)
Fixpoint mapRest (fuel : nat) (s : bytes) : bytes :=
  match fuel, s with
  | _, [] => []
  | O, _ => []
  | S fuel', _ =>
    let '(c, width) := utf8.DecodeRuneInString s in
    let r := mapping c in
    (if 0 <=? r then
       if r <? utf8.RuneSelf then [z2b r] else utf8.AppendRune r
     else [])
    ++ mapRest fuel' (drop width s)
  end.

(** First loop of [strings.Map]: [pre] is [s[:i]], [s] is [s[i:]].  The
    loop looks for the first rune that changes (an invalid byte always
    does); if there is none the input is returned as it is. *)
Fixpoint mapFirst (fuel : nat) (pre s : bytes) : bytes :=
  match fuel, s with
  | _, [] => pre
  | O, _ => pre
  | S fuel', _ =>
    let '(c, w) := utf8.DecodeRuneInString s in
    let r := mapping c in
    if (r =? c) && negb (c =? utf8.RuneError) then
      mapFirst fuel' (pre ++ take w s) (drop w s)
    else if (c =? utf8.RuneError) && negb (Nat.eqb w 1) && (r =? c) then
      mapFirst fuel' (pre ++ take w s) (drop w s)
    else
      let width := if c =? utf8.RuneError then w else Z.to_nat (utf8.RuneLen c) in
      pre ++ (if 0 <=? r then utf8.AppendRune r else [])
          ++ mapRest fuel' (drop width s)
  end.

Definition Map (s : bytes) : bytes := mapFirst (length s) [] s.
End Map.

Definition isASCIIbyte (c : byte) : bool := b2z c <? utf8.RuneSelf.
Definition isUpperByte (c : byte) : bool := (0x41 <=? b2z c) && (b2z c <=? 0x5A).
Definition lowerByte (c : byte) : byte :=
  if isUpperByte c then z2b (b2z c + (0x61 - 0x41)) else c.

(** [strings.ToLower]: byte-wise on ASCII-only strings, [Map] with
    [unicode.ToLower] otherwise. *)
Definition ToLower (To_LowerCase : Z -> Z) (s : bytes) : bytes :=
  if forallb isASCIIbyte s then
    if existsb isUpperByte s then map lowerByte s else s
  else Map (unicode.ToLower To_LowerCase) s.

End strings.

(** ** Package [fmt]

    An operand of [fmt.Sprint] is an [interface{}] value.  [Sprint] looks at
    two things only: whether the operand's kind is [String], and how the
    operand prints under the verb [%v]. *)

Module fmt.

Record operand := { isString : bool; text : bytes }.

(** A Go string passed as operand prints as itself. *)
Definition str (s : bytes) : operand := {| isString := true; text := s |}.

(** [doPrint]: a space goes between two operands when neither is a
    string. *)
Fixpoint doPrint (argNum : nat) (prevString : bool) (a : list operand) : bytes :=
  match a with
  | [] => []
  | arg :: rest =>
    (if Nat.ltb 0 argNum && negb (isString arg) && negb prevString
     then [x20] else [])
    ++ text arg ++ doPrint (S argNum) (isString arg) rest
  end.

Definition Sprint (a : list operand) : bytes := doPrint 0 false a.

End fmt.

(** ** Packages [bytes] and [bufio]

    [bufio.NewScanner(bytes.NewReader(p))] with the default split function
    [ScanLines].  The reader is the unread rest of [p].  The scanner's
    buffer is kept as its length [buflen], the window start [start] and the
    contents [held] of the window [buf[start:end]]; bytes of the buffer
    outside the window are never read by the scanner. *)

Module bufio.

Inductive error :=
| EOF | ErrTooLong | ErrNegativeAdvance | ErrAdvanceTooFar
| ErrBadReadCount | ErrNoProgress.

Definition MaxScanTokenSize : nat := 64 * 1024.
Definition startBufSize : nat := 4096.

Record Scanner := mkScanner {
  rd : bytes;
  maxTokenSize : nat;
  tok : option bytes;
  buflen : nat;
  start : nat;
  held : bytes;
  err : option error
}.

Definition end_ (s : Scanner) : nat := (start s + length (held s))%nat.

Definition NewScanner (p : bytes) : Scanner :=
  {| rd := p; maxTokenSize := MaxScanTokenSize; tok := None;
     buflen := 0; start := 0; held := []; err := None |}.

(** [bytes.IndexByte]. *)
Fixpoint IndexByte (data : bytes) (c : byte) : option nat :=
  match data with
  | [] => None
  | b :: rest =>
    if byte_eqb b c then Some O
    else match IndexByte rest c with
         | Some i => Some (S i)
         | None => None
         end
  end.

Definition dropCR (data : bytes) : bytes :=
  match last data with
  | Some c => if byte_eqb c creturn then take (length data - 1) data else data
  | None => data
  end.

(** [ScanLines]: advance, token (nil when more data is requested) and
    error. *)
Definition ScanLines (data : bytes) (atEOF : bool)
  : nat * option bytes * option error :=
  if atEOF && Nat.eqb (length data) 0 then (O, None, None)
  else match IndexByte data newline with
       | Some i => (S i, Some (dropCR (take i data)), None)
       | None =>
         if atEOF then (length data, Some (dropCR data), None)
         else (O, None, None)
       end.

(** [setErr]: the first error other than [EOF] is kept. *)
Definition setErr (s : Scanner) (e : error) : Scanner :=
  match err s with
  | None | Some EOF =>
    {| rd := rd s; maxTokenSize := maxTokenSize s; tok := tok s;
       buflen := buflen s; start := start s; held := held s; err := Some e |}
  | Some _ => s
  end.

(** [s.advance(n)]: consumes [n] bytes of the window; fails when [n]
    exceeds the window. *)
Definition advance (s : Scanner) (n : nat) : bool * Scanner :=
  if Nat.ltb (length (held s)) n then (false, setErr s ErrAdvanceTooFar)
  else (true,
        {| rd := rd s; maxTokenSize := maxTokenSize s; tok := tok s;
           buflen := buflen s; start := (start s + n)%nat;
           held := drop n (held s); err := err s |}).

Definition setTok (s : Scanner) (t : option bytes) : Scanner :=
  {| rd := rd s; maxTokenSize := maxTokenSize s; tok := t;
     buflen := buflen s; start := start s; held := held s; err := err s |}.

(** Shift of the window to the beginning of the buffer, when the window
    reaches the end of the buffer or starts beyond its middle. *)
Definition shift (s : Scanner) : Scanner :=
  if Nat.ltb 0 (start s)
     && (Nat.eqb (end_ s) (buflen s) || Nat.ltb (buflen s / 2) (start s))
  then {| rd := rd s; maxTokenSize := maxTokenSize s; tok := tok s;
          buflen := buflen s; start := 0; held := held s; err := err s |}
  else s.

(** [r.Read(s.buf[s.end:len(s.buf)])] on a [bytes.Reader], followed by the
    bookkeeping of the read loop.  A read of zero bytes without error
    repeats identically, so the loop ends in [ErrNoProgress]. *)
Definition read (s : Scanner) : Scanner :=
  match rd s with
  | [] => setErr s EOF
  | _ =>
    let n := Nat.min (buflen s - end_ s) (length (rd s)) in
    if Nat.eqb n 0 then setErr s ErrNoProgress
    else {| rd := drop n (rd s); maxTokenSize := maxTokenSize s; tok := tok s;
            buflen := buflen s; start := start s;
            held := held s ++ take n (rd s); err := err s |}
  end.

(** First half of a round of [Scan]: with data in the window, or at the end
    of the input, the split function is asked for a token.  [inl] is a
    return from [Scan], [inr] goes on to read more. *)
Definition trySplit (s : Scanner) : (bool * Scanner) + Scanner :=
  if Nat.ltb (start s) (end_ s) || bool_decide (err s <> None) then
    let '(adv, token, e) := ScanLines (held s) (bool_decide (err s <> None)) in
    match e with
    | Some e' => inl (false, setErr s e')
    | None =>
      let '(ok, s1) := advance s adv in
      if negb ok then inl (false, s1)
      else
        let s2 := setTok s1 token in
        match token with
        | Some _ => inl (true, s2)
        | None => inr s2
        end
    end
  else inr s.

(** Second half of a round: stop on a recorded error, else make room
    (shift, then double the buffer up to [maxTokenSize]) and read. *)
Definition refill (s0 : Scanner) : (bool * Scanner) + Scanner :=
  if bool_decide (err s0 <> None) then
    inl (false,
         {| rd := rd s0; maxTokenSize := maxTokenSize s0; tok := tok s0;
            buflen := buflen s0; start := 0; held := []; err := err s0 |})
  else
    let s1 := shift s0 in
    if Nat.eqb (end_ s1) (buflen s1) then
      if Nat.leb (maxTokenSize s1) (buflen s1) then
        inl (false, setErr s1 ErrTooLong)
      else
        let newSize0 := (buflen s1 * 2)%nat in
        let newSize1 := if Nat.eqb newSize0 0 then startBufSize else newSize0 in
        let newSize := Nat.min newSize1 (maxTokenSize s1) in
        inr (read {| rd := rd s1; maxTokenSize := maxTokenSize s1;
                     tok := tok s1; buflen := newSize; start := 0;
                     held := held s1; err := err s1 |})
    else inr (read s1).

(** The loop of [Scan].  Every round that does not return either records
    an error or reads at least one byte. *)
Fixpoint scanLoop (fuel : nat) (s : Scanner) : bool * Scanner :=
  match fuel with
  | O => (false, s)
  | S fuel' =>
    match trySplit s with
    | inl res => res
    | inr s0 =>
      match refill s0 with
      | inl res => res
      | inr s1 => scanLoop fuel' s1
      end
    end
  end.

(** [Scan]: a round sets [EOF] or reads a byte, and the round after [EOF]
    returns, so [length (rd s) + 2] rounds are enough. *)
Definition Scan (s : Scanner) : bool * Scanner :=
  scanLoop (length (rd s) + 2) s.

(** [Text]: the most recent token as a string. *)
Definition Text (s : Scanner) : bytes := default [] (tok s).

(** [Err]: the first error that is not [EOF]. *)
Definition Err (s : Scanner) : option error :=
  match err s with
  | Some EOF => None
  | e => e
  end.

End bufio.

(** ** Package [logger]: data *)

(** [type Level string]. *)
Definition Level := bytes.

Definition FatalLevel : Level := lit "fatal".
Definition ErrorLevel : Level := lit "error".
Definition WarnLevel : Level := lit "warn".
Definition InfoLevel : Level := lit "info".
Definition VerboseLevel : Level := lit "verbose".
Definition DebugLevel : Level := lit "debug".
Definition SpamLevel : Level := lit "spam".
Definition DefaultLevel : Level := InfoLevel.

(** The entries of [levelsMap], a [map[string]Level], and the index
    expression [levelsMap[k]] in its comma-ok form. *)
Definition levelsMap : list (bytes * Level) :=
  [ (FatalLevel, FatalLevel); (ErrorLevel, ErrorLevel); (WarnLevel, WarnLevel);
    (InfoLevel, InfoLevel); (VerboseLevel, VerboseLevel);
    (DebugLevel, DebugLevel); (SpamLevel, SpamLevel) ].

Fixpoint mapIndex (m : list (bytes * Level)) (k : bytes) : option Level :=
  match m with
  | [] => None
  | (k', v) :: rest => if bytes_eqb k' k then Some v else mapIndex rest k
  end.

(** [ParseLevel]: the lookup of the lower-cased name, with [DefaultLevel]
    when there is no entry.  The case table of package [unicode] is a
    parameter. *)
Definition ParseLevel (To_LowerCase : Z -> Z) (s : bytes) : Level * bool :=
  match mapIndex levelsMap (strings.ToLower To_LowerCase s) with
  | Some level => (level, true)
  | None => (DefaultLevel, false)
  end.

(** An [io.Writer] held by a logger: the nil interface or a sink, named by
    a number.  A sink is a writer whose [Write] returns a count and an
    error and does not call back into the package; a writer whose [Write]
    panics, such as a nil pointer in a non-nil interface, is not
    modelled. *)
Inductive Writer := nil_Writer | Sink (id : nat).

(** A [[]string]: nil, or a view of [len] elements from offset [off] of a
    backing array. *)
Inductive slice := nil_slice | Slice (arr off len : nat).

Record Logger := mkLogger {
  output : Writer;
  tags : slice;
  level : Level;
  linePrefix : bytes
}.

(** The error of a sink, opaque to the logger. *)
Inductive sink_error := SinkError (code : nat).

(** One call of [Write] on a sink: the sink, the bytes passed, and the
    sink's answer. *)
Record WriteCall := mkCall {
  call_sink : nat;
  call_data : bytes;
  call_result : nat * option sink_error
}.

(** The state the package works in: backing arrays of the [[]string]
    slices, the [Logger] objects behind the [*Logger] pointers, the
    behaviour of the sinks (a sink answers a write from the calls it has
    seen so far and the bytes offered), and the calls made so far. *)
Record World := mkWorld {
  arrays : list (list bytes);
  loggers : list Logger;
  respond : nat -> list WriteCall -> bytes -> nat * option sink_error;
  written : list WriteCall
}.

Definition ptr := nat.

(** ** The state-and-panic monad *)

Definition M (A : Type) : Type := World -> option (A * World).

Definition ret {A} (a : A) : M A := fun w => Some (a, w).

Definition bind {A B} (m : M A) (k : A -> M B) : M B :=
  fun w => match m w with
           | Some (a, w') => k a w'
           | None => None
           end.

Definition panic {A} : M A := fun _ => None.

Notation "'let*' x ':=' m 'in' k" := (bind m (fun x => k))
  (at level 10, x name, m at level 100, k at level 200).

Definition set_arrays (a : list (list bytes)) (w : World) : World :=
  {| arrays := a; loggers := loggers w; respond := respond w; written := written w |}.
Definition set_loggers (l : list Logger) (w : World) : World :=
  {| arrays := arrays w; loggers := l; respond := respond w; written := written w |}.
Definition set_written (c : list WriteCall) (w : World) : World :=
  {| arrays := arrays w; loggers := loggers w; respond := respond w; written := c |}.
Definition set_respond (r : nat -> list WriteCall -> bytes -> nat * option sink_error)
    (w : World) : World :=
  {| arrays := arrays w; loggers := loggers w; respond := r; written := written w |}.

(** [*l] as an r-value; a pointer to no object panics. *)
Definition load_logger (l : ptr) : M Logger :=
  fun w => match loggers w !! l with
           | Some lg => Some (lg, w)
           | None => None
           end.

Definition store_logger (l : ptr) (lg : Logger) : M unit :=
  fun w => match loggers w !! l with
           | Some _ => Some (tt, set_loggers (<[l := lg]> (loggers w)) w)
           | None => None
           end.

(** A new [Logger] object on the heap. *)
Definition alloc_logger (lg : Logger) : M ptr :=
  fun w => Some (length (loggers w), set_loggers (loggers w ++ [lg]) w).

Definition alloc_array (a : list bytes) : M nat :=
  fun w => Some (length (arrays w), set_arrays (arrays w ++ [a]) w).

(** The elements seen through a slice, [None] for the nil slice. *)
Definition view (a : list (list bytes)) (s : slice) : option (option (list bytes)) :=
  match s with
  | nil_slice => Some None
  | Slice arr off len =>
    match a !! arr with
    | Some elems =>
      if Nat.leb (off + len) (length elems)
      then Some (Some (take len (drop off elems)))
      else None
    | None => None
    end
  end.

Definition read_slice (s : slice) : M (option (list bytes)) :=
  fun w => match view (arrays w) s with
           | Some v => Some (v, w)
           | None => None
           end.

Definition slice_len (s : slice) : nat :=
  match s with
  | nil_slice => O
  | Slice _ _ len => len
  end.

(** [copy(dst, src)]: the first [min(len(dst), len(src))] elements. *)
Definition copy (dst : slice) (src : list bytes) : M nat :=
  match dst with
  | nil_slice => ret O
  | Slice arr off len =>
    fun w => match arrays w !! arr with
             | Some elems =>
               let n := Nat.min len (length src) in
               let elems' := take off elems ++ take n src ++ drop (off + n) elems in
               Some (n, set_arrays (<[arr := elems']> (arrays w)) w)
             | None => None
             end
  end.

(** [make([]string, n)]. *)
Definition make (n : nat) : M slice :=
  let* arr := alloc_array (repeat [] n) in ret (Slice arr 0 n).

(** What a caller does with a slice: [s[i] = v], which panics out of
    range. *)
Definition slice_store (s : slice) (i : nat) (v : bytes) : M unit :=
  match s with
  | nil_slice => panic
  | Slice arr off len =>
    if Nat.ltb i len then
      fun w => match arrays w !! arr with
               | Some elems =>
                 Some (tt, set_arrays (<[arr := <[(off + i)%nat := v]> elems]> (arrays w)) w)
               | None => None
               end
    else panic
  end.

(** The slice a variadic call builds from the arguments written at the
    call site: nil when there are none, a fresh array otherwise. *)
Definition variadic (args : list bytes) : M slice :=
  match args with
  | [] => ret nil_slice
  | _ => let* arr := alloc_array args in ret (Slice arr 0 (length args))
  end.

(** [output.Write(data)] on the interface value; the nil interface
    panics. *)
Definition sink_write (out : Writer) (data : bytes) : M (nat * option sink_error) :=
  match out with
  | nil_Writer => panic
  | Sink id =>
    fun w =>
      let res := respond w id (written w) data in
      Some (res, set_written (written w ++ [mkCall id data res]) w)
  end.

(** ** Package [logger]: operations *)

(** The format of [updateLinePrefix], with both [%s] operands byte
    slices. *)
Definition prefixFormat (level tags : bytes) : bytes :=
  [ESC] ++ lit "_klio_log_level " ++ level ++ [ESC; backslash]
  ++ [ESC] ++ lit "_klio_tags " ++ tags ++ [ESC; backslash].

Definition resetSuffix : bytes :=
  [ESC] ++ lit "_klio_reset" ++ [ESC; backslash; newline].

Section Encoder.
(** [updateLinePrefix] over an arbitrary marshaller, to speak about the
    branches taken when marshalling fails. *)
Context {E : Type}.
Variable marshalLevel : Level -> bytes * option E.
Variable marshalTags : option (list bytes) -> bytes * option E.

Definition encodeLevel (lv : Level) : bytes :=
  let '(level, err) := marshalLevel lv in
  match err with
  | Some _ => [dquote] ++ DefaultLevel ++ [dquote]
  | None => level
  end.

Definition encodeTags (ts : option (list bytes)) : bytes :=
  let '(tags, err) := marshalTags ts in
  if bool_decide (err <> None) || bytes_eqb tags (lit "null")
  then lit "[]" else tags.

Definition encodePrefix (lv : Level) (ts : option (list bytes)) : bytes :=
  prefixFormat (encodeLevel lv) (encodeTags ts).

Definition updateLinePrefix_with (l : ptr) : M unit :=
  let* lg := load_logger l in
  let level' := encodeLevel (level lg) in
  let* ts := read_slice (tags lg) in
  let tags' := encodeTags ts in
  store_logger l
    {| output := output lg; tags := tags lg; level := level lg;
       linePrefix := prefixFormat level' tags' |}.
End Encoder.

Definition updateLinePrefix : ptr -> M unit :=
  updateLinePrefix_with json.Marshal_string json.Marshal_strings.

(** The Level/Tag encoder of the package: what [updateLinePrefix] computes
    from a level and the elements of a tag slice. *)
Definition encoder : Level -> option (list bytes) -> bytes :=
  encodePrefix json.Marshal_string json.Marshal_strings.

(** [New]: the literal [[]string{}] is a slice of length zero that is not
    nil. *)
Definition New (out : Writer) : M ptr :=
  let* ts := make 0 in
  let* l := alloc_logger
              {| output := out; tags := ts; level := DefaultLevel; linePrefix := [] |} in
  let* _ := updateLinePrefix l in
  ret l.

(** [Tags]: [make] and [copy]. *)
Definition Tags (l : ptr) : M slice :=
  let* lg := load_logger l in
  let* r := make (slice_len (tags lg)) in
  let* src := read_slice (tags lg) in
  let* _ := copy r (default [] src) in
  ret r.

(** The method [Level]; the name [Level] is the type's. *)
Definition Level_ (l : ptr) : M Level :=
  let* lg := load_logger l in ret (level lg).

Definition Output (l : ptr) : M Writer :=
  let* lg := load_logger l in ret (output lg).

(** [SetOutput] stores into the object behind [l]. *)
Definition SetOutput (l : ptr) (out : Writer) : M unit :=
  let* lg := load_logger l in
  store_logger l
    {| output := out; tags := tags lg; level := level lg; linePrefix := linePrefix lg |}.

(** [WithLevel]: [n := *l] is a new object; its level is set, its prefix
    recomputed, and its address returned. *)
Definition WithLevel (l : ptr) (lv : Level) : M ptr :=
  let* lg := load_logger l in
  let* n := alloc_logger lg in
  let* _ := store_logger n
              {| output := output lg; tags := tags lg; level := lv;
                 linePrefix := linePrefix lg |} in
  let* _ := updateLinePrefix n in
  ret n.

(** [WithTags]: as [WithLevel]; the slice of the variadic parameter is
    stored as it is. *)
Definition WithTags (l : ptr) (ts : slice) : M ptr :=
  let* lg := load_logger l in
  let* n := alloc_logger lg in
  let* _ := store_logger n
              {| output := output lg; tags := ts; level := level lg;
                 linePrefix := linePrefix lg |} in
  let* _ := updateLinePrefix n in
  ret n.

(** [Print]: one call of [Write] on the output, whose result is dropped. *)
Definition Print (l : ptr) (v : list fmt.operand) : M ptr :=
  let* lg := load_logger l in
  let line := linePrefix lg ++ fmt.Sprint v ++ resetSuffix in
  let* _ := sink_write (output lg) line in
  ret l.

(** The loop [for scanner.Scan() { l.Print(scanner.Text()) }].  Every
    successful [Scan] consumes input, so [length p + 1] rounds suffice. *)
Fixpoint writeLoop (fuel : nat) (l : ptr) (sc : bufio.Scanner) : M bufio.Scanner :=
  match fuel with
  | O => ret sc
  | S fuel' =>
    let '(more, sc') := bufio.Scan sc in
    if more then
      let* _ := Print l [fmt.str (bufio.Text sc')] in
      writeLoop fuel' l sc'
    else ret sc'
  end.

(** [Write]: only the scanner's error is looked at. *)
Definition Write (l : ptr) (p : bytes) : M (nat * option bufio.error) :=
  let* sc := writeLoop (length p + 1) l (bufio.NewScanner p) in
  match bufio.Err sc with
  | Some e => ret (O, Some e)
  | None => ret (length p, None)
  end.

(** ** Notions used to state the properties *)

(** *** Lines of a buffer

    The lines of [p] in the words of the adapter's contract: [p] is split at every
    newline byte, a trailing carriage return is dropped from each line, and
    what follows the last newline is a line unless it is empty.  [cur] is
    the part of the current line already passed. *)
Fixpoint lines_from (cur p : bytes) : list bytes :=
  match p with
  | [] => match cur with
          | [] => []
          | _ => [bufio.dropCR cur]
          end
  | b :: rest =>
    if byte_eqb b newline then bufio.dropCR cur :: lines_from [] rest
    else lines_from (cur ++ [b]) rest
  end.

Definition lines (p : bytes) : list bytes := lines_from [] p.

(** A line is too long for a scanner with a buffer of [max] bytes when
    [max] bytes pass without a newline; [n] is the length of the current
    line so far. *)
Fixpoint too_long_from (max n : nat) (p : bytes) : bool :=
  match p with
  | [] => false
  | b :: rest =>
    if byte_eqb b newline then too_long_from max 0 rest
    else Nat.leb max (S n) || too_long_from max (S n) rest
  end.

Definition too_long (p : bytes) : bool :=
  too_long_from bufio.MaxScanTokenSize 0 p.

(** The lines that precede the first too long line. *)
Fixpoint lines_before_long (max : nat) (cur p : bytes) : list bytes :=
  match p with
  | [] => match cur with
          | [] => []
          | _ => [bufio.dropCR cur]
          end
  | b :: rest =>
    if byte_eqb b newline then bufio.dropCR cur :: lines_before_long max [] rest
    else if Nat.leb max (S (length cur)) then []
    else lines_before_long max (cur ++ [b]) rest
  end.

Fixpoint count_newlines (p : bytes) : nat :=
  match p with
  | [] => O
  | b :: rest =>
    ((if byte_eqb b newline then 1 else 0) + count_newlines rest)%nat
  end.

(** What one call of [Scan] yields on the unread input [q]. *)
Inductive scan_result :=
| Done
| Token (t rest : bytes)
| TooLong.

Definition next_token (max : nat) (q : bytes) : scan_result :=
  match q with
  | [] => Done
  | _ =>
    match bufio.IndexByte (take max q) newline with
    | Some i => Token (bufio.dropCR (take i q)) (drop (S i) q)
    | None => if Nat.ltb (length q) max then Token (bufio.dropCR q) [] else TooLong
    end
  end.

(** The scanner holds the unread input [q]: the window followed by what the
    reader has left. *)
Record ScanInv (max : nat) (s : bufio.Scanner) (q : bytes) : Prop := {
  inv_q : bufio.held s ++ bufio.rd s = q;
  inv_max : bufio.maxTokenSize s = max;
  inv_pos : (0 < max)%nat;
  inv_end : (bufio.start s + length (bufio.held s) <= bufio.buflen s)%nat;
  inv_buf : (bufio.buflen s <= max)%nat;
  inv_err : bufio.err s = None
            \/ (bufio.err s = Some bufio.EOF /\ bufio.rd s = []
                /\ (bufio.start s + length (bufio.held s) < bufio.buflen s)%nat)
}.

(** The record that [Print] hands to sink [id] for the message [msg] of a
    logger with prefix [pre]. *)
Definition record_of (pre msg : bytes) : bytes := pre ++ msg ++ resetSuffix.

(** The calls [Print] makes on sink [id] for a list of messages, after the
    calls [hist]. *)
Fixpoint calls_for (rsp : nat -> list WriteCall -> bytes -> nat * option sink_error)
    (id : nat) (pre : bytes) (hist : list WriteCall) (msgs : list bytes)
  : list WriteCall :=
  match msgs with
  | [] => hist
  | m :: rest =>
    let d := record_of pre m in
    calls_for rsp id pre (hist ++ [mkCall id d (rsp id hist d)]) rest
  end.

(** *** Loggers in a world *)

(** The prefix cached in every logger is the encoder's output for the
    logger's level and the elements its tag slice shows. *)
Definition consistent (w : World) : Prop :=
  forall l lg, loggers w !! l = Some lg ->
    exists ts, view (arrays w) (tags lg) = Some ts
               /\ linePrefix lg = encoder (level lg) ts.

(** Two slices over the same backing array. *)
Definition shares_array (a b : slice) : Prop :=
  match a, b with
  | Slice x _ _, Slice y _ _ => x = y
  | _, _ => False
  end.

(** What a program can do to a world through the package: the calls of the
    API, with the tags of [WithTags] written out at the call site or
    spread from a slice the caller holds, and the caller's own slices:
    allocating one, and storing into one that no logger refers to. *)
Inductive step : World -> World -> Prop :=
| step_New out w l w' :
    New out w = Some (l, w') -> step w w'
| step_WithLevel l lv w n w' :
    WithLevel l lv w = Some (n, w') -> step w w'
| step_WithTags l args w n w' :
    (let* s := variadic args in WithTags l s) w = Some (n, w') -> step w w'
| step_WithTags_spread l s w n w' :
    WithTags l s w = Some (n, w') -> step w w'
| step_Tags l w r w' :
    Tags l w = Some (r, w') -> step w w'
| step_SetOutput l out w w' :
    SetOutput l out w = Some (tt, w') -> step w w'
| step_Print l v w r w' :
    Print l v w = Some (r, w') -> step w w'
| step_Write l p w res w' :
    Write l p w = Some (res, w') -> step w w'
| step_alloc args w s w' :
    variadic args w = Some (s, w') -> step w w'
| step_store s i v w w' :
    (forall l lg, loggers w !! l = Some lg -> ~ shares_array (tags lg) s) ->
    slice_store s i v w = Some (tt, w') -> step w w'.

(** The worlds a program can reach, from the empty heap and any sinks. *)
Inductive reachable : World -> Prop :=
| reach_init rsp : reachable (mkWorld [] [] rsp [])
| reach_step w w' : reachable w -> step w w' -> reachable w'.

(** The elements a call of [l.Tags()] returns in [w]. *)
Definition tags_of (l : ptr) (w : World) : option (list bytes) :=
  match Tags l w with
  | Some (r, w') =>
    match view (arrays w') r with
    | Some (Some elems) => Some elems
    | _ => None
    end
  | None => None
  end.

(** A caller overwriting elements of a slice, one store after the other. *)
Fixpoint store_all (s : slice) (ws : list (nat * bytes)) : M unit :=
  match ws with
  | [] => ret tt
  | (i, v) :: rest => let* _ := slice_store s i v in store_all s rest
  end.

(** *** JSON payloads *)

Definition is_hex (b : byte) : bool :=
  existsb (byte_eqb b) (lit "0123456789abcdef").

Definition is_short_escape (b : byte) : bool :=
  existsb (byte_eqb b) ([dquote; backslash] ++ lit "bfnrt").

(** A payload in which no escape byte occurs and every backslash either
    introduces an escape sequence of JSON or is the second byte of the
    sequence for a backslash. *)
Inductive well_escaped : bytes -> Prop :=
| we_nil : well_escaped []
| we_plain b rest :
    b <> ESC -> b <> backslash -> well_escaped rest -> well_escaped (b :: rest)
| we_short c rest :
    is_short_escape c = true -> well_escaped rest ->
    well_escaped (backslash :: c :: rest)
| we_unicode h1 h2 h3 h4 rest :
    is_hex h1 = true -> is_hex h2 = true -> is_hex h3 = true -> is_hex h4 = true ->
    well_escaped rest ->
    well_escaped (backslash :: x75 :: h1 :: h2 :: h3 :: h4 :: rest).

(** A byte from 0x80 on. *)
Definition high (b : byte) : Prop := (b2z b <? utf8.RuneSelf) = false.

(** The JSON array of the elements of a tag slice, as the logger prints
    it. *)
Definition json_tags (ts : option (list bytes)) : bytes :=
  match ts with
  | None => lit "[]"
  | Some l => lit "[" ++ json.arrayElems l ++ lit "]"
  end.

(** *** Level names *)

Definition knownLevels : list Level :=
  [FatalLevel; ErrorLevel; WarnLevel; InfoLevel; VerboseLevel; DebugLevel; SpamLevel].

(** A case table with the one entry of Go's table that matters to the
    level names outside ASCII: U+0130, the capital dotted I, has the lower
    case [i].  Other runes are left alone. *)
Definition dotted_I_table (r : Z) : Z := if r =? 0x130 then 0x69 else r.

(** [a] is the letter [b] in either case; [b] is taken from a level name,
    which is in lower case. *)
Definition same_letter (a b : byte) : bool :=
  byte_eqb a b
  || ((0x61 <=? b2z b) && (b2z b <=? 0x7A) && (b2z a =? b2z b - 0x20)).

Definition is_lower (b : byte) : bool := (0x61 <=? b2z b) && (b2z b <=? 0x7A).

Definition is_ascii_letter (b : byte) : bool :=
  ((0x41 <=? b2z b) && (b2z b <=? 0x5A)) || is_lower b.

(** [s] is [name] up to the case of its ASCII letters. *)
Fixpoint case_variant (s name : bytes) : bool :=
  match s, name with
  | [], [] => true
  | a :: s', b :: name' => same_letter a b && case_variant s' name'
  | _, _ => false
  end.

(** *** The output byte protocol

    A record as the protocol lays it out: the two header fields between
    their control sequences, the message text, the reset sequence and a
    newline. *)
Definition klio_record (lv : Level) (ts : option (list bytes)) (msg : bytes) : bytes :=
  [ESC] ++ lit "_klio_log_level " ++ json.appendString lv ++ [ESC; backslash]
  ++ [ESC] ++ lit "_klio_tags " ++ json_tags ts ++ [ESC; backslash]
  ++ msg
  ++ [ESC] ++ lit "_klio_reset" ++ [ESC; backslash] ++ [newline].

(** *** Sample worlds *)

(** Sinks that take every byte offered, and sinks that fail every write. *)
Definition accepting : World :=
  mkWorld [] [] (fun _ _ d => (length d, None)) [].
Definition failing : World :=
  mkWorld [] [] (fun _ _ _ => (O, Some (SinkError 1))) [].

Definition exec {A} (m : M A) (w : World) : World :=
  match m w with
  | Some (_, w') => w'
  | None => w
  end.

(** [l0 := New(sink0)], [l1 := l0.WithTags(a, b, c)],
    [l2 := l1.WithLevel(SpamLevel)]. *)
Definition demo1 : World := exec (New (Sink 0)) accepting.
Definition demo2 : World :=
  exec (let* s := variadic [lit "a"; lit "b"; lit "c"] in WithTags 0%nat s) demo1.
Definition demo3 : World := exec (WithLevel 1%nat SpamLevel) demo2.

(** [New(sink0)] on a sink that fails. *)
Definition failing1 : World := exec (New (Sink 0)) failing.

(** ** Package [logger]: the rest of the API *)

(** [os.Stdout] and [os.Stderr] as [io.Writer] values: two sinks, named by
    their file descriptors. *)
Definition Stdout : Writer := Sink 1.
Definition Stderr : Writer := Sink 2.

(** Initialisation of the package variables, in the order of their
    declaration: [standardLogger = New(os.Stdout)] and
    [errorLogger = New(os.Stderr).WithLevel(ErrorLevel)].  The result is
    the pair of the two pointers. *)
Definition package_init : M (ptr * ptr) :=
  let* s := New Stdout in
  let* e0 := New Stderr in
  let* e := WithLevel e0 ErrorLevel in
  ret (s, e).

(** The values of the two package variables after initialisation: on the
    empty heap [New] and [WithLevel] hand out the pointers 0, 1 and 2. *)
Definition standardLogger : ptr := 0%nat.
Definition errorLogger : ptr := 2%nat.

(** The world a program starts in, for given sinks. *)
Definition initial (rsp : nat -> list WriteCall -> bytes -> nat * option sink_error)
  : World :=
  exec package_init (mkWorld [] [] rsp []).

Definition StandardLogger : M ptr := ret standardLogger.
Definition ErrorLogger : M ptr := ret errorLogger.

Section Printf.
(** [fmt.Sprintf] is not modelled: it is a parameter. *)
Variable Sprintf : bytes -> list fmt.operand -> bytes.

(** [Printf]: [l.Print(fmt.Sprintf(format, v...))], one string operand. *)
Definition Printf (l : ptr) (format : bytes) (v : list fmt.operand) : M ptr :=
  Print l [fmt.str (Sprintf format v)].

(** The body shared by [Spamf] ... [Fatalf]:
    [standardLogger.WithLevel(lv).Printf(format, v...)]. *)
Definition logfAt (lv : Level) (format : bytes) (v : list fmt.operand) : M unit :=
  let* n := WithLevel standardLogger lv in
  let* _ := Printf n format v in
  ret tt.

Definition Spamf := logfAt SpamLevel.
Definition Debugf := logfAt DebugLevel.
Definition Verbosef := logfAt VerboseLevel.
Definition Infof := logfAt InfoLevel.
Definition Warnf := logfAt WarnLevel.
Definition Errorf := logfAt ErrorLevel.
Definition Fatalf := logfAt FatalLevel.
End Printf.

(** The body shared by [Spam] ... [Fatal]:
    [standardLogger.WithLevel(lv).Print(v...)]. *)
Definition logAt (lv : Level) (v : list fmt.operand) : M unit :=
  let* n := WithLevel standardLogger lv in
  let* _ := Print n v in
  ret tt.

Definition Spam := logAt SpamLevel.
Definition Debug := logAt DebugLevel.
Definition Verbose := logAt VerboseLevel.
Definition Info := logAt InfoLevel.
Definition Warn := logAt WarnLevel.
Definition Error := logAt ErrorLevel.
Definition Fatal := logAt FatalLevel.

(** The package-level functions with the level each one logs at. *)
Definition convenience : list ((list fmt.operand -> M unit) * Level) :=
  [ (Spam, SpamLevel); (Debug, DebugLevel); (Verbose, VerboseLevel);
    (Info, InfoLevel); (Warn, WarnLevel); (Error, ErrorLevel); (Fatal, FatalLevel) ].

Definition conveniencef (Sprintf : bytes -> list fmt.operand -> bytes)
  : list ((bytes -> list fmt.operand -> M unit) * Level) :=
  [ (Spamf Sprintf, SpamLevel); (Debugf Sprintf, DebugLevel);
    (Verbosef Sprintf, VerboseLevel); (Infof Sprintf, InfoLevel);
    (Warnf Sprintf, WarnLevel); (Errorf Sprintf, ErrorLevel);
    (Fatalf Sprintf, FatalLevel) ].

(** Runs of a program: the steps of [step], any number of them. *)
Inductive runs : World -> World -> Prop :=
| runs_refl w : runs w w
| runs_step w w' w'' : runs w w' -> step w' w'' -> runs w w''.

(** A byte that a JSON payload of [json.Marshal] may hold as it is or as
    part of an escape sequence: no control byte, and none of the three
    characters that are escaped for HTML. *)
Definition clean (b : byte) : bool :=
  (0x20 <=? b2z b)
  && negb (b2z b =? 0x3C) && negb (b2z b =? 0x3E) && negb (b2z b =? 0x26).

(** A string between double quotes, and strings separated by commas: what
    a JSON string and the elements of a JSON array look like when nothing
    has to be escaped. *)
Definition quoted (s : bytes) : bytes := [dquote] ++ s ++ [dquote].

Fixpoint commas (l : list bytes) : bytes :=
  match l with
  | [] => []
  | [x] => x
  | x :: rest => x ++ lit "," ++ commas rest
  end.

(** Texts separated by single blanks. *)
Fixpoint spaced (l : list bytes) : bytes :=
  match l with
  | [] => []
  | [x] => x
  | x :: rest => x ++ [x20] ++ spaced rest
  end.

(** * Proofs *)

Local Open Scope nat_scope.

(** ** Facts about [bufio] *)

Section ScannerFacts.
Import bufio.

Lemma IndexByte_lt data c i : IndexByte data c = Some i -> i < length data.
Proof.
  revert i. induction data as [|b data IH]; intros i; simpl; [done|].
  destruct (byte_eqb b c).
  - intros [= <-]. lia.
  - destruct (IndexByte data c) as [j|]; [|done].
    intros [= <-]. specialize (IH j eq_refl). lia.
Qed.

Lemma IndexByte_app_l a b c i :
  IndexByte a c = Some i -> IndexByte (a ++ b) c = Some i.
Proof.
  revert i. induction a as [|x a IH]; intros i; simpl; [done|].
  destruct (byte_eqb x c); [done|].
  destruct (IndexByte a c) as [j|]; [|done].
  intros [= <-]. by rewrite (IH j eq_refl).
Qed.

Lemma IndexByte_take data c i n :
  IndexByte data c = Some i -> i < n -> IndexByte (take n data) c = Some i.
Proof.
  revert i n. induction data as [|x data IH]; intros i n; simpl; [done|].
  destruct n as [|n]; [lia|]. simpl.
  destruct (byte_eqb x c); [done|].
  destruct (IndexByte data c) as [j|]; [|done].
  intros [= <-] Hlt. rewrite (IH j n eq_refl); [done|lia].
Qed.

Lemma IndexByte_take_None data c n :
  IndexByte data c = None -> IndexByte (take n data) c = None.
Proof.
  intros Hn. destruct (IndexByte (take n data) c) as [i|] eqn:E; [|done].
  apply (IndexByte_app_l _ (drop n data)) in E.
  rewrite take_drop in E. congruence.
Qed.

Lemma IndexByte_take_app a b c i :
  IndexByte a c = Some i -> take i (a ++ b) = take i a.
Proof.
  intros H. apply IndexByte_lt in H. rewrite take_app_le; [done|lia].
Qed.

Ltac inv_tac :=
  constructor; simpl;
  rewrite ?length_app, ?length_take, ?length_drop; simpl;
  first [ done | lia | by left
        | right; repeat split; first [done | lia] ].

Lemma setErr_None s e : err s = None -> err (setErr s e) = Some e.
Proof. unfold setErr. by intros ->. Qed.

(** A round on a window that already holds a newline, or on the last
    line at the end of the input, returns a token. *)
Lemma trySplit_token max s q i :
  ScanInv max s q ->
  IndexByte (held s) newline = Some i ->
  exists s', trySplit s = inl (true, s')
             /\ tok s' = Some (dropCR (take i q))
             /\ ScanInv max s' (drop (S i) q)
             /\ IndexByte (take max q) newline = Some i.
Proof.
  intros [Hq Hmax Hpos Hend Hbuf Herr] Hi.
  pose proof (IndexByte_lt _ _ _ Hi) as Hlt.
  unfold trySplit, end_.
  assert (Nat.ltb (start s) (start s + length (held s)) = true) as ->
    by (apply Nat.ltb_lt; lia).
  simpl. unfold ScanLines.
  assert (Nat.eqb (length (held s)) 0 = false) as ->
    by (apply Nat.eqb_neq; lia).
  rewrite andb_false_r, Hi. unfold advance.
  assert (Nat.ltb (length (held s)) (S i) = false) as ->
    by (apply Nat.ltb_ge; lia).
  simpl. eexists. split; [reflexivity|]. simpl.
  subst q. split; [|split].
  - by rewrite (IndexByte_take_app _ _ _ _ Hi).
  - constructor; simpl; try done.
    + rewrite drop_app_le; [done|lia].
    + rewrite length_drop. lia.
    + destruct Herr as [?|(?&?&?)]; [by left|right].
      rewrite length_drop. repeat split; try done. lia.
  - apply IndexByte_take; [by apply IndexByte_app_l|lia].
Qed.
Lemma trySplit_eof_last max s q :
  ScanInv max s q ->
  err s = Some EOF ->
  IndexByte (held s) newline = None ->
  held s <> [] ->
  exists s', trySplit s = inl (true, s')
             /\ tok s' = Some (dropCR q)
             /\ ScanInv max s' []
             /\ length q < max
             /\ IndexByte (take max q) newline = None.
Proof.
  intros [Hq Hmax Hpos Hend Hbuf Herr] He Hi Hne.
  destruct Herr as [?|(_ & Hrd & Hroom)]; [congruence|].
  rewrite Hrd, app_nil_r in Hq. subst q.
  unfold trySplit. rewrite He.
  rewrite (bool_decide_eq_true_2 (Some EOF <> None)) by done.
  rewrite orb_true_r. unfold ScanLines.
  assert (Nat.eqb (length (held s)) 0 = false) as ->.
  { apply Nat.eqb_neq. destruct (held s); [done|simpl; lia]. }
  simpl. rewrite Hi. unfold advance. rewrite Nat.ltb_irrefl. simpl.
  eexists. split; [reflexivity|]. simpl.
  split; [done|]. split; [|split].
  - constructor; simpl; try done.
    + rewrite drop_all. by rewrite Hrd.
    + rewrite drop_all. simpl. lia.
    + right. rewrite drop_all. simpl. repeat split; try done. lia.
  - lia.
  - by apply IndexByte_take_None.
Qed.

Lemma trySplit_eof_done max s q :
  ScanInv max s q ->
  err s = Some EOF ->
  held s = [] ->
  q = [] /\ exists s0, trySplit s = inr s0 /\ err s0 = Some EOF.
Proof.
  intros [Hq Hmax Hpos Hend Hbuf Herr] He Hh.
  destruct Herr as [?|(_ & Hrd & Hroom)]; [congruence|].
  rewrite Hrd, Hh in Hq. split; [done|].
  unfold trySplit. rewrite He.
  rewrite (bool_decide_eq_true_2 (Some EOF <> None)) by done.
  rewrite orb_true_r. unfold ScanLines. rewrite Hh. simpl.
  unfold advance. rewrite Hh. simpl. eexists. split; [reflexivity|]. done.
Qed.

Lemma trySplit_more max s q :
  ScanInv max s q ->
  err s = None ->
  IndexByte (held s) newline = None ->
  exists s0, trySplit s = inr s0 /\ ScanInv max s0 q /\ err s0 = None
             /\ rd s0 = rd s /\ held s0 = held s.
Proof.
  intros [Hq Hmax Hpos Hend Hbuf Herr] He Hi.
  unfold trySplit. rewrite He.
  rewrite (bool_decide_eq_false_2 (None <> None)) by (intros H; by apply H).
  rewrite orb_false_r.
  destruct (Nat.ltb (start s) (end_ s)) eqn:Hlt.
  - unfold ScanLines. simpl. rewrite Hi. unfold advance. simpl.
    eexists. split; [reflexivity|]. simpl. rewrite drop_0, Nat.add_0_r.
    repeat split; first [done | by left].
  - exists s. repeat split; first [done | by left].
Qed.

Lemma refill_cases max s0 q :
  ScanInv max s0 q ->
  err s0 = None ->
  IndexByte (held s0) newline = None ->
  (exists s', refill s0 = inl (false, s') /\ Err s' = Some ErrTooLong
              /\ next_token max q = TooLong)
  \/ (exists s1, refill s0 = inr s1 /\ ScanInv max s1 q
                 /\ (err s1 = Some EOF
                     \/ (err s1 = None /\ length (rd s1) < length (rd s0)))).
Proof.
  intros [Hq Hmax Hpos Hend Hbuf Herr] He Hi.
  unfold refill. rewrite He.
  rewrite (bool_decide_eq_false_2 (None <> None)) by (intros H; by apply H).
  set (s1 := shift s0).
  assert (rd s1 = rd s0 /\ held s1 = held s0 /\ err s1 = None
          /\ maxTokenSize s1 = max /\ buflen s1 = buflen s0
          /\ (start s1 = start s0 \/ (start s1 = 0 /\ 0 < start s0))
          /\ (end_ s1 = buflen s1 -> start s1 = 0)) as (Hr1 & Hh1 & He1 & Hm1 & Hb1 & Hs1 & Hfull).
  { subst s1. unfold shift, end_.
    destruct (Nat.ltb 0 (start s0)) eqn:H0.
    - apply Nat.ltb_lt in H0. rewrite andb_true_l.
      destruct (Nat.eqb (start s0 + length (held s0)) (buflen s0)
                || Nat.ltb (buflen s0 / 2) (start s0)) eqn:Hc.
      + cbn [rd held err maxTokenSize buflen start].
        repeat split; first [done | right; lia | intros; lia].
      + apply orb_false_iff in Hc as [Hc _]. apply Nat.eqb_neq in Hc.
        repeat split; first [done | by left | intros; lia].
    - apply Nat.ltb_ge in H0. rewrite andb_false_l.
      repeat split; first [done | by left | intros; lia]. }
  assert (start s1 + length (held s1) <= buflen s1) as Hend1.
  { rewrite Hh1, Hb1. destruct Hs1 as [->|[-> _]]; lia. }
  destruct (Nat.eqb (end_ s1) (buflen s1)) eqn:Hfl.
  - apply Nat.eqb_eq in Hfl. specialize (Hfull Hfl).
    unfold end_ in Hfl. rewrite Hfull, Hh1 in Hfl. simpl in Hfl.
    rewrite Hm1.
    destruct (Nat.leb max (buflen s1)) eqn:Hle.
    + apply Nat.leb_le in Hle. left. eexists. split; [reflexivity|].
      split.
      * unfold Err. by rewrite (setErr_None _ _ He1).
      * assert (length (held s0) = max) as Hlen by lia.
        unfold next_token. subst q.
        destruct (held s0 ++ rd s0) as [|b l] eqn:Hq'.
        { apply (f_equal length) in Hq'. rewrite length_app in Hq'.
          simpl in Hq'. lia. }
        rewrite <- Hq'.
        rewrite take_app_le by lia. rewrite take_ge by lia. rewrite Hi.
        rewrite length_app.
        assert (Nat.ltb (length (held s0) + length (rd s0)) max = false) as ->
          by (apply Nat.ltb_ge; lia).
        done.
    + apply Nat.leb_gt in Hle. right.
      set (newSize := Nat.min (if Nat.eqb (buflen s1 * 2) 0 then startBufSize
                               else buflen s1 * 2) max).
      assert (buflen s1 < newSize /\ newSize <= max) as [Hgrow Hnm].
      { subst newSize. destruct (Nat.eqb (buflen s1 * 2) 0) eqn:Hz.
        - apply Nat.eqb_eq in Hz. unfold startBufSize. lia.
        - apply Nat.eqb_neq in Hz. lia. }
      unfold read. simpl. rewrite Hr1, Hh1.
      destruct (rd s0) as [|b l] eqn:Hrd.
      * eexists. split; [reflexivity|]. unfold setErr. simpl. rewrite He1. simpl.
        split; [inv_tac | by left].
      * unfold end_. simpl.
        set (n := Nat.min (newSize - length (held s0)) (S (length l))).
        assert (0 < n /\ n <= newSize - length (held s0) /\ n <= S (length l))
          as (Hn0 & Hn1 & Hn2) by (subst n; lia).
        destruct (Nat.eqb n 0) eqn:Hnz; [apply Nat.eqb_eq in Hnz; lia|].
        eexists. split; [reflexivity|]. simpl.
        assert ((held s0 ++ take n (b :: l)) ++ drop n (b :: l) = q) as Hq'.
        { rewrite <- Hq, <- app_assoc. f_equal. apply take_drop. }
        split; [inv_tac|].
        right. split; [done|]. rewrite length_drop. simpl. lia.
  - apply Nat.eqb_neq in Hfl. right. unfold end_ in Hfl.
    unfold read. rewrite Hr1.
    destruct (rd s0) as [|b l] eqn:Hrd.
    + eexists. split; [reflexivity|]. unfold setErr. rewrite He1. simpl.
      assert (held s1 ++ rd s1 = q) as Hq' by (by rewrite Hr1, Hh1).
      split; [inv_tac | by left].
    + unfold end_.
      set (n := Nat.min (buflen s1 - (start s1 + length (held s1))) (length (b :: l))).
      assert (0 < n /\ n <= buflen s1 - (start s1 + length (held s1))
              /\ n <= S (length l)) as (Hn0 & Hn1 & Hn2) by (subst n; simpl; lia).
      destruct (Nat.eqb n 0) eqn:Hnz; [apply Nat.eqb_eq in Hnz; lia|].
      eexists. split; [reflexivity|]. simpl.
      assert ((held s1 ++ take n (b :: l)) ++ drop n (b :: l) = q) as Hq'.
      { rewrite Hh1, <- Hq, <- app_assoc. f_equal. apply take_drop. }
      split; [inv_tac|].
      right. split; [done|]. rewrite length_drop. simpl. lia.
Qed.
Lemma refill_after_error s0 :
  err s0 <> None ->
  exists s', refill s0 = inl (false, s') /\ err s' = err s0.
Proof.
  intros He. unfold refill. rewrite (bool_decide_eq_true_2 _ He).
  eexists. split; [reflexivity|done].
Qed.

(** One call of [Scan] on a scanner that holds [q] yields what
    [next_token] says, and enough fuel is supplied. *)
Lemma scanLoop_spec max fuel : forall s q,
  ScanInv max s q ->
  (length (rd s) + 2 <= fuel \/ (err s <> None /\ 1 <= fuel)) ->
  match next_token max q with
  | Done => exists s', scanLoop fuel s = (false, s') /\ Err s' = None
  | Token t q' =>
    exists s', scanLoop fuel s = (true, s') /\ tok s' = Some t /\ ScanInv max s' q'
  | TooLong => exists s', scanLoop fuel s = (false, s') /\ Err s' = Some ErrTooLong
  end.
Proof.
  induction fuel as [|fuel IH]; intros s q Hinv Hfuel; [lia|].
  simpl.
  destruct (IndexByte (held s) newline) as [i|] eqn:Hi.
  { destruct (trySplit_token _ _ _ _ Hinv Hi) as (s' & -> & Htok & Hinv' & Hidx).
    unfold next_token. destruct q as [|b q]; [by rewrite take_nil in Hidx|].
    rewrite Hidx. by exists s'. }
  destruct (err s) as [e|] eqn:He.
  - destruct (inv_err _ _ _ Hinv) as [?|(He' & Hrd & Hroom)]; [congruence|].
    rewrite He in He'. injection He' as ->.
    destruct (held s) as [|b h] eqn:Hh.
    + destruct (trySplit_eof_done _ _ _ Hinv He Hh) as (-> & s0 & -> & He0).
      destruct (refill_after_error s0) as (s' & -> & He1); [congruence|].
      simpl. exists s'. split; [done|]. unfold Err. by rewrite He1, He0.
    + destruct (trySplit_eof_last _ _ _ Hinv He) as (s' & -> & Htok & Hinv' & Hlen & Hidx);
        [by rewrite Hh..|].
      pose proof (inv_q _ _ _ Hinv) as Hq. rewrite Hh in Hq.
      unfold next_token. destruct q as [|b' q]; [done|].
      rewrite Hidx. apply Nat.ltb_lt in Hlen. rewrite Hlen. by exists s'.
  - destruct (trySplit_more _ _ _ Hinv He Hi) as (s0 & -> & Hinv0 & He0 & Hrd0 & Hh0).
    rewrite <- Hh0 in Hi.
    destruct (refill_cases _ _ _ Hinv0 He0 Hi)
      as [(s' & -> & Herr & ->)|(s1 & -> & Hinv1 & Hprog)].
    + by exists s'.
    + apply IH; [done|].
      destruct Hfuel as [Hfuel|[? _]]; [|congruence].
      destruct Hprog as [He1|[He1 Hlt]].
      * right. split; [congruence|]. lia.
      * left. rewrite Hrd0 in Hlt. lia.
Qed.

Lemma NewScanner_inv p :
  ScanInv MaxScanTokenSize (NewScanner p) p.
Proof.
  constructor; simpl; unfold MaxScanTokenSize; first [done | lia | by left].
Qed.

Lemma Scan_spec s q :
  ScanInv MaxScanTokenSize s q ->
  match next_token MaxScanTokenSize q with
  | Done => exists s', Scan s = (false, s') /\ Err s' = None
  | Token t q' =>
    exists s', Scan s = (true, s') /\ Text s' = t
               /\ ScanInv MaxScanTokenSize s' q'
  | TooLong => exists s', Scan s = (false, s') /\ Err s' = Some ErrTooLong
  end.
Proof.
  intros Hinv. unfold Scan.
  pose proof (scanLoop_spec MaxScanTokenSize (length (rd s) + 2) s q Hinv) as H.
  destruct (next_token MaxScanTokenSize q); try (apply H; left; lia).
  destruct H as (s' & ? & Htok & ?); [left; lia|].
  exists s'. unfold Text. rewrite Htok. done.
Qed.
End ScannerFacts.
(** ** Lines and tokens *)

Section LinesFacts.
Import bufio.

Lemma byte_eqb_eq a b : byte_eqb a b = true <-> a = b.
Proof.
  unfold byte_eqb. split; [apply Byte.byte_dec_bl | apply Byte.byte_dec_lb].
Qed.

Lemma IndexByte_app_hit cur c rest :
  IndexByte cur c = None ->
  IndexByte (cur ++ c :: rest) c = Some (length cur).
Proof.
  induction cur as [|x cur IH]; simpl.
  - intros _. by rewrite (proj2 (byte_eqb_eq c c)).
  - destruct (byte_eqb x c); [done|].
    destruct (IndexByte cur c); [done|]. intros _. by rewrite IH.
Qed.

Lemma IndexByte_app_miss cur b c :
  IndexByte cur c = None -> byte_eqb b c = false ->
  IndexByte (cur ++ [b]) c = None.
Proof.
  intros H Hb. induction cur as [|x cur IH]; simpl in *.
  - by rewrite Hb.
  - destruct (byte_eqb x c); [done|].
    destruct (IndexByte cur c); [done|]. by rewrite IH.
Qed.

Lemma next_token_nonempty max q :
  q <> [] ->
  next_token max q =
  match IndexByte (take max q) newline with
  | Some i => Token (dropCR (take i q)) (drop (S i) q)
  | None => if Nat.ltb (length q) max then Token (dropCR q) [] else TooLong
  end.
Proof. by destruct q. Qed.

(** The byte-wise description of the lines agrees with the tokens cut off
    one [Scan] at a time. *)
Lemma lines_next_token max p : forall cur,
  0 < max ->
  IndexByte cur newline = None ->
  length cur < max ->
  match next_token max (cur ++ p) with
  | Done =>
    lines_before_long max cur p = [] /\ too_long_from max (length cur) p = false
  | Token t q' =>
    lines_before_long max cur p = t :: lines_before_long max [] q'
    /\ too_long_from max (length cur) p = too_long_from max 0 q'
    /\ length q' < length (cur ++ p)
  | TooLong =>
    lines_before_long max cur p = [] /\ too_long_from max (length cur) p = true
  end.
Proof.
  induction p as [|b rest IH]; intros cur Hpos Hcur Hlen.
  - rewrite app_nil_r. destruct cur as [|c cur]; [done|].
    unfold next_token. rewrite (IndexByte_take_None _ _ _ Hcur).
    apply Nat.ltb_lt in Hlen. rewrite Hlen. simpl. repeat split. lia.
  - simpl. destruct (byte_eqb b newline) eqn:Hb.
    + apply byte_eqb_eq in Hb. subst b.
      rewrite next_token_nonempty by (by destruct cur).
      rewrite (IndexByte_take _ _ (length cur)); [|by apply IndexByte_app_hit|done].
      rewrite take_app_length.
      rewrite drop_app_ge by lia.
      replace (S (length cur) - length cur) with 1 by lia. simpl.
      repeat split. rewrite length_app, drop_0. simpl. lia.
    + destruct (Nat.leb max (S (length cur))) eqn:Hmax.
      * apply Nat.leb_le in Hmax. simpl.
        rewrite next_token_nonempty by (by destruct cur).
        assert (take max (cur ++ b :: rest) = cur ++ [b]) as ->.
        { replace max with (length cur + 1) by lia.
          rewrite take_app_add. by destruct rest. }
        rewrite (IndexByte_app_miss _ _ _ Hcur Hb).
        assert (Nat.ltb (length (cur ++ b :: rest)) max = false) as ->.
        { apply Nat.ltb_ge. rewrite length_app. simpl. lia. }
        done.
      * apply Nat.leb_gt in Hmax. simpl.
        specialize (IH (cur ++ [b]) Hpos (IndexByte_app_miss _ _ _ Hcur Hb)).
        rewrite length_app in IH. simpl in IH.
        rewrite Nat.add_1_r in IH. specialize (IH Hmax).
        rewrite <- app_assoc in IH. simpl in IH.
        by destruct (next_token max (cur ++ b :: rest)).
Qed.

Lemma lines_before_long_ok max p : forall cur,
  too_long_from max (length cur) p = false ->
  lines_before_long max cur p = lines_from cur p.
Proof.
  induction p as [|b rest IH]; intros cur; simpl; [done|].
  destruct (byte_eqb b newline).
  - intros H. f_equal. by apply (IH []).
  - intros H. apply orb_false_iff in H as [-> H]. apply IH.
    rewrite length_app. simpl. by rewrite Nat.add_1_r.
Qed.

Lemma lines_from_trailing_newline p : forall cur,
  length (lines_from cur (p ++ [newline])) = S (count_newlines p).
Proof.
  induction p as [|b rest IH]; intros cur; simpl; [done|].
  destruct (byte_eqb b newline); simpl; by rewrite IH.
Qed.
End LinesFacts.
(** ** Stepping through the operations of the package *)

Lemma set_written_id w : set_written (written w) w = w.
Proof. by destruct w. Qed.

Lemma view_app a b s v : view a s = Some v -> view (a ++ b) s = Some v.
Proof.
  destruct s as [|arr off len]; simpl; [done|].
  destruct (a !! arr) as [elems|] eqn:E; [|done].
  by rewrite (lookup_app_l_Some _ _ _ _ E).
Qed.

Lemma view_valid a arr off len v :
  view a (Slice arr off len) = Some v -> arr < length a.
Proof.
  simpl. destruct (a !! arr) as [elems|] eqn:E; [|done].
  intros _. by apply lookup_lt_Some in E.
Qed.

Lemma view_insert_ne a s v k x :
  view a s = Some v ->
  (forall arr off len, s = Slice arr off len -> arr <> k) ->
  view (<[k := x]> a) s = Some v.
Proof.
  destruct s as [|arr off len]; simpl; [done|].
  intros H Hne. rewrite list_lookup_insert_ne; [done|].
  intros ->. by eapply Hne.
Qed.

Lemma view_length a s l :
  view a s = Some (Some l) -> length l = slice_len s.
Proof.
  destruct s as [|arr off len]; simpl; [done|].
  destruct (a !! arr) as [elems|]; [|done].
  destruct (Nat.leb (off + len) (length elems)) eqn:E; [|done].
  apply Nat.leb_le in E. intros [= <-].
  rewrite length_take, length_drop. lia.
Qed.

Lemma view_nil a s : view a s = Some None -> s = nil_slice.
Proof.
  destruct s as [|arr off len]; simpl; [done|].
  destruct (a !! arr) as [elems|]; [|done].
  by destruct (Nat.leb (off + len) (length elems)).
Qed.

Lemma insert_snoc {A} (l : list A) (x y : A) :
  <[length l := y]> (l ++ [x]) = l ++ [y].
Proof.
  replace (length l) with (length l + 0) by lia.
  by rewrite insert_app_r.
Qed.

Lemma lookup_snoc {A} (l : list A) (x : A) : (l ++ [x]) !! length l = Some x.
Proof. by rewrite list_lookup_middle. Qed.

Section Stepping.
Context {E : Type}.
Variable mL : Level -> bytes * option E.
Variable mT : option (list bytes) -> bytes * option E.

Lemma updateLinePrefix_with_spec w l lg ts :
  loggers w !! l = Some lg ->
  view (arrays w) (tags lg) = Some ts ->
  updateLinePrefix_with mL mT l w
  = Some (tt, set_loggers
                (<[l := mkLogger (output lg) (tags lg) (level lg)
                                 (encodePrefix mL mT (level lg) ts)]> (loggers w)) w).
Proof.
  intros Hl Hv. unfold updateLinePrefix_with, bind, load_logger, read_slice, store_logger.
  by rewrite Hl, Hv, Hl.
Qed.
End Stepping.

Lemma updateLinePrefix_spec w l lg ts :
  loggers w !! l = Some lg ->
  view (arrays w) (tags lg) = Some ts ->
  updateLinePrefix l w
  = Some (tt, set_loggers
                (<[l := mkLogger (output lg) (tags lg) (level lg)
                                 (encoder (level lg) ts)]> (loggers w)) w).
Proof. apply updateLinePrefix_with_spec. Qed.

Lemma New_spec out w :
  New out w
  = Some (length (loggers w),
          mkWorld (arrays w ++ [[]])
                  (loggers w ++ [mkLogger out (Slice (length (arrays w)) 0 0) DefaultLevel
                                          (encoder DefaultLevel (Some []))])
                  (respond w) (written w)).
Proof.
  unfold New, bind, make, alloc_array, alloc_logger, ret. simpl.
  rewrite (updateLinePrefix_spec _ _
             (mkLogger out (Slice (length (arrays w)) 0 0) DefaultLevel []) (Some [])).
  - simpl. unfold set_loggers. simpl. by rewrite insert_snoc.
  - apply lookup_snoc.
  - simpl. by rewrite lookup_snoc.
Qed.

Lemma WithLevel_spec w l lg ts lv :
  loggers w !! l = Some lg ->
  view (arrays w) (tags lg) = Some ts ->
  WithLevel l lv w
  = Some (length (loggers w),
          set_loggers (loggers w ++ [mkLogger (output lg) (tags lg) lv (encoder lv ts)]) w).
Proof.
  intros Hl Hv. unfold WithLevel, bind, load_logger, alloc_logger, store_logger, ret.
  rewrite Hl. simpl. rewrite lookup_snoc.
  rewrite (updateLinePrefix_spec _ _
             (mkLogger (output lg) (tags lg) lv (linePrefix lg)) ts).
  - simpl. unfold set_loggers. simpl. by rewrite !insert_snoc.
  - simpl. rewrite insert_snoc. apply lookup_snoc.
  - done.
Qed.

Lemma WithTags_spec w l lg s ts :
  loggers w !! l = Some lg ->
  view (arrays w) s = Some ts ->
  WithTags l s w
  = Some (length (loggers w),
          set_loggers (loggers w ++ [mkLogger (output lg) s (level lg)
                                              (encoder (level lg) ts)]) w).
Proof.
  intros Hl Hv. unfold WithTags, bind, load_logger, alloc_logger, store_logger, ret.
  rewrite Hl. simpl. rewrite lookup_snoc.
  rewrite (updateLinePrefix_spec _ _
             (mkLogger (output lg) s (level lg) (linePrefix lg)) ts).
  - simpl. unfold set_loggers. simpl. by rewrite !insert_snoc.
  - simpl. rewrite insert_snoc. apply lookup_snoc.
  - done.
Qed.

Lemma Tags_spec w l lg ts :
  loggers w !! l = Some lg ->
  view (arrays w) (tags lg) = Some ts ->
  Tags l w
  = Some (Slice (length (arrays w)) 0 (slice_len (tags lg)),
          set_arrays (arrays w ++ [default [] ts]) w).
Proof.
  intros Hl Hv.
  unfold Tags, bind, load_logger, make, alloc_array, read_slice, copy, ret.
  rewrite Hl. simpl. rewrite (view_app _ _ _ _ Hv). simpl.
  rewrite lookup_snoc. unfold set_arrays. simpl. rewrite insert_snoc.
  do 4 f_equal.
  destruct ts as [elems|]; simpl.
  - pose proof (view_length _ _ _ Hv) as Hlen. rewrite <- Hlen.
    rewrite Nat.min_id, firstn_all, drop_ge by (rewrite repeat_length; lia).
    by rewrite app_nil_r.
  - apply view_nil in Hv. by rewrite Hv.
Qed.

Lemma Sprint_str t : fmt.Sprint [fmt.str t] = t.
Proof. unfold fmt.Sprint. simpl. by rewrite app_nil_r. Qed.

Lemma Print_spec w l lg id v :
  loggers w !! l = Some lg ->
  output lg = Sink id ->
  Print l v w
  = Some (l, set_written
               (written w ++
                  [mkCall id (record_of (linePrefix lg) (fmt.Sprint v))
                          (respond w id (written w)
                                   (record_of (linePrefix lg) (fmt.Sprint v)))]) w).
Proof.
  intros Hl Ho. unfold Print, bind, load_logger, sink_write, ret.
  by rewrite Hl, Ho.
Qed.

(** The loop of [Write] prints the lines that precede the first line that
    is too long, in order, and leaves the scanner with the matching error. *)
Lemma writeLoop_spec l lg id fuel : forall sc q w,
  loggers w !! l = Some lg ->
  output lg = Sink id ->
  ScanInv bufio.MaxScanTokenSize sc q ->
  length q < fuel ->
  exists sc',
    writeLoop fuel l sc w
    = Some (sc', set_written
                   (calls_for (respond w) id (linePrefix lg) (written w)
                      (lines_before_long bufio.MaxScanTokenSize [] q)) w)
    /\ bufio.Err sc'
       = if too_long_from bufio.MaxScanTokenSize 0 q then Some bufio.ErrTooLong else None.
Proof.
  induction fuel as [|fuel IH]; intros sc q w Hl Ho Hinv Hfuel; [lia|].
  simpl.
  pose proof (Scan_spec sc q Hinv) as Hscan.
  pose proof (lines_next_token bufio.MaxScanTokenSize q [] (inv_pos _ _ _ Hinv) eq_refl
                (inv_pos _ _ _ Hinv)) as Hlines.
  simpl in Hlines.
  destruct (next_token bufio.MaxScanTokenSize q) as [|t q'|].
  - destruct Hscan as (sc' & -> & Herr). destruct Hlines as [-> ->].
    exists sc'. simpl. by rewrite set_written_id.
  - destruct Hscan as (sc' & -> & Htext & Hinv').
    destruct Hlines as (-> & -> & Hlt).
    unfold bind. rewrite (Print_spec _ _ _ _ _ Hl Ho), Htext, Sprint_str.
    edestruct (IH sc' q') as (sc'' & -> & Herr); [exact Hl|exact Ho|exact Hinv'|simpl; lia|].
    exists sc''. by split.
  - destruct Hscan as (sc' & -> & Herr). destruct Hlines as [-> ->].
    exists sc'. simpl. by rewrite set_written_id.
Qed.

Lemma Write_spec w l lg id p :
  loggers w !! l = Some lg ->
  output lg = Sink id ->
  Write l p w
  = Some ((if too_long p then (0, Some bufio.ErrTooLong) else (length p, None)),
          set_written
            (calls_for (respond w) id (linePrefix lg) (written w)
               (lines_before_long bufio.MaxScanTokenSize [] p)) w).
Proof.
  intros Hl Ho. unfold Write, bind.
  destruct (writeLoop_spec l lg id (length p + 1) (bufio.NewScanner p) p w Hl Ho
              (NewScanner_inv p)) as (sc' & -> & Herr); [lia|].
  rewrite Herr. unfold too_long.
  by destruct (too_long_from bufio.MaxScanTokenSize 0 p).
Qed.

(** ** Worlds reached through the package *)

Lemma WithLevel_inv l lv w n w' :
  WithLevel l lv w = Some (n, w') ->
  exists lg ts, loggers w !! l = Some lg /\ view (arrays w) (tags lg) = Some ts.
Proof.
  unfold WithLevel, bind, load_logger.
  destruct (loggers w !! l) as [lg|] eqn:Hl; [|done].
  unfold alloc_logger, store_logger. simpl. rewrite lookup_snoc.
  unfold updateLinePrefix, updateLinePrefix_with, bind, load_logger, read_slice.
  simpl. rewrite insert_snoc, lookup_snoc. simpl.
  destruct (view (arrays w) (tags lg)) as [ts|] eqn:Hv; [eauto|done].
Qed.

Lemma WithTags_inv l s w n w' :
  WithTags l s w = Some (n, w') ->
  exists lg ts, loggers w !! l = Some lg /\ view (arrays w) s = Some ts.
Proof.
  unfold WithTags, bind, load_logger.
  destruct (loggers w !! l) as [lg|] eqn:Hl; [|done].
  unfold alloc_logger, store_logger. simpl. rewrite lookup_snoc.
  unfold updateLinePrefix, updateLinePrefix_with, bind, load_logger, read_slice.
  simpl. rewrite insert_snoc, lookup_snoc. simpl.
  destruct (view (arrays w) s) as [ts|] eqn:Hv; [eauto|done].
Qed.

Lemma Print_frame l v w r w' :
  Print l v w = Some (r, w') ->
  arrays w' = arrays w /\ loggers w' = loggers w /\ respond w' = respond w.
Proof.
  unfold Print, bind, load_logger.
  destruct (loggers w !! l) as [lg|]; [|done].
  unfold sink_write. destruct (output lg); [done|].
  unfold ret. by intros [= <- <-].
Qed.

Lemma writeLoop_frame l fuel : forall sc w sc' w',
  writeLoop fuel l sc w = Some (sc', w') ->
  arrays w' = arrays w /\ loggers w' = loggers w /\ respond w' = respond w.
Proof.
  induction fuel as [|fuel IH]; intros sc w sc' w'; simpl.
  - unfold ret. by intros [= <- <-].
  - destruct (bufio.Scan sc) as [[] sc1].
    + unfold bind.
      destruct (Print l [fmt.str (bufio.Text sc1)] w) as [[r w1]|] eqn:HP; [|done].
      intros H. apply IH in H as (-> & -> & ->).
      by apply Print_frame in HP.
    + unfold ret. by intros [= <- <-].
Qed.

Lemma Write_frame l p w res w' :
  Write l p w = Some (res, w') ->
  arrays w' = arrays w /\ loggers w' = loggers w /\ respond w' = respond w.
Proof.
  unfold Write, bind.
  destruct (writeLoop (length p + 1) l (bufio.NewScanner p) w) as [[sc w1]|] eqn:H;
    [|done].
  apply writeLoop_frame in H.
  destruct (bufio.Err sc); unfold ret; by intros [= <- <-].
Qed.

Lemma consistent_snoc_array w a :
  consistent w -> consistent (set_arrays (arrays w ++ [a]) w).
Proof.
  intros Hc l lg Hl. destruct (Hc l lg Hl) as (ts & Hv & Hp).
  exists ts. split; [|done]. simpl. by apply view_app.
Qed.

Lemma consistent_snoc_logger w lg ts :
  consistent w ->
  view (arrays w) (tags lg) = Some ts ->
  linePrefix lg = encoder (level lg) ts ->
  consistent (set_loggers (loggers w ++ [lg]) w).
Proof.
  intros Hc Hv Hp l lg' Hl. simpl in *.
  apply lookup_app_Some in Hl as [Hl|[_ Hl]].
  - by apply Hc in Hl.
  - apply list_lookup_singleton_Some in Hl as [_ <-]. eauto.
Qed.

Lemma variadic_spec args w :
  exists s w', variadic args w = Some (s, w')
    /\ view (arrays w') s = Some (match args with [] => None | _ => Some args end)
    /\ loggers w' = loggers w /\ respond w' = respond w /\ written w' = written w
    /\ (forall t v, view (arrays w) t = Some v -> view (arrays w') t = Some v)
    /\ (consistent w -> consistent w').
Proof.
  destruct args as [|a args].
  - exists nil_slice, w. by repeat split.
  - eexists _, _. split; [reflexivity|]. simpl.
    rewrite lookup_snoc. simpl. rewrite Nat.leb_refl, firstn_all.
    repeat split; try done.
    + intros t v. apply view_app.
    + apply consistent_snoc_array.
Qed.

Lemma step_consistent w w' : step w w' -> consistent w -> consistent w'.
Proof.
  intros Hstep Hc. destruct Hstep as
    [out w l w' H | l lv w n w' H | l args w n w' H | l s w n w' H | l w r w' H
    | l out w w' H | l v w r w' H | l p w res w' H | args w s w' H | s i v w w' Hfree H].
  - rewrite New_spec in H. injection H as <- <-.
    apply (consistent_snoc_logger (set_arrays (arrays w ++ [[]]) w) _ (Some [])).
    + by apply consistent_snoc_array.
    + simpl. by rewrite lookup_snoc.
    + done.
  - destruct (WithLevel_inv _ _ _ _ _ H) as (lg & ts & Hl & Hv).
    rewrite (WithLevel_spec _ _ _ _ _ Hl Hv) in H. injection H as <- <-.
    by apply (consistent_snoc_logger w _ ts).
  - unfold bind in H.
    destruct (variadic_spec args w) as (s & w1 & Hs & Hv1 & Hl1 & _ & _ & _ & Hc1).
    rewrite Hs in H.
    destruct (WithTags_inv _ _ _ _ _ H) as (lg & ts & Hl & Hv).
    rewrite (WithTags_spec _ _ _ _ _ Hl Hv) in H. injection H as <- <-.
    apply (consistent_snoc_logger w1 _ ts); [by apply Hc1|done..].
  - destruct (WithTags_inv _ _ _ _ _ H) as (lg & ts & Hl & Hv).
    rewrite (WithTags_spec _ _ _ _ _ Hl Hv) in H. injection H as <- <-.
    by apply (consistent_snoc_logger w _ ts).
  - assert (exists lg, loggers w !! l = Some lg) as [lg Hl].
    { unfold Tags, bind, load_logger in H.
      destruct (loggers w !! l); [eauto|done]. }
    destruct (Hc l lg Hl) as (ts & Hv & _).
    rewrite (Tags_spec _ _ _ _ Hl Hv) in H. injection H as <- <-.
    by apply consistent_snoc_array.
  - unfold SetOutput, bind, load_logger, store_logger in H.
    destruct (loggers w !! l) as [lg|] eqn:Hl; [|done].
    rewrite Hl in H. injection H as <-.
    intros l' lg' Hl'. simpl in *.
    destruct (decide (l = l')) as [<-|Hne].
    + rewrite list_lookup_insert_eq in Hl' by (by eapply lookup_lt_Some).
      injection Hl' as <-. simpl. by apply (Hc l).
    + rewrite list_lookup_insert_ne in Hl' by done. by apply (Hc l').
  - apply Print_frame in H as (Ha & Hl & _).
    intros l' lg'. rewrite Hl, Ha. apply Hc.
  - apply Write_frame in H as (Ha & Hl & _).
    intros l' lg'. rewrite Hl, Ha. apply Hc.
  - destruct (variadic_spec args w) as (s0 & w1 & Hs & _ & _ & _ & _ & _ & Hc1).
    rewrite Hs in H. injection H as <- <-. by apply Hc1.
  - destruct s as [|arr off len]; [done|]. simpl in H.
    destruct (Nat.ltb i len); [|done].
    destruct (arrays w !! arr) as [elems|]; [|done].
    injection H as <-.
    intros l lg Hl. simpl in *.
    destruct (Hc l lg Hl) as (ts & Hv & Hp). exists ts. split; [|done].
    apply view_insert_ne; [done|].
    intros arr' off' len' Ht ->. apply (Hfree l lg Hl). by rewrite Ht.
Qed.

Lemma reachable_consistent w : reachable w -> consistent w.
Proof.
  induction 1 as [rsp|w w' _ IH Hstep].
  - intros l lg Hl. simpl in Hl. by rewrite lookup_nil in Hl.
  - by apply (step_consistent w).
Qed.

Lemma encoder_unfold lv ts :
  encoder lv ts = prefixFormat (json.appendString lv) (json_tags ts).
Proof. by destruct ts as [[|x l]|]. Qed.

Lemma calls_for_shape rsp id pre msgs : forall hist,
  exists new,
    calls_for rsp id pre hist msgs = hist ++ new
    /\ map call_data new = map (record_of pre) msgs
    /\ Forall (fun c => call_sink c = id) new.
Proof.
  induction msgs as [|m msgs IH]; intros hist; simpl.
  - exists []. by rewrite app_nil_r.
  - destruct (IH (hist ++ [mkCall id (record_of pre m) (rsp id hist (record_of pre m))]))
      as (new & -> & Hd & Hs).
    eexists (_ :: new). rewrite <- app_assoc. split; [done|].
    simpl. rewrite Hd. split; [done|]. by constructor.
Qed.

Lemma tags_of_spec w l lg ts :
  loggers w !! l = Some lg ->
  view (arrays w) (tags lg) = Some ts ->
  tags_of l w = Some (default [] ts).
Proof.
  intros Hl Hv. unfold tags_of. rewrite (Tags_spec _ _ _ _ Hl Hv). simpl.
  rewrite lookup_snoc.
  assert (length (default [] ts) = slice_len (tags lg)) as Hlen.
  { destruct ts as [elems|]; simpl.
    - by apply (view_length (arrays w)).
    - apply view_nil in Hv. by rewrite Hv. }
  rewrite <- Hlen, Nat.leb_refl. by rewrite drop_0, firstn_all.
Qed.

Lemma view_ext a1 a2 s :
  (forall arr off len, s = Slice arr off len -> a2 !! arr = a1 !! arr) ->
  view a2 s = view a1 s.
Proof.
  destruct s as [|arr off len]; simpl; [done|].
  intros H. by rewrite (H arr off len).
Qed.

Lemma store_all_frame arr off len ws : forall w1 w2,
  store_all (Slice arr off len) ws w1 = Some (tt, w2) ->
  loggers w2 = loggers w1
  /\ forall k, k <> arr -> arrays w2 !! k = arrays w1 !! k.
Proof.
  induction ws as [|[i v] ws IH]; intros w1 w2; simpl.
  - unfold ret. by intros [= <-].
  - unfold bind.
    destruct (Nat.ltb i len); [|done].
    destruct (arrays w1 !! arr) as [elems|]; [|done].
    intros H. apply IH in H as [-> H]. simpl in *. split; [done|].
    intros k Hk. rewrite (H k Hk). by rewrite list_lookup_insert_ne.
Qed.

(** Loggers of every level and every tag list are reached:
    [New(out).WithTags(args...).WithLevel(lv)]. *)
Lemma any_logger_reachable out lv args :
  exists w l lg,
    reachable w /\ loggers w !! l = Some lg
    /\ output lg = out /\ level lg = lv /\ tags_of l w = Some args.
Proof.
  set (w0 := accepting).
  destruct (New out w0) as [[l0 w1]|] eqn:H1; [|by rewrite New_spec in H1].
  pose proof H1 as H1'. rewrite New_spec in H1'. injection H1' as <- <-.
  set (w1 := mkWorld _ _ _ _) in *.
  set (lg0 := mkLogger out (Slice 0 0 0) DefaultLevel (encoder DefaultLevel (Some []))).
  assert (loggers w1 !! 0 = Some lg0) as Hl0 by done.
  destruct (variadic_spec args w1) as (s & w1' & Hs & Hv & Hl1 & _ & _ & _ & _).
  assert (loggers w1' !! 0 = Some lg0) as Hl0' by (by rewrite Hl1).
  pose proof (WithTags_spec w1' 0 lg0 s _ Hl0' Hv) as H2.
  set (lg1 := mkLogger _ s _ _) in H2. set (w2 := set_loggers _ w1') in H2.
  assert (loggers w2 !! 1 = Some lg1) as Hl2.
  { subst w2. simpl. rewrite Hl1. done. }
  assert (view (arrays w2) (tags lg1) = Some (match args with [] => None | _ => Some args end))
    as Hv2 by done.
  pose proof (WithLevel_spec w2 1 lg1 _ lv Hl2 Hv2) as H3.
  set (lg2 := mkLogger _ _ lv _) in H3. set (w3 := set_loggers _ w2) in H3.
  assert (length (loggers w2) = 2) as Hlen.
  { subst w2. simpl. rewrite Hl1. done. }
  rewrite Hlen in H3.
  exists w3, 2, lg2. split; [|split; [|split; [done|split; [done|]]]].
  - apply (reach_step w2); [apply (reach_step w1); [apply (reach_step w0)|]|].
    + apply reach_init.
    + by apply (step_New out w0 0 w1).
    + apply (step_WithTags 0 args w1 (length (loggers w1')) w2).
      unfold bind. by rewrite Hs.
    + by apply (step_WithLevel 1 lv w2 2 w3).
  - subst w3. simpl. rewrite <- Hlen. apply lookup_snoc.
  - rewrite (tags_of_spec w3 2 lg2 (match args with [] => None | _ => Some args end)).
    + by destruct args.
    + subst w3. simpl. rewrite <- Hlen. apply lookup_snoc.
    + done.
Qed.

(** ** The properties *)

(** C1.  In a world reached through the package, [Print] on a logger with
    a sink makes exactly one write call on that sink, and the bytes passed
    are the record of the output protocol: ESC [_klio_log_level ], the level
    as a JSON string, ESC backslash, ESC [_klio_tags ], the tags as a JSON
    array, ESC backslash, the text [fmt.Sprint] gives for the message
    unaltered, ESC [_klio_reset] ESC backslash and a newline. *)
Theorem Print_writes_record w l lg id v :
  reachable w ->
  loggers w !! l = Some lg ->
  output lg = Sink id ->
  exists ts,
    view (arrays w) (tags lg) = Some ts
    /\ Print l v w
       = Some (l, set_written
                    (written w ++
                       [mkCall id (klio_record (level lg) ts (fmt.Sprint v))
                          (respond w id (written w)
                             (klio_record (level lg) ts (fmt.Sprint v)))]) w).
Proof.
  intros Hr Hl Ho.
  destruct (reachable_consistent w Hr l lg Hl) as (ts & Hv & Hp).
  exists ts. split; [done|].
  rewrite (Print_spec _ _ _ _ _ Hl Ho), Hp, encoder_unfold.
  unfold record_of, prefixFormat, resetSuffix, klio_record.
  by rewrite <- !app_assoc.
Qed.

Lemma demo3_reachable : reachable demo3.
Proof.
  apply (reach_step demo2); [apply (reach_step demo1); [apply (reach_step accepting)|]|].
  - apply reach_init.
  - by apply (step_New (Sink 0) accepting 0 demo1).
  - by apply (step_WithTags 0 [lit "a"; lit "b"; lit "c"] demo1 1 demo2).
  - by apply (step_WithLevel 1 SpamLevel demo2 2 demo3).
Qed.

Lemma Print_writes_record_witness :
  exists ts,
    view (arrays demo3) (Slice 1 0 3) = Some ts
    /\ Print 2 [fmt.str (lit "foo")] demo3
       = Some (2, set_written
                    (written demo3 ++
                       [mkCall 0 (klio_record SpamLevel ts (fmt.Sprint [fmt.str (lit "foo")]))
                          (respond demo3 0 (written demo3)
                             (klio_record SpamLevel ts
                                (fmt.Sprint [fmt.str (lit "foo")])))]) demo3).
Proof.
  apply (Print_writes_record demo3 2
           (mkLogger (Sink 0) (Slice 1 0 3) SpamLevel
                     (encoder SpamLevel (Some [lit "a"; lit "b"; lit "c"]))) 0
           [fmt.str (lit "foo")]).
  - exact demo3_reachable.
  - reflexivity.
  - reflexivity.
Defined.

(** The two records of the package's tests. *)
Example klio_record_spam_abc :
  klio_record SpamLevel (Some [lit "a"; lit "b"; lit "c"]) (lit "foo")
  = [ESC] ++ lit "_klio_log_level " ++ [dquote] ++ lit "spam" ++ [dquote]
    ++ [ESC; backslash; ESC] ++ lit "_klio_tags ["
    ++ [dquote] ++ lit "a" ++ [dquote] ++ lit ","
    ++ [dquote] ++ lit "b" ++ [dquote] ++ lit ","
    ++ [dquote] ++ lit "c" ++ [dquote] ++ lit "]"
    ++ [ESC; backslash] ++ lit "foo" ++ [ESC] ++ lit "_klio_reset"
    ++ [ESC; backslash; newline].
Proof. vm_compute. reflexivity. Qed.

Example klio_record_default :
  klio_record DefaultLevel (Some []) (lit "foo")
  = [ESC] ++ lit "_klio_log_level " ++ [dquote] ++ lit "info" ++ [dquote]
    ++ [ESC; backslash; ESC] ++ lit "_klio_tags []"
    ++ [ESC; backslash] ++ lit "foo" ++ [ESC] ++ lit "_klio_reset"
    ++ [ESC; backslash; newline].
Proof. vm_compute. reflexivity. Qed.

(** The cached prefix as long as callers store only into slices no logger
    refers to, which is the scope of [reachable]: the prefix cached in a
    logger is the encoder's output for the logger's level and tags, and it
    is the prefix [Print] writes; nothing is computed when a record is
    written.  A store into a slice that was spread into [WithTags] is
    outside this scope and breaks the equation. *)
Theorem prefix_is_encoder_output w l lg :
  reachable w ->
  loggers w !! l = Some lg ->
  exists ts,
    view (arrays w) (tags lg) = Some ts
    /\ linePrefix lg = encoder (level lg) ts
    /\ forall id v, output lg = Sink id ->
         exists w',
           Print l v w = Some (l, w')
           /\ loggers w' = loggers w
           /\ exists c, written w' = written w ++ [c]
                        /\ call_data c
                           = encoder (level lg) ts ++ fmt.Sprint v ++ resetSuffix.
Proof.
  intros Hr Hl.
  destruct (reachable_consistent w Hr l lg Hl) as (ts & Hv & Hp).
  exists ts. repeat split; try done.
  intros id v Ho. rewrite (Print_spec _ _ _ _ _ Hl Ho), Hp.
  eexists. split; [reflexivity|]. split; [done|].
  eexists. split; reflexivity.
Qed.

Lemma prefix_is_encoder_output_witness :
  exists ts,
    view (arrays demo3) (Slice 1 0 3) = Some ts
    /\ encoder SpamLevel (Some [lit "a"; lit "b"; lit "c"]) = encoder SpamLevel ts
    /\ forall id v, Sink 0 = Sink id ->
         exists w',
           Print 2 v demo3 = Some (2, w')
           /\ loggers w' = loggers demo3
           /\ exists c, written w' = written demo3 ++ [c]
                        /\ call_data c
                           = encoder SpamLevel ts ++ fmt.Sprint v ++ resetSuffix.
Proof.
  apply (prefix_is_encoder_output demo3 2
           (mkLogger (Sink 0) (Slice 1 0 3) SpamLevel
                     (encoder SpamLevel (Some [lit "a"; lit "b"; lit "c"])))).
  - exact demo3_reachable.
  - reflexivity.
Defined.
(** C3.  [a.WithLevel(x)] and [a.WithTags(ts...)] return a pointer to a new
    [Logger] object and leave the receiver as it was: the object behind [a]
    is the same record (output, tags, level and prefix), and [a.Level()] and
    the elements of [a.Tags()] are what they were before the call. *)
Theorem With_ops_leave_receiver w l lg ts :
  loggers w !! l = Some lg ->
  view (arrays w) (tags lg) = Some ts ->
  (forall lv, exists n w',
      WithLevel l lv w = Some (n, w')
      /\ n <> l /\ loggers w !! n = None
      /\ (exists lg', loggers w' !! n = Some lg' /\ level lg' = lv)
      /\ loggers w' !! l = Some lg
      /\ Level_ l w' = Some (level lg, w')
      /\ tags_of l w' = tags_of l w)
  /\ (forall args, exists n w',
      (let* s := variadic args in WithTags l s) w = Some (n, w')
      /\ n <> l /\ loggers w !! n = None
      /\ (exists lg', loggers w' !! n = Some lg') /\ tags_of n w' = Some args
      /\ loggers w' !! l = Some lg
      /\ Level_ l w' = Some (level lg, w')
      /\ tags_of l w' = tags_of l w).
Proof.
  intros Hl Hv.
  pose proof (lookup_lt_Some _ _ _ Hl) as Hlt.
  split.
  - intros lv. eexists _, _. split; [exact (WithLevel_spec w l lg ts lv Hl Hv)|].
    assert (forall x, (loggers w ++ [x]) !! l = Some lg) as Hl'
      by (intros; by apply lookup_app_l_Some).
    repeat split.
    + lia.
    + by apply lookup_ge_None.
    + eexists. split; [apply lookup_snoc|done].
    + apply Hl'.
    + unfold Level_, bind, load_logger. simpl. by rewrite Hl'.
    + rewrite (tags_of_spec w l lg ts) by done.
      by apply (tags_of_spec _ l lg ts); [apply Hl'|].
  - intros args. unfold bind.
    destruct (variadic_spec args w) as (s & w1 & -> & Hs & Hl1 & _ & _ & Hv1 & _).
    assert (loggers w1 !! l = Some lg) as Hl1' by (by rewrite Hl1).
    eexists _, _. split; [exact (WithTags_spec w1 l lg s _ Hl1' Hs)|].
    assert (forall x, (loggers w1 ++ [x]) !! l = Some lg) as Hl'
      by (intros; by apply lookup_app_l_Some).
    rewrite Hl1. repeat split.
    + lia.
    + by apply lookup_ge_None.
    + eexists. rewrite <- Hl1. apply lookup_snoc.
    + erewrite tags_of_spec; [|rewrite <- Hl1; apply lookup_snoc|exact Hs].
      by destruct args.
    + rewrite <- Hl1. apply Hl'.
    + unfold Level_, bind, load_logger. simpl. rewrite <- Hl1. by rewrite Hl'.
    + rewrite (tags_of_spec w l lg ts) by done.
      apply (tags_of_spec _ l lg ts); [rewrite <- Hl1; apply Hl'|].
      by apply Hv1.
Qed.

Lemma With_ops_leave_receiver_witness :
  (forall lv, exists n w',
      WithLevel 1 lv demo2 = Some (n, w')
      /\ n <> 1 /\ loggers demo2 !! n = None
      /\ (exists lg', loggers w' !! n = Some lg' /\ level lg' = lv)
      /\ loggers w' !! 1
         = Some (mkLogger (Sink 0) (Slice 1 0 3) InfoLevel
                   (encoder InfoLevel (Some [lit "a"; lit "b"; lit "c"])))
      /\ Level_ 1 w' = Some (InfoLevel, w')
      /\ tags_of 1 w' = tags_of 1 demo2)
  /\ (forall args, exists n w',
      (let* s := variadic args in WithTags 1 s) demo2 = Some (n, w')
      /\ n <> 1 /\ loggers demo2 !! n = None
      /\ (exists lg', loggers w' !! n = Some lg') /\ tags_of n w' = Some args
      /\ loggers w' !! 1
         = Some (mkLogger (Sink 0) (Slice 1 0 3) InfoLevel
                   (encoder InfoLevel (Some [lit "a"; lit "b"; lit "c"])))
      /\ Level_ 1 w' = Some (InfoLevel, w')
      /\ tags_of 1 w' = tags_of 1 demo2).
Proof.
  apply (With_ops_leave_receiver demo2 1
           (mkLogger (Sink 0) (Slice 1 0 3) InfoLevel
                     (encoder InfoLevel (Some [lit "a"; lit "b"; lit "c"])))
           (Some [lit "a"; lit "b"; lit "c"])).
  - reflexivity.
  - reflexivity.
Defined.

(** C9.  [Tags()] returns a slice over a fresh backing array holding the
    logger's tags element by element; whatever the caller then stores into
    the returned slice, the logger objects, the elements of the logger's own
    tag slice and the result of later calls of [Tags()] stay the same. *)
Theorem Tags_returns_copy w l lg ts :
  loggers w !! l = Some lg ->
  view (arrays w) (tags lg) = Some ts ->
  exists r w1,
    Tags l w = Some (r, w1)
    /\ view (arrays w1) r = Some (Some (default [] ts))
    /\ loggers w1 = loggers w
    /\ forall ws w2,
         store_all r ws w1 = Some (tt, w2) ->
         loggers w2 = loggers w
         /\ view (arrays w2) (tags lg) = Some ts
         /\ tags_of l w2 = Some (default [] ts).
Proof.
  intros Hl Hv. eexists _, _. split; [exact (Tags_spec w l lg ts Hl Hv)|].
  pose proof (tags_of_spec w l lg ts Hl Hv) as Ht.
  unfold tags_of in Ht. rewrite (Tags_spec _ _ _ _ Hl Hv) in Ht.
  split.
  { remember (view (arrays (set_arrays (arrays w ++ [default [] ts]) w))
                (Slice (length (arrays w)) 0 (slice_len (tags lg)))) as x eqn:Hx.
    clear Hx. destruct x as [[elems|]|]; by simplify_eq. }
  split; [done|].
  intros ws w2 Hst. apply store_all_frame in Hst as [Hlg Harr]. simpl in *.
  assert (view (arrays w2) (tags lg) = Some ts) as Hv2.
  { rewrite <- Hv. apply view_ext. intros arr off len Htag.
    rewrite Htag in Hv. apply view_valid in Hv.
    rewrite Harr by lia. by apply lookup_app_l. }
  repeat split; try done.
  apply (tags_of_spec w2 l lg ts); [by rewrite Hlg|done].
Qed.

Lemma Tags_returns_copy_witness :
  exists r w1,
    Tags 1 demo2 = Some (r, w1)
    /\ view (arrays w1) r = Some (Some [lit "a"; lit "b"; lit "c"])
    /\ loggers w1 = loggers demo2
    /\ forall ws w2,
         store_all r ws w1 = Some (tt, w2) ->
         loggers w2 = loggers demo2
         /\ view (arrays w2) (Slice 1 0 3) = Some (Some [lit "a"; lit "b"; lit "c"])
         /\ tags_of 1 w2 = Some [lit "a"; lit "b"; lit "c"].
Proof.
  apply (Tags_returns_copy demo2 1
           (mkLogger (Sink 0) (Slice 1 0 3) InfoLevel
                     (encoder InfoLevel (Some [lit "a"; lit "b"; lit "c"])))
           (Some [lit "a"; lit "b"; lit "c"])).
  - reflexivity.
  - reflexivity.
Defined.

(** The test of the package: [l2.Tags()[0] = xyz] goes through and
    [l2.Tags()] still is [a, b]. *)
Example Tags_store_xyz :
  let w := exec (let* s := variadic [lit "a"; lit "b"] in WithTags 0 s) demo1 in
  exists r w1 w2,
    Tags 1 w = Some (r, w1)
    /\ slice_store r 0 (lit "xyz") w1 = Some (tt, w2)
    /\ view (arrays w2) r = Some (Some [lit "xyz"; lit "b"])
    /\ tags_of 1 w2 = Some [lit "a"; lit "b"].
Proof. simpl. eexists _, _, _. repeat split. Qed.
Lemma too_long_false_lines p :
  too_long p = false ->
  lines_before_long bufio.MaxScanTokenSize [] p = lines p.
Proof. apply (lines_before_long_ok _ p []). Qed.

Lemma Write_ok w l lg id p :
  loggers w !! l = Some lg ->
  output lg = Sink id ->
  too_long p = false ->
  exists new w',
    Write l p w = Some ((length p, None), w')
    /\ arrays w' = arrays w /\ loggers w' = loggers w
    /\ written w' = written w ++ new
    /\ map call_data new = map (record_of (linePrefix lg)) (lines p)
    /\ Forall (fun c => call_sink c = id) new.
Proof.
  intros Hl Ho Hok.
  rewrite (Write_spec _ _ _ _ _ Hl Ho), Hok, (too_long_false_lines _ Hok).
  destruct (calls_for_shape (respond w) id (linePrefix lg) (lines p) (written w))
    as (new & -> & Hd & Hs).
  by eexists new, _.
Qed.

(** C5.  When no line of the buffer is too long for the scanner, [Write]
    calls [Print] once for every line of the buffer, in order (the text
    after the last newline is a line when it is not empty), and returns the
    length of the buffer and a nil error. *)
Theorem Write_prints_lines w l lg id p :
  loggers w !! l = Some lg ->
  output lg = Sink id ->
  too_long p = false ->
  exists new w',
    Write l p w = Some ((length p, None), w')
    /\ written w' = written w ++ new
    /\ map call_data new = map (record_of (linePrefix lg)) (lines p)
    /\ Forall (fun c => call_sink c = id) new.
Proof.
  intros Hl Ho Hok.
  destruct (Write_ok w l lg id p Hl Ho Hok) as (new & w' & ? & _ & _ & ? & ? & ?).
  by exists new, w'.
Qed.

(** [foo\nbar]: two records, and [(7, nil)]. *)
Lemma Write_prints_lines_witness :
  exists new w',
    Write 0 (lit "foo" ++ [newline] ++ lit "bar") demo1 = Some ((7, None), w')
    /\ written w' = written demo1 ++ new
    /\ map call_data new
       = map (record_of (encoder InfoLevel (Some [])))
             (lines (lit "foo" ++ [newline] ++ lit "bar"))
    /\ Forall (fun c => call_sink c = 0) new.
Proof.
  apply (Write_prints_lines demo1 0
           (mkLogger (Sink 0) (Slice 0 0 0) InfoLevel (encoder InfoLevel (Some []))) 0
           (lit "foo" ++ [newline] ++ lit "bar")).
  - reflexivity.
  - reflexivity.
  - reflexivity.
Defined.

Example lines_foo_bar :
  lines (lit "foo" ++ [newline] ++ lit "bar") = [lit "foo"; lit "bar"].
Proof. reflexivity. Qed.

(** C10.  A buffer that ends in a newline gives one record for each of its
    newlines and none for the empty rest; the empty buffer gives no record
    and [(0, nil)]. *)
Theorem Write_trailing_newline w l lg id p :
  loggers w !! l = Some lg ->
  output lg = Sink id ->
  too_long (p ++ [newline]) = false ->
  (exists new w',
     Write l (p ++ [newline]) w = Some ((length (p ++ [newline]), None), w')
     /\ written w' = written w ++ new
     /\ length new = count_newlines (p ++ [newline])
     /\ map call_data new
        = map (record_of (linePrefix lg)) (lines (p ++ [newline])))
  /\ Write l [] w = Some ((0, None), w).
Proof.
  intros Hl Ho Hok. split.
  - destruct (Write_ok w l lg id _ Hl Ho Hok) as (new & w' & ? & _ & _ & ? & Hd & _).
    exists new, w'. repeat split; try done.
    apply (f_equal length) in Hd. rewrite !length_map in Hd. rewrite Hd.
    unfold lines. rewrite lines_from_trailing_newline.
    clear. induction p as [|b p IH]; simpl; [done|]. rewrite <- IH.
    destruct (byte_eqb b newline); simpl; lia.
  - rewrite (Write_spec _ _ _ _ _ Hl Ho). simpl. by rewrite set_written_id.
Qed.

(** [foo\n]: one record. *)
Lemma Write_trailing_newline_witness :
  (exists new w',
     Write 0 (lit "foo" ++ [newline]) demo1
     = Some ((length (lit "foo" ++ [newline]), None), w')
     /\ written w' = written demo1 ++ new
     /\ length new = count_newlines (lit "foo" ++ [newline])
     /\ map call_data new
        = map (record_of (encoder InfoLevel (Some []))) (lines (lit "foo" ++ [newline])))
  /\ Write 0 [] demo1 = Some ((0, None), demo1).
Proof.
  apply (Write_trailing_newline demo1 0
           (mkLogger (Sink 0) (Slice 0 0 0) InfoLevel (encoder InfoLevel (Some []))) 0
           (lit "foo")).
  - reflexivity.
  - reflexivity.
  - reflexivity.
Defined.

Example lines_foo_newline :
  lines (lit "foo" ++ [newline]) = [lit "foo"]
  /\ count_newlines (lit "foo" ++ [newline]) = 1.
Proof. split; reflexivity. Qed.

(** C6, as the claim states it, fails: the sink fails the write, and
    [Write] returns [(3, nil)]. *)
Lemma Write_hides_sink_failure :
  Write 0 (lit "foo") failing1
  = Some ((3, None),
          set_written
            [mkCall 0 (klio_record InfoLevel (Some []) (lit "foo"))
                    (0, Some (SinkError 1))] failing1).
Proof. vm_compute. reflexivity. Qed.

(** C6, amended.  A scan failure is surfaced: when a line is too long for
    the scanner, [Write] returns zero and [ErrTooLong].  A failure of the
    sink is not: when no line is too long, [Write] returns the length of the
    buffer and a nil error, whatever the sinks answer to the writes. *)
Theorem Write_surfaces_scan_failure w rsp l lg id p :
  loggers w !! l = Some lg ->
  output lg = Sink id ->
  (too_long p = true ->
   exists w', Write l p (set_respond rsp w) = Some ((0, Some bufio.ErrTooLong), w'))
  /\ (too_long p = false ->
      exists w', Write l p (set_respond rsp w) = Some ((length p, None), w')).
Proof.
  intros Hl Ho. split; intros Hlong.
  - rewrite (Write_spec _ _ lg id) by done. rewrite Hlong. by eexists.
  - destruct (Write_ok (set_respond rsp w) l lg id p Hl Ho Hlong) as (new & w' & ? & _).
    by exists w'.
Qed.

Lemma Write_surfaces_scan_failure_witness :
  (too_long (lit "foo") = true ->
   exists w',
     Write 0 (lit "foo") (set_respond (fun _ _ _ => (0, Some (SinkError 7))) demo1)
     = Some ((0, Some bufio.ErrTooLong), w'))
  /\ (too_long (lit "foo") = false ->
      exists w',
        Write 0 (lit "foo") (set_respond (fun _ _ _ => (0, Some (SinkError 7))) demo1)
        = Some ((length (lit "foo"), None), w')).
Proof.
  apply (Write_surfaces_scan_failure demo1 (fun _ _ _ => (0, Some (SinkError 7))) 0
           (mkLogger (Sink 0) (Slice 0 0 0) InfoLevel (encoder InfoLevel (Some []))) 0
           (lit "foo")).
  - reflexivity.
  - reflexivity.
Defined.

(** ** JSON payloads are well escaped *)

Section JsonFacts.
Import json.
Local Open Scope Z_scope.

Lemma well_escaped_app a b :
  well_escaped a -> well_escaped b -> well_escaped (a ++ b).
Proof.
  induction 1; intros Hb; simpl; [done|..].
  - apply we_plain; auto.
  - apply we_short; auto.
  - apply we_unicode; auto.
Qed.

Lemma well_escaped_high l rest :
  Forall high l -> well_escaped rest -> well_escaped (l ++ rest).
Proof.
  induction 1 as [|b l Hb _ IH]; intros Hr; simpl; [done|].
  apply we_plain; [| |by apply IH]; intros ->; discriminate Hb.
Qed.

Lemma well_escaped_safe b rest :
  htmlSafeSet b = true -> well_escaped rest -> well_escaped (b :: rest).
Proof.
  intros Hs Hr. apply we_plain; [| |done]; intros ->; discriminate Hs.
Qed.

Lemma well_escaped_escapeByte b rest :
  (b2z b <? utf8.RuneSelf) = true ->
  htmlSafeSet b = false ->
  well_escaped rest ->
  well_escaped (escapeByte b ++ rest).
Proof.
  intros Hlow Hs Hr.
  destruct b; try discriminate Hlow; try discriminate Hs;
    first [ by apply we_short | by apply we_unicode ].
Qed.
(** A multi-byte sequence that [DecodeRuneInString] accepts consists of
    bytes from 0x80 on. *)
Lemma DecodeRune_high b rest c size :
  high b ->
  utf8.DecodeRuneInString (b :: rest) = (c, size) ->
  (c = utf8.RuneError /\ size = 1%nat)
  \/ ((size <= 4)%nat /\ Forall high (take size (b :: rest))).
Proof.
  intros Hb. unfold utf8.DecodeRuneInString.
  assert (forall i, utf8.locb <= fst (utf8.acceptRanges i)) as Hlo.
  { intros i. unfold utf8.acceptRanges, utf8.locb.
    repeat (destruct (_ =? _); simpl; try lia). }
  assert (forall x lo, utf8.locb <= lo -> (b2z x <? lo) = false -> high x) as Hhigh.
  { intros x lo Hle Hx. apply Z.ltb_ge in Hx. apply Z.ltb_ge.
    unfold utf8.locb, utf8.RuneSelf in *. lia. }
  destruct (utf8.as_ <=? utf8.first b) eqn:Has.
  { assert (utf8.first b = utf8.xx) as ->.
    { revert Has. unfold utf8.first. unfold high, utf8.RuneSelf in Hb. rewrite Hb.
      repeat (destruct (_ <? _) || destruct (_ =? _)); try done. }
    simpl. intros [= <- <-]. by left. }
  destruct (utf8.acceptRanges (Z.shiftr (utf8.first b) 4)) as [lo hi] eqn:Hacc.
  pose proof (Hlo (Z.shiftr (utf8.first b) 4)) as Hlo'. rewrite Hacc in Hlo'.
  simpl in Hlo'.
  destruct (Nat.ltb _ _); [intros [= <- <-]; by left|].
  destruct rest as [|c1 t1]; [intros [= <- <-]; by left|].
  destruct ((b2z c1 <? lo) || (hi <? b2z c1)) eqn:H1; [intros [= <- <-]; by left|].
  apply orb_false_iff in H1 as [H1 _]. apply (Hhigh _ _ Hlo') in H1.
  destruct (Nat.leb _ 2).
  { intros [= <- <-]. right. split; [lia|]. simpl. by repeat constructor. }
  destruct t1 as [|c2 t2]; [intros [= <- <-]; by left|].
  destruct ((b2z c2 <? utf8.locb) || (utf8.hicb <? b2z c2)) eqn:H2;
    [intros [= <- <-]; by left|].
  apply orb_false_iff in H2 as [H2 _]. apply (Hhigh _ utf8.locb) in H2; [|lia].
  destruct (Nat.leb _ 3).
  { intros [= <- <-]. right. split; [lia|]. simpl. by repeat constructor. }
  destruct t2 as [|c3 t3]; [intros [= <- <-]; by left|].
  destruct ((b2z c3 <? utf8.locb) || (utf8.hicb <? b2z c3)) eqn:H3;
    [intros [= <- <-]; by left|].
  apply orb_false_iff in H3 as [H3 _]. apply (Hhigh _ utf8.locb) in H3; [|lia].
  intros [= <- <-]. right. split; [lia|]. simpl. by repeat constructor.
Qed.

Lemma well_escaped_appendLoop fuel : forall src,
  well_escaped (appendLoop fuel src).
Proof.
  induction fuel as [|fuel IH]; intros [|b rest]; cbn [appendLoop];
    try apply we_nil.
  destruct (b2z b <? utf8.RuneSelf) eqn:Hb.
  - destruct (htmlSafeSet b) eqn:Hs.
    + by apply well_escaped_safe.
    + by apply well_escaped_escapeByte.
  - destruct (utf8.DecodeRuneInString (take utf8.UTFMax (b :: rest)))
      as [c size] eqn:Hd.
    change (take utf8.UTFMax (b :: rest)) with (b :: take 3 rest) in Hd.
    destruct ((c =? utf8.RuneError) && Nat.eqb size 1) eqn:Herr.
    { apply (we_unicode x66 x66 x66 x64); first [done | apply IH]. }
    destruct ((c =? 0x2028) || (c =? 0x2029)) eqn:Hsep.
    { apply orb_true_iff in Hsep as [Hc|Hc]; apply Z.eqb_eq in Hc; subst c;
        apply (we_unicode x32 x30 x32); first [done | apply IH]. }
    apply (DecodeRune_high b _ _ _ Hb) in Hd as [[-> ->]|[Hsz Hhigh]].
    { by rewrite Z.eqb_refl in Herr. }
    apply well_escaped_high; [|apply IH].
    change (b :: take 3 rest) with (take 4 (b :: rest)) in Hhigh.
    rewrite take_take in Hhigh. by rewrite Nat.min_l in Hhigh.
Qed.

Lemma well_escaped_appendString src : well_escaped (appendString src).
Proof.
  unfold appendString. simpl. apply we_plain; [done..|].
  apply well_escaped_app; [apply well_escaped_appendLoop|].
  apply we_plain; [done..|]. apply we_nil.
Qed.

Lemma well_escaped_arrayElems l : well_escaped (arrayElems l).
Proof.
  induction l as [|x l IH]; [apply we_nil|].
  destruct l as [|y l]; [apply well_escaped_appendString|].
  change (arrayElems (x :: y :: l))
    with (appendString x ++ lit "," ++ arrayElems (y :: l)).
  apply well_escaped_app; [apply well_escaped_appendString|].
  simpl. by apply we_plain.
Qed.

Lemma well_escaped_json_tags ts : well_escaped (json_tags ts).
Proof.
  destruct ts as [l|]; simpl.
  - apply we_plain; [done..|].
    apply well_escaped_app; [apply well_escaped_arrayElems|].
    apply we_plain; [done..|]. apply we_nil.
  - apply we_plain; [done..|]. apply we_plain; [done..|]. apply we_nil.
Qed.

Lemma well_escaped_no_ESC l : well_escaped l -> ~ In ESC l.
Proof.
  induction 1 as [|b rest Hb _ _ IH|c rest Hc _ IH|h1 h2 h3 h4 rest H1 H2 H3 H4 _ IH];
    simpl.
  - tauto.
  - intros [?|?]; [congruence|tauto].
  - intros [?|[->|?]]; [done|discriminate Hc|tauto].
  - intros [?|[?|[->|[->|[->|[->|?]]]]]]; done.
Qed.

Lemma encodeTags_json ts :
  encodeTags Marshal_strings ts = json_tags ts.
Proof. by destruct ts as [[|x l]|]. Qed.
End JsonFacts.

(** C7.  Whatever the level and the tags, the escape byte does not occur
    in the two JSON payloads of the prefix, and every backslash in them
    belongs to an escape sequence of JSON; so the terminator, ESC followed
    by a backslash, does not occur inside a payload.  The tag made of ESC
    and a backslash is rendered as the array with the one string
    [\u001b\\]. *)
Theorem json_payload_escaped (lv : Level) (ts : option (list bytes)) :
  well_escaped (encodeLevel json.Marshal_string lv)
  /\ well_escaped (encodeTags json.Marshal_strings ts)
  /\ ~ In ESC (encodeLevel json.Marshal_string lv)
  /\ ~ In ESC (encodeTags json.Marshal_strings ts)
  /\ (forall pre post,
        encodeLevel json.Marshal_string lv <> pre ++ [ESC; backslash] ++ post
        /\ encodeTags json.Marshal_strings ts <> pre ++ [ESC; backslash] ++ post)
  /\ encodeTags json.Marshal_strings (Some [[ESC; backslash]])
     = lit "[" ++ [dquote] ++ lit "\u001b\\" ++ [dquote] ++ lit "]".
Proof.
  assert (well_escaped (encodeLevel json.Marshal_string lv)) as HL
    by apply well_escaped_appendString.
  assert (well_escaped (encodeTags json.Marshal_strings ts)) as HT
    by (rewrite encodeTags_json; apply well_escaped_json_tags).
  pose proof (well_escaped_no_ESC _ HL) as HLe.
  pose proof (well_escaped_no_ESC _ HT) as HTe.
  repeat split; try done.
  - intros Heq. apply HLe. rewrite Heq. apply in_or_app. right. by left.
  - intros Heq. apply HTe. rewrite Heq. apply in_or_app. right. by left.
Qed.

(** ** Level names *)

Section LevelFacts.
Local Open Scope Z_scope.

Lemma bytes_eqb_eq a : forall b, bytes_eqb a b = true <-> a = b.
Proof.
  induction a as [|x a IH]; intros [|y b]; simpl; try done.
  rewrite andb_true_iff, byte_eqb_eq, IH. split.
  - by intros [-> ->].
  - by intros [= -> ->].
Qed.

Lemma bytes_eqb_refl a : bytes_eqb a a = true.
Proof. by apply bytes_eqb_eq. Qed.

Lemma same_letter_lower a b :
  is_lower b = true -> same_letter a b = byte_eqb b (strings.lowerByte a).
Proof.
  intros Hb. destruct b; try discriminate Hb; by destruct a.
Qed.

Lemma same_letter_letter a b :
  is_lower b = true -> same_letter a b = true -> is_ascii_letter a = true.
Proof.
  intros Hb. destruct b; try discriminate Hb; by destruct a.
Qed.

Lemma case_variant_lower name : forall s,
  forallb is_lower name = true ->
  case_variant s name = bytes_eqb name (map strings.lowerByte s).
Proof.
  induction name as [|b name IH]; intros [|a s]; simpl; try done.
  intros [Hb Hn]%andb_true_iff.
  by rewrite (same_letter_lower _ _ Hb), IH.
Qed.

Lemma case_variant_letters name : forall s,
  forallb is_lower name = true ->
  case_variant s name = true ->
  forallb is_ascii_letter s = true.
Proof.
  induction name as [|b name IH]; intros [|a s]; simpl; try done.
  intros [Hb Hn]%andb_true_iff [Ha Hs]%andb_true_iff.
  by rewrite (same_letter_letter _ _ Hb Ha), IH.
Qed.

Lemma knownLevels_lower name :
  In name knownLevels -> forallb is_lower name = true.
Proof.
  simpl. intros [<-|[<-|[<-|[<-|[<-|[<-|[<-|[]]]]]]]]; reflexivity.
Qed.

Lemma lowerByte_id s :
  existsb strings.isUpperByte s = false -> map strings.lowerByte s = s.
Proof.
  induction s as [|a s IH]; simpl; [done|].
  intros [Ha Hs]%orb_false_iff. unfold strings.lowerByte at 1.
  by rewrite Ha, IH.
Qed.

Lemma ToLower_ascii tbl s :
  forallb strings.isASCIIbyte s = true ->
  strings.ToLower tbl s = map strings.lowerByte s.
Proof.
  intros Hs. unfold strings.ToLower. rewrite Hs.
  destruct (existsb strings.isUpperByte s) eqn:Hu; [done|].
  by rewrite lowerByte_id.
Qed.

(** The comma-ok lookup in [levelsMap]. *)
Lemma mapIndex_levelsMap k :
  match mapIndex levelsMap k with
  | Some v => v = k /\ In k knownLevels
  | None => forall name, In name knownLevels -> k <> name
  end.
Proof.
  unfold levelsMap, mapIndex, knownLevels.
  repeat match goal with
  | |- context [bytes_eqb ?n k] =>
    let E := fresh "E" in
    destruct (bytes_eqb n k) eqn:E;
      [apply bytes_eqb_eq in E; subst k; simpl; tauto|]
  end.
  intros name Hin ->. simpl in Hin.
  repeat match goal with
  | H : bytes_eqb ?n ?n = false |- _ => by rewrite bytes_eqb_refl in H
  | H : _ \/ _ |- _ => destruct H as [<-|H]
  end.
  done.
Qed.

Lemma mapIndex_find k :
  mapIndex levelsMap k = find (fun n => bytes_eqb n k) knownLevels.
Proof.
  unfold levelsMap, mapIndex, knownLevels, find.
  by repeat match goal with
  | |- context [bytes_eqb ?n k] => destruct (bytes_eqb n k)
  end.
Qed.
End LevelFacts.

(** C4.  [ParseLevel] is total.  It returns a known level and [true]
    exactly when the argument, folded to lower case by [strings.ToLower],
    is one of the seven names, and [info] and [false] otherwise.  On an
    ASCII argument this means: the argument is one of the names up to the
    case of its letters; an argument with a byte that is not a letter, such
    as a blank before or after a name, is not matched. *)
Theorem ParseLevel_spec (To_LowerCase : Z -> Z) :
  (forall s,
      (exists name, In name knownLevels
                    /\ strings.ToLower To_LowerCase s = name
                    /\ ParseLevel To_LowerCase s = (name, true))
      \/ ((forall name, In name knownLevels -> strings.ToLower To_LowerCase s <> name)
          /\ ParseLevel To_LowerCase s = (DefaultLevel, false)))
  /\ (forall s,
        forallb strings.isASCIIbyte s = true ->
        ParseLevel To_LowerCase s
        = match find (case_variant s) knownLevels with
          | Some name => (name, true)
          | None => (DefaultLevel, false)
          end)
  /\ (forall s,
        forallb strings.isASCIIbyte s = true ->
        forallb is_ascii_letter s = false ->
        ParseLevel To_LowerCase s = (DefaultLevel, false)).
Proof.
  assert (forall s,
    forallb strings.isASCIIbyte s = true ->
    ParseLevel To_LowerCase s
    = match find (case_variant s) knownLevels with
      | Some name => (name, true)
      | None => (DefaultLevel, false)
      end) as Hascii.
  { intros s Hs. unfold ParseLevel.
    rewrite (ToLower_ascii _ _ Hs), mapIndex_find.
    unfold knownLevels, find.
    by rewrite !case_variant_lower by reflexivity. }
  split; [|split; [exact Hascii|]].
  - intros s. unfold ParseLevel.
    pose proof (mapIndex_levelsMap (strings.ToLower To_LowerCase s)) as H.
    destruct (mapIndex levelsMap (strings.ToLower To_LowerCase s)) as [v|].
    + left. destruct H as [-> Hin]. eauto.
    + right. split; [|done]. intros name Hin Heq. by apply (H name).
  - intros s Hs Hletters. rewrite (Hascii s Hs).
    destruct (find (case_variant s) knownLevels) as [name|] eqn:Hf; [|done].
    apply find_some in Hf as [Hin Hcv].
    apply case_variant_letters in Hcv; [congruence|].
    by apply knownLevels_lower.
Qed.

Lemma ParseLevel_spec_witness :
  ParseLevel (fun r => r) (lit "SpAm") = (SpamLevel, true)
  /\ ParseLevel (fun r => r) (lit "  spam") = (DefaultLevel, false)
  /\ ParseLevel (fun r => r) (lit "unknown") = (DefaultLevel, false).
Proof.
  destruct (ParseLevel_spec (fun r => r)) as (_ & Hvariant & Hother).
  split; [|split].
  - exact (Hvariant (lit "SpAm") eq_refl).
  - exact (Hother (lit "  spam") eq_refl eq_refl).
  - exact (Hvariant (lit "unknown") eq_refl).
Defined.

(** Case folding is the one of [strings.ToLower], which folds more than
    ASCII: with a case table that maps the capital dotted I, U+0130, to [i]
    (the table of the Go distribution does), that letter is taken for an
    [i]. *)
Example ParseLevel_dotted_I :
  ParseLevel dotted_I_table ([xc4; xb0] ++ lit "nfo") = (InfoLevel, true).
Proof. vm_compute. reflexivity. Qed.

(** ** The fallback of the encoder *)

(** C8.  Whatever the marshallers return, the encoder yields a prefix and
    no failure: a level that fails to marshal is replaced by the quoted
    default level, tags that fail to marshal or marshal to [null] by [[]].
    [WithTags] called without arguments receives the nil slice, which
    marshals to [null]: the new logger prints the tags field [[]], its
    prefix is the one of a logger with an empty tag slice, and its [Tags()]
    is empty. *)
Theorem encoder_falls_back {E : Type}
    (marshalLevel : Level -> bytes * option E)
    (marshalTags : option (list bytes) -> bytes * option E) :
  (forall lv e, snd (marshalLevel lv) = Some e ->
      encodeLevel marshalLevel lv = [dquote] ++ DefaultLevel ++ [dquote])
  /\ (forall ts, snd (marshalTags ts) <> None \/ fst (marshalTags ts) = lit "null" ->
      encodeTags marshalTags ts = lit "[]")
  /\ (forall w l lg ts,
        loggers w !! l = Some lg ->
        view (arrays w) (tags lg) = Some ts ->
        exists w',
          updateLinePrefix_with marshalLevel marshalTags l w = Some (tt, w')
          /\ loggers w' !! l
             = Some (mkLogger (output lg) (tags lg) (level lg)
                       (prefixFormat (encodeLevel marshalLevel (level lg))
                                     (encodeTags marshalTags ts))))
  /\ (forall w l lg,
        loggers w !! l = Some lg ->
        exists n w' lg',
          (let* s := variadic [] in WithTags l s) w = Some (n, w')
          /\ loggers w' !! n = Some lg'
          /\ tags lg' = nil_slice
          /\ linePrefix lg' = prefixFormat (json.appendString (level lg)) (lit "[]")
          /\ linePrefix lg' = encoder (level lg) (Some [])
          /\ tags_of n w' = Some []).
Proof.
  split; [|split; [|split]].
  - intros lv e He. unfold encodeLevel.
    destruct (marshalLevel lv) as [b oe]. simpl in He. by rewrite He.
  - intros ts Hts. unfold encodeTags.
    destruct (marshalTags ts) as [b oe]. simpl in Hts.
    destruct Hts as [Hne| ->].
    + by rewrite (bool_decide_eq_true_2 _ Hne).
    + by rewrite bytes_eqb_refl, orb_true_r.
  - intros w l lg ts Hl Hv.
    rewrite (updateLinePrefix_with_spec _ _ _ _ _ _ Hl Hv).
    eexists. split; [reflexivity|]. simpl.
    apply list_lookup_insert_eq. by eapply lookup_lt_Some.
  - intros w l lg Hl.
    set (lg' := mkLogger (output lg) nil_slice (level lg) (encoder (level lg) None)).
    exists (length (loggers w)), (set_loggers (loggers w ++ [lg']) w), lg'.
    split; [exact (WithTags_spec w l lg nil_slice None Hl eq_refl)|].
    split; [apply lookup_snoc|].
    do 3 (split; [done|]).
    apply (tags_of_spec _ _ lg' None); [apply lookup_snoc|done].
Qed.

Lemma encoder_falls_back_witness :
  encodePrefix (E:=unit) (fun _ => ([], Some tt)) (fun _ => ([], Some tt))
    SpamLevel (Some [lit "a"])
  = prefixFormat ([dquote] ++ lit "info" ++ [dquote]) (lit "[]")
  /\ exists n w' lg',
       (let* s := variadic [] in WithTags 1 s) demo2 = Some (n, w')
       /\ loggers w' !! n = Some lg'
       /\ tags lg' = nil_slice
       /\ linePrefix lg' = prefixFormat (json.appendString InfoLevel) (lit "[]")
       /\ linePrefix lg' = encoder InfoLevel (Some [])
       /\ tags_of n w' = Some [].
Proof.
  destruct (encoder_falls_back (E:=unit) (fun _ => ([], Some tt)) (fun _ => ([], Some tt)))
    as (HL & HT & _ & HW).
  split.
  - unfold encodePrefix.
    rewrite (HL SpamLevel tt eq_refl), (HT (Some [lit "a"])); [done|by left].
  - exact (HW demo2 1
             (mkLogger (Sink 0) (Slice 1 0 3) InfoLevel
                       (encoder InfoLevel (Some [lit "a"; lit "b"; lit "c"])))
             eq_refl).
Defined.

(** ** Two remarks *)

Lemma too_long_from_repeat max b k : forall n,
  byte_eqb b newline = false ->
  0 < k -> max <= n + k ->
  too_long_from max n (repeat b k) = true
  /\ lines_before_long max (repeat b n) (repeat b k) = [].
Proof.
  induction k as [|k IH]; intros n Hb Hk Hmax; [lia|].
  simpl. rewrite Hb, repeat_length.
  destruct (Nat.leb max (S n)) eqn:Hle; [done|].
  apply Nat.leb_gt in Hle. simpl.
  destruct (IH (S n) Hb) as [-> Hl]; [lia..|].
  split; [done|]. by rewrite <- repeat_cons.
Qed.

(** A buffer of [MaxScanTokenSize] bytes without a newline is too long:
    [Write] prints nothing and returns [ErrTooLong]. *)
Example Write_too_long :
  Write 0 (repeat x41 bufio.MaxScanTokenSize) demo1
  = Some ((0, Some bufio.ErrTooLong), demo1).
Proof.
  rewrite (Write_spec demo1 0
             (mkLogger (Sink 0) (Slice 0 0 0) InfoLevel (encoder InfoLevel (Some []))) 0)
    by reflexivity.
  destruct (too_long_from_repeat bufio.MaxScanTokenSize x41 bufio.MaxScanTokenSize 0)
    as [Hlong Hlines]; [done|unfold bufio.MaxScanTokenSize; lia|lia|].
  unfold too_long. rewrite Hlong. change (repeat x41 0) with (@nil byte) in Hlines.
  rewrite Hlines. reflexivity.
Qed.

(** C2.  The code at the input on which the claim fails:
    [s := []string{a}], [l := New(sink0).WithTags(s...)], [s[0] = b].
    [WithTags] keeps the slice it is given and computes the prefix then.
    After the caller's store the logger's level is [info] and [l.Tags()]
    is [b], while the cached prefix is the encoder's output for [info] and
    [a], not for [info] and [b], and it is the one [Print] writes: the
    prefix is not the encoder applied to the logger's current level and
    tags. *)
Theorem WithTags_keeps_callers_slice :
  let prog :=
    (let* s := variadic [lit "a"] in
     let* l := WithTags 0 s in
     let* _ := slice_store s 0 (lit "b") in
     ret l) in
  exists l w lg,
    prog demo1 = Some (l, w)
    /\ loggers w !! l = Some lg
    /\ Level_ l w = Some (InfoLevel, w)
    /\ tags_of l w = Some [lit "b"]
    /\ linePrefix lg = encoder InfoLevel (Some [lit "a"])
    /\ linePrefix lg <> encoder InfoLevel (Some [lit "b"])
    /\ (exists c,
          Print l [fmt.str (lit "x")] w = Some (l, set_written (written w ++ [c]) w)
          /\ call_data c = klio_record InfoLevel (Some [lit "a"]) (lit "x"))
    /\ ~ consistent w.
Proof.
  eexists _, _, _. split; [vm_compute; reflexivity|].
  split; [reflexivity|]. split; [vm_compute; reflexivity|].
  split; [vm_compute; reflexivity|].
  split; [vm_compute; reflexivity|].
  split; [vm_compute; discriminate|].
  split; [eexists; split; vm_compute; reflexivity|].
  intros Hc. destruct (Hc 1 _ eq_refl) as (ts & Hv & Hp).
  vm_compute in Hv. injection Hv as <-. vm_compute in Hp. discriminate.
Qed.

(** * Further properties of the package *)

(** ** [SetOutput], [Output] and the copies made by [WithLevel] *)

Lemma SetOutput_spec w l lg out :
  loggers w !! l = Some lg ->
  SetOutput l out w
  = Some (tt, set_loggers
                (<[l := mkLogger out (tags lg) (level lg) (linePrefix lg)]> (loggers w)) w).
Proof.
  intros Hl. unfold SetOutput, bind, load_logger, store_logger. by rewrite Hl, Hl.
Qed.

(** X1.  [SetOutput] changes the output of the one logger it is called on
    and nothing else: [Output()] then returns the new writer, the level,
    the tags and the prefix of the logger stay, every other logger and
    the calls made so far stay, and [Print] sends the same bytes as before,
    now to the new sink. *)
Theorem SetOutput_redirects w l lg id id' v :
  loggers w !! l = Some lg ->
  output lg = Sink id ->
  exists w',
    SetOutput l (Sink id') w = Some (tt, w')
    /\ Output l w' = Some (Sink id', w')
    /\ Level_ l w' = Some (level lg, w')
    /\ loggers w' !! l
       = Some (mkLogger (Sink id') (tags lg) (level lg) (linePrefix lg))
    /\ (forall l', l' <> l -> loggers w' !! l' = loggers w !! l')
    /\ arrays w' = arrays w /\ written w' = written w
    /\ exists c c' w1 w1',
         Print l v w = Some (l, w1) /\ written w1 = written w ++ [c]
         /\ Print l v w' = Some (l, w1') /\ written w1' = written w ++ [c']
         /\ call_sink c = id /\ call_sink c' = id'
         /\ call_data c' = call_data c.
Proof.
  intros Hl Ho.
  pose proof (lookup_lt_Some _ _ _ Hl) as Hlt.
  set (lg' := mkLogger (Sink id') (tags lg) (level lg) (linePrefix lg)).
  set (w' := set_loggers (<[l := lg']> (loggers w)) w).
  assert (loggers w' !! l = Some lg') as Hl' by (by apply list_lookup_insert_eq).
  exists w'. split; [exact (SetOutput_spec w l lg _ Hl)|].
  split; [|split; [|split; [exact Hl'|split; [|split; [done|split; [done|]]]]]].
  - unfold Output, bind, load_logger. by rewrite Hl'.
  - unfold Level_, bind, load_logger. by rewrite Hl'.
  - intros l' Hne. simpl. by apply list_lookup_insert_ne.
  - eexists _, _, _, _.
    split; [exact (Print_spec w l lg id v Hl Ho)|]. split; [done|].
    split; [exact (Print_spec w' l lg' id' v Hl' eq_refl)|]. by repeat split.
Qed.

Lemma SetOutput_redirects_witness :
  exists w',
    SetOutput 0 (Sink 5) demo1 = Some (tt, w')
    /\ Output 0 w' = Some (Sink 5, w')
    /\ Level_ 0 w' = Some (InfoLevel, w')
    /\ loggers w' !! 0
       = Some (mkLogger (Sink 5) (Slice 0 0 0) InfoLevel (encoder InfoLevel (Some [])))
    /\ (forall l', l' <> 0 -> loggers w' !! l' = loggers demo1 !! l')
    /\ arrays w' = arrays demo1 /\ written w' = written demo1
    /\ exists c c' w1 w1',
         Print 0 [fmt.str (lit "foo")] demo1 = Some (0, w1)
         /\ written w1 = written demo1 ++ [c]
         /\ Print 0 [fmt.str (lit "foo")] w' = Some (0, w1')
         /\ written w1' = written demo1 ++ [c']
         /\ call_sink c = 0 /\ call_sink c' = 5
         /\ call_data c' = call_data c.
Proof.
  apply (SetOutput_redirects demo1 0
           (mkLogger (Sink 0) (Slice 0 0 0) InfoLevel (encoder InfoLevel (Some []))) 0 5
           [fmt.str (lit "foo")]).
  - reflexivity.
  - reflexivity.
Defined.

(** X2.  [WithLevel] copies the output into the new logger when it is
    called: a later [SetOutput] on the receiver does not
    reach the logger derived before, and a logger derived after it has the
    new output. *)
Theorem derived_logger_keeps_output w l lg ts lv out :
  loggers w !! l = Some lg ->
  view (arrays w) (tags lg) = Some ts ->
  exists n w1 w2 n' w3,
    WithLevel l lv w = Some (n, w1)
    /\ SetOutput l out w1 = Some (tt, w2)
    /\ Output n w2 = Some (output lg, w2)
    /\ Output l w2 = Some (out, w2)
    /\ WithLevel l lv w2 = Some (n', w3)
    /\ Output n' w3 = Some (out, w3)
    /\ Output n w3 = Some (output lg, w3).
Proof.
  intros Hl Hv.
  pose proof (lookup_lt_Some _ _ _ Hl) as Hlt.
  set (lgn := mkLogger (output lg) (tags lg) lv (encoder lv ts)).
  set (w1 := set_loggers (loggers w ++ [lgn]) w).
  assert (loggers w1 !! l = Some lg) as Hl1 by (by apply lookup_app_l_Some).
  set (lg' := mkLogger out (tags lg) (level lg) (linePrefix lg)).
  set (w2 := set_loggers (<[l := lg']> (loggers w1)) w1).
  assert (loggers w2 !! l = Some lg') as Hl2.
  { apply list_lookup_insert_eq. by eapply lookup_lt_Some. }
  assert (loggers w2 !! length (loggers w) = Some lgn) as Hn2.
  { simpl. rewrite list_lookup_insert_ne by lia. apply lookup_snoc. }
  set (lgn' := mkLogger out (tags lg) lv (encoder lv ts)).
  set (w3 := set_loggers (loggers w2 ++ [lgn']) w2).
  exists (length (loggers w)), w1, w2, (length (loggers w2)), w3.
  split; [exact (WithLevel_spec w l lg ts lv Hl Hv)|].
  split; [exact (SetOutput_spec w1 l lg out Hl1)|].
  split; [unfold Output, bind, load_logger, ptr; by rewrite Hn2|].
  split; [unfold Output, bind, load_logger; by rewrite Hl2|].
  split; [exact (WithLevel_spec w2 l lg' ts lv Hl2 Hv)|].
  assert (loggers w3 !! length (loggers w2) = Some lgn') as Hn3
    by apply lookup_snoc.
  assert (loggers w3 !! length (loggers w) = Some lgn) as Hn3'
    by (by apply lookup_app_l_Some).
  split; unfold Output, bind, load_logger, ptr; [by rewrite Hn3|by rewrite Hn3'].
Qed.

Lemma derived_logger_keeps_output_witness :
  exists n w1 w2 n' w3,
    WithLevel 0 SpamLevel demo1 = Some (n, w1)
    /\ SetOutput 0 (Sink 5) w1 = Some (tt, w2)
    /\ Output n w2 = Some (Sink 0, w2)
    /\ Output 0 w2 = Some (Sink 5, w2)
    /\ WithLevel 0 SpamLevel w2 = Some (n', w3)
    /\ Output n' w3 = Some (Sink 5, w3)
    /\ Output n w3 = Some (Sink 0, w3).
Proof.
  apply (derived_logger_keeps_output demo1 0
           (mkLogger (Sink 0) (Slice 0 0 0) InfoLevel (encoder InfoLevel (Some [])))
           (Some []) SpamLevel (Sink 5)).
  - reflexivity.
  - reflexivity.
Defined.

(** ** What a step leaves alone *)

Lemma Print_written l v w r w' :
  Print l v w = Some (r, w') ->
  exists c, written w' = written w ++ [c].
Proof.
  unfold Print, bind, load_logger.
  destruct (loggers w !! l) as [lg|]; [|done].
  unfold sink_write. destruct (output lg); [done|].
  unfold ret. intros [= <- <-]. by eexists.
Qed.

Lemma writeLoop_written l fuel : forall sc w sc' w',
  writeLoop fuel l sc w = Some (sc', w') ->
  exists new, written w' = written w ++ new.
Proof.
  induction fuel as [|fuel IH]; intros sc w sc' w'; simpl.
  - unfold ret. intros [= <- <-]. exists []. by rewrite app_nil_r.
  - destruct (bufio.Scan sc) as [[] sc1].
    + unfold bind.
      destruct (Print l [fmt.str (bufio.Text sc1)] w) as [[r w1]|] eqn:HP; [|done].
      intros H. apply IH in H as [new ->].
      apply Print_written in HP as [c ->].
      exists (c :: new). by rewrite <- app_assoc.
    + unfold ret. intros [= <- <-]. exists []. by rewrite app_nil_r.
Qed.

Lemma Write_written l p w res w' :
  Write l p w = Some (res, w') ->
  exists new, written w' = written w ++ new.
Proof.
  unfold Write, bind.
  destruct (writeLoop (length p + 1) l (bufio.NewScanner p) w) as [[sc w1]|] eqn:H;
    [|done].
  apply writeLoop_written in H.
  destruct (bufio.Err sc); unfold ret; by intros [= <- <-].
Qed.

Lemma step_frame w w' :
  consistent w -> step w w' ->
  respond w' = respond w
  /\ (exists new, written w' = written w ++ new)
  /\ forall l lg, loggers w !! l = Some lg ->
       exists out,
         loggers w' !! l = Some (mkLogger out (tags lg) (level lg) (linePrefix lg))
         /\ view (arrays w') (tags lg) = view (arrays w) (tags lg)
         /\ (out = output lg \/ SetOutput l out w = Some (tt, w')).
Proof.
  intros Hc Hstep.
  assert (forall l lg, loggers w !! l = Some lg ->
            mkLogger (output lg) (tags lg) (level lg) (linePrefix lg) = lg) as Heta
    by (by intros ? []).
  assert (forall x : list WriteCall, exists new, x = x ++ new) as Hnil
    by (intros x; exists []; by rewrite app_nil_r).
  assert (forall a l lg, loggers w !! l = Some lg ->
            view (arrays w ++ a) (tags lg) = view (arrays w) (tags lg)) as Hview.
  { intros a l lg Hl. destruct (Hc l lg Hl) as (ts & Hv & _).
    rewrite Hv. by apply view_app. }
  destruct Hstep as
    [out w l0 w' H | l0 lv w n w' H | l0 args w n w' H | l0 s w n w' H | l0 w r w' H
    | l0 out w w' H | l0 v w r w' H | l0 p w res w' H | args w s w' H | s i v w w' Hfree H].
  - rewrite New_spec in H. injection H as <- <-. simpl.
    split; [done|]. split; [apply Hnil|]. intros l lg Hl.
    exists (output lg). rewrite (Heta l lg Hl).
    split; [by apply lookup_app_l_Some|]. split; [by apply (Hview _ l)|by left].
  - destruct (WithLevel_inv _ _ _ _ _ H) as (lg0 & ts & Hl0 & Hv).
    rewrite (WithLevel_spec _ _ _ _ _ Hl0 Hv) in H. injection H as <- <-. simpl.
    split; [done|]. split; [apply Hnil|]. intros l lg Hl.
    exists (output lg). rewrite (Heta l lg Hl).
    split; [by apply lookup_app_l_Some|]. split; [done|by left].
  - unfold bind in H.
    destruct (variadic_spec args w) as (s & w1 & Hs & Hv1 & Hl1 & Hr1 & Hw1 & Hvv & _).
    rewrite Hs in H.
    destruct (WithTags_inv _ _ _ _ _ H) as (lg0 & ts & Hl0 & Hv).
    rewrite (WithTags_spec _ _ _ _ _ Hl0 Hv) in H. injection H as <- <-. simpl.
    split; [done|]. split; [rewrite Hw1; apply Hnil|]. intros l lg Hl.
    exists (output lg). rewrite (Heta l lg Hl), Hl1.
    split; [by apply lookup_app_l_Some|]. split; [|by left].
    destruct (Hc l lg Hl) as (ts' & Hv' & _). rewrite Hv'. by apply Hvv.
  - destruct (WithTags_inv _ _ _ _ _ H) as (lg0 & ts & Hl0 & Hv).
    rewrite (WithTags_spec _ _ _ _ _ Hl0 Hv) in H. injection H as <- <-. simpl.
    split; [done|]. split; [apply Hnil|]. intros l lg Hl.
    exists (output lg). rewrite (Heta l lg Hl).
    split; [by apply lookup_app_l_Some|]. split; [done|by left].
  - assert (exists lg0, loggers w !! l0 = Some lg0) as [lg0 Hl0].
    { unfold Tags, bind, load_logger in H.
      destruct (loggers w !! l0); [eauto|done]. }
    destruct (Hc l0 lg0 Hl0) as (ts & Hv & _).
    rewrite (Tags_spec _ _ _ _ Hl0 Hv) in H. injection H as <- <-. simpl.
    split; [done|]. split; [apply Hnil|]. intros l lg Hl.
    exists (output lg). rewrite (Heta l lg Hl).
    split; [done|]. split; [by apply (Hview _ l)|by left].
  - assert (exists lg0, loggers w !! l0 = Some lg0) as [lg0 Hl0].
    { unfold SetOutput, bind, load_logger in H.
      destruct (loggers w !! l0); [eauto|done]. }
    pose proof H as H'.
    rewrite (SetOutput_spec _ _ _ _ Hl0) in H. injection H as <-. simpl.
    split; [done|]. split; [apply Hnil|]. intros l lg Hl.
    destruct (decide (l0 = l)) as [<-|Hne].
    + rewrite Hl0 in Hl. injection Hl as <-. exists out.
      split; [apply list_lookup_insert_eq; by eapply lookup_lt_Some|].
      split; [done|by right].
    + exists (output lg). rewrite (Heta l lg Hl).
      split; [by rewrite list_lookup_insert_ne|]. split; [done|by left].
  - pose proof (Print_written _ _ _ _ _ H) as [c Hw].
    apply Print_frame in H as (Ha & Hl & Hr).
    split; [done|]. split; [by exists [c]|]. intros l lg Hlg.
    exists (output lg). rewrite (Heta l lg Hlg), Hl, Ha. by repeat split; [|left].
  - pose proof (Write_written _ _ _ _ _ H) as Hw.
    apply Write_frame in H as (Ha & Hl & Hr).
    split; [done|]. split; [done|]. intros l lg Hlg.
    exists (output lg). rewrite (Heta l lg Hlg), Hl, Ha. by repeat split; [|left].
  - destruct (variadic_spec args w) as (s0 & w1 & Hs & _ & Hl1 & Hr1 & Hw1 & Hvv & _).
    rewrite Hs in H. injection H as <- <-.
    split; [done|]. split; [rewrite Hw1; apply Hnil|]. intros l lg Hl.
    exists (output lg). rewrite (Heta l lg Hl), Hl1.
    split; [done|]. split; [|by left].
    destruct (Hc l lg Hl) as (ts' & Hv' & _). rewrite Hv'. by apply Hvv.
  - destruct s as [|arr off len]; [done|]. simpl in H.
    destruct (Nat.ltb i len); [|done].
    destruct (arrays w !! arr) as [elems|]; [|done].
    injection H as <-. simpl.
    split; [done|]. split; [apply Hnil|]. intros l lg Hl.
    exists (output lg). rewrite (Heta l lg Hl).
    split; [done|]. split; [|by left].
    destruct (Hc l lg Hl) as (ts' & Hv' & _). rewrite Hv'.
    apply view_insert_ne; [done|].
    intros arr' off' len' Ht ->. apply (Hfree l lg Hl). by rewrite Ht.
Qed.

Lemma runs_reachable w w' : reachable w -> runs w w' -> reachable w'.
Proof.
  intros Hr. induction 1 as [|w w' w'' _ IH Hstep]; [done|].
  apply (reach_step w'); [by apply IH|done].
Qed.

Lemma runs_keep_logger w w' l lg :
  reachable w -> runs w w' ->
  loggers w !! l = Some lg ->
  (exists out,
      loggers w' !! l = Some (mkLogger out (tags lg) (level lg) (linePrefix lg))
      /\ view (arrays w') (tags lg) = view (arrays w) (tags lg))
  /\ exists new, written w' = written w ++ new.
Proof.
  intros Hr Hruns Hl.
  induction Hruns as [w|w w' w'' Hruns IH Hstep].
  - split; [|exists []; by rewrite app_nil_r].
    exists (output lg). by destruct lg.
  - destruct (IH Hr Hl) as [(out & Hl' & Hv) [new Hw]].
    pose proof (reachable_consistent w' (runs_reachable w w' Hr Hruns)) as Hc.
    destruct (step_frame w' w'' Hc Hstep) as (_ & [new' Hw'] & Hfr).
    destruct (Hfr l _ Hl') as (out' & Hl'' & Hv'' & _). simpl in *.
    split.
    + exists out'. split; [done|]. by rewrite Hv''.
    + exists (new ++ new'). by rewrite Hw', Hw, app_assoc.
Qed.

(** X3.  However a program goes on from a world reached through the
    package, a logger that exists keeps its level, its tag slice with the
    elements in it and its prefix; what the sinks were sent stays, with new
    calls only added behind. *)
Theorem loggers_are_immutable w w' l lg :
  reachable w -> runs w w' ->
  loggers w !! l = Some lg ->
  (exists lg',
      loggers w' !! l = Some lg'
      /\ level lg' = level lg /\ tags lg' = tags lg /\ linePrefix lg' = linePrefix lg
      /\ view (arrays w') (tags lg) = view (arrays w) (tags lg)
      /\ tags_of l w' = tags_of l w)
  /\ exists new, written w' = written w ++ new.
Proof.
  intros Hr Hruns Hl.
  destruct (runs_keep_logger w w' l lg Hr Hruns Hl) as [(out & Hl' & Hv) Hw].
  split; [|done].
  destruct (reachable_consistent w Hr l lg Hl) as (ts & Hts & _).
  eexists. split; [exact Hl'|]. simpl. repeat split; try done.
  rewrite (tags_of_spec w l lg ts Hl Hts).
  apply (tags_of_spec w' l _ ts Hl'). simpl. by rewrite Hv.
Qed.

Lemma demo1_reachable : reachable demo1.
Proof.
  apply (reach_step accepting); [apply reach_init|].
  by apply (step_New (Sink 0) accepting 0 demo1).
Qed.

Lemma demo1_runs_demo3 : runs demo1 demo3.
Proof.
  apply (runs_step demo1 demo2); [apply (runs_step demo1 demo1); [apply runs_refl|]|].
  - by apply (step_WithTags 0 [lit "a"; lit "b"; lit "c"] demo1 1 demo2).
  - by apply (step_WithLevel 1 SpamLevel demo2 2 demo3).
Qed.

Lemma loggers_are_immutable_witness :
  (exists lg',
      loggers demo3 !! 0 = Some lg'
      /\ level lg' = InfoLevel /\ tags lg' = Slice 0 0 0
      /\ linePrefix lg' = encoder InfoLevel (Some [])
      /\ view (arrays demo3) (Slice 0 0 0) = view (arrays demo1) (Slice 0 0 0)
      /\ tags_of 0 demo3 = tags_of 0 demo1)
  /\ exists new, written demo3 = written demo1 ++ new.
Proof.
  apply (loggers_are_immutable demo1 demo3 0
           (mkLogger (Sink 0) (Slice 0 0 0) InfoLevel (encoder InfoLevel (Some [])))).
  - exact demo1_reachable.
  - exact demo1_runs_demo3.
  - reflexivity.
Defined.

(** ** Panics *)

(** X4.  In a world reached through the package the methods that do not
    call the writer return on every existing logger: [WithLevel],
    [WithTags] with arguments written out or with a slice spread into it,
    [Tags], [Level], [Output] and [SetOutput].  [Print] and [Write] call
    the writer and are not part of this statement. *)
Theorem methods_without_writer_return w l lg :
  reachable w ->
  loggers w !! l = Some lg ->
  (forall lv, is_Some (WithLevel l lv w))
  /\ (forall args, is_Some ((let* s := variadic args in WithTags l s) w))
  /\ (forall s ts, view (arrays w) s = Some ts -> is_Some (WithTags l s w))
  /\ is_Some (Tags l w)
  /\ Level_ l w = Some (level lg, w)
  /\ Output l w = Some (output lg, w)
  /\ (forall out, is_Some (SetOutput l out w)).
Proof.
  intros Hr Hl.
  destruct (reachable_consistent w Hr l lg Hl) as (ts & Hv & _).
  split; [|split; [|split; [|split; [|split; [|split]]]]].
  - intros lv. by rewrite (WithLevel_spec w l lg ts lv Hl Hv).
  - intros args. unfold bind.
    destruct (variadic_spec args w) as (s & w1 & -> & Hs & Hl1 & _).
    rewrite <- Hl1 in Hl. by rewrite (WithTags_spec w1 l lg s _ Hl Hs).
  - intros s ts' Hs. by rewrite (WithTags_spec w l lg s ts' Hl Hs).
  - by rewrite (Tags_spec w l lg ts Hl Hv).
  - unfold Level_, bind, load_logger. by rewrite Hl.
  - unfold Output, bind, load_logger. by rewrite Hl.
  - intros out. by rewrite (SetOutput_spec w l lg out Hl).
Qed.

Lemma methods_without_writer_return_witness :
  (forall lv, is_Some (WithLevel 1 lv demo2))
  /\ (forall args, is_Some ((let* s := variadic args in WithTags 1 s) demo2))
  /\ (forall s ts, view (arrays demo2) s = Some ts -> is_Some (WithTags 1 s demo2))
  /\ is_Some (Tags 1 demo2)
  /\ Level_ 1 demo2 = Some (InfoLevel, demo2)
  /\ Output 1 demo2 = Some (Sink 0, demo2)
  /\ (forall out, is_Some (SetOutput 1 out demo2)).
Proof.
  apply (methods_without_writer_return demo2 1
           (mkLogger (Sink 0) (Slice 1 0 3) InfoLevel
                     (encoder InfoLevel (Some [lit "a"; lit "b"; lit "c"])))).
  - apply (reach_step demo1); [exact demo1_reachable|].
    by apply (step_WithTags 0 [lit "a"; lit "b"; lit "c"] demo1 1 demo2).
  - reflexivity.
Defined.

Lemma writeLoop_without_sink l fuel sc q w :
  (forall v, Print l v w = None) ->
  ScanInv bufio.MaxScanTokenSize sc q ->
  0 < fuel ->
  match lines_before_long bufio.MaxScanTokenSize [] q with
  | [] => exists sc',
      writeLoop fuel l sc w = Some (sc', w)
      /\ bufio.Err sc'
         = if too_long_from bufio.MaxScanTokenSize 0 q
           then Some bufio.ErrTooLong else None
  | _ :: _ => writeLoop fuel l sc w = None
  end.
Proof.
  intros HP Hinv Hfuel. destruct fuel as [|fuel]; [lia|]. simpl.
  pose proof (Scan_spec sc q Hinv) as Hscan.
  pose proof (lines_next_token bufio.MaxScanTokenSize q [] (inv_pos _ _ _ Hinv) eq_refl
                (inv_pos _ _ _ Hinv)) as Hlines.
  simpl in Hlines.
  destruct (next_token bufio.MaxScanTokenSize q) as [|t q'|].
  - destruct Hscan as (sc' & -> & Herr). destruct Hlines as [-> ->]. by exists sc'.
  - destruct Hscan as (sc' & -> & _). destruct Hlines as (-> & _).
    unfold bind. by rewrite HP.
  - destruct Hscan as (sc' & -> & Herr). destruct Hlines as [-> ->]. by exists sc'.
Qed.

(** X5.  Through a pointer to no logger every method panics, and so does
    [Print] on a logger whose output is the nil interface.  [Write] calls
    [Print] for the first line only after scanning it: on the empty
    buffer it returns [(0, nil)] without touching the logger, and it
    panics as soon as the buffer holds a line. *)
Theorem methods_without_logger_or_sink w l :
  (loggers w !! l = None
   \/ exists lg, loggers w !! l = Some lg /\ output lg = nil_Writer) ->
  (forall v, Print l v w = None)
  /\ Write l [] w = Some ((0, None), w)
  /\ (forall p, lines_before_long bufio.MaxScanTokenSize [] p <> [] ->
        Write l p w = None)
  /\ (loggers w !! l = None ->
        (forall lv, WithLevel l lv w = None)
        /\ (forall s, WithTags l s w = None)
        /\ Tags l w = None /\ Level_ l w = None /\ Output l w = None
        /\ (forall out, SetOutput l out w = None)).
Proof.
  intros Hno.
  assert (forall v, Print l v w = None) as HP.
  { intros v. unfold Print, bind, load_logger.
    destruct Hno as [->|(lg & -> & Ho)]; [done|]. by rewrite Ho. }
  split; [exact HP|]. split; [|split].
  - pose proof (writeLoop_without_sink l 1 (bufio.NewScanner []) [] w HP
                  (NewScanner_inv [])) as H.
    cbn [lines_before_long too_long_from] in H.
    destruct H as (sc' & H & Herr); [lia|].
    unfold Write, bind. change (length (@nil byte) + 1) with 1.
    by rewrite H, Herr.
  - intros p Hp.
    pose proof (writeLoop_without_sink l (length p + 1) (bufio.NewScanner p) p w HP
                  (NewScanner_inv p)) as H.
    destruct (lines_before_long bufio.MaxScanTokenSize [] p); [done|].
    unfold Write, bind. rewrite H; [done|lia].
  - intros Hl.
    unfold WithLevel, WithTags, Tags, Level_, Output, SetOutput, bind, load_logger.
    by rewrite Hl.
Qed.

Lemma methods_without_logger_or_sink_witness :
  (forall v, Print 7 v demo1 = None)
  /\ Write 7 [] demo1 = Some ((0, None), demo1)
  /\ (forall p, lines_before_long bufio.MaxScanTokenSize [] p <> [] ->
        Write 7 p demo1 = None)
  /\ (loggers demo1 !! 7 = None ->
        (forall lv, WithLevel 7 lv demo1 = None)
        /\ (forall s, WithTags 7 s demo1 = None)
        /\ Tags 7 demo1 = None /\ Level_ 7 demo1 = None /\ Output 7 demo1 = None
        /\ (forall out, SetOutput 7 out demo1 = None)).
Proof.
  apply (methods_without_logger_or_sink demo1 7).
  left. reflexivity.
Defined.

(** [New(nil).Print(foo)] panics; [New(nil).Write] of the empty buffer does
    not. *)
Example New_nil_output :
  let w := exec (New nil_Writer) accepting in
  Print 0 [fmt.str (lit "foo")] w = None
  /\ Write 0 (lit "foo") w = None
  /\ Write 0 [] w = Some ((0, None), w).
Proof.
  intros w. subst w. split; [reflexivity|]. split; [|reflexivity].
  vm_compute. reflexivity.
Qed.

(** ** Chains of [WithLevel] and [WithTags] *)

(** X6.  Only the last level and the last tags of a chain count.
    [l.WithLevel(a).WithLevel(b)] yields the same logger record as
    [l.WithLevel(b)], [l.WithTags(xs...).WithTags(ys...)] has the tags,
    level, output and prefix of [l.WithTags(ys...)], and [WithTags] and
    [WithLevel] can be called in either order. *)
Theorem With_chain_last_wins w l lg ts :
  loggers w !! l = Some lg ->
  view (arrays w) (tags lg) = Some ts ->
  (forall a b, exists n1 w1 n2 w2 n3 w3 r,
      WithLevel l a w = Some (n1, w1) /\ WithLevel n1 b w1 = Some (n2, w2)
      /\ WithLevel l b w = Some (n3, w3)
      /\ loggers w2 !! n2 = Some r /\ loggers w3 !! n3 = Some r)
  /\ (forall xs ys, exists n1 w1 n2 w2 n3 w3 r2 r3,
      (let* s := variadic xs in WithTags l s) w = Some (n1, w1)
      /\ (let* s := variadic ys in WithTags n1 s) w1 = Some (n2, w2)
      /\ (let* s := variadic ys in WithTags l s) w = Some (n3, w3)
      /\ loggers w2 !! n2 = Some r2 /\ loggers w3 !! n3 = Some r3
      /\ output r2 = output r3 /\ level r2 = level r3
      /\ linePrefix r2 = linePrefix r3
      /\ tags_of n2 w2 = Some ys /\ tags_of n3 w3 = Some ys)
  /\ (forall lv args, exists n1 w1 n2 w2 n3 w3 n4 w4 r,
      (let* s := variadic args in WithTags l s) w = Some (n1, w1)
      /\ WithLevel n1 lv w1 = Some (n2, w2)
      /\ WithLevel l lv w = Some (n3, w3)
      /\ (let* s := variadic args in WithTags n3 s) w3 = Some (n4, w4)
      /\ loggers w2 !! n2 = Some r /\ loggers w4 !! n4 = Some r).
Proof.
  intros Hl Hv. split; [|split].
  - intros a b.
    set (r1 := mkLogger (output lg) (tags lg) a (encoder a ts)).
    set (w1 := set_loggers (loggers w ++ [r1]) w).
    assert (loggers w1 !! length (loggers w) = Some r1) as H1 by apply lookup_snoc.
    set (r := mkLogger (output lg) (tags lg) b (encoder b ts)).
    exists (length (loggers w)), w1, (length (loggers w1)),
      (set_loggers (loggers w1 ++ [r]) w1), (length (loggers w)),
      (set_loggers (loggers w ++ [r]) w), r.
    split; [exact (WithLevel_spec w l lg ts a Hl Hv)|].
    split; [exact (WithLevel_spec w1 _ r1 ts b H1 Hv)|].
    split; [exact (WithLevel_spec w l lg ts b Hl Hv)|].
    split; apply lookup_snoc.
  - intros xs ys. unfold bind.
    destruct (variadic_spec xs w) as (s1 & u1 & -> & Hs1 & Hl1 & _ & _ & Hvv1 & _).
    assert (loggers u1 !! l = Some lg) as Hlu by (by rewrite Hl1).
    set (txs := match xs with [] => None | _ => Some xs end) in *.
    set (r1 := mkLogger (output lg) s1 (level lg) (encoder (level lg) txs)).
    set (w1 := set_loggers (loggers u1 ++ [r1]) u1).
    assert (loggers w1 !! length (loggers u1) = Some r1) as H1 by apply lookup_snoc.
    destruct (variadic_spec ys w1) as (s2 & u2 & Hs2e & Hs2 & Hl2 & _ & _ & _ & _).
    assert (loggers u2 !! length (loggers u1) = Some r1) as H2 by (by rewrite Hl2).
    destruct (variadic_spec ys w) as (s3 & u3 & Hs3e & Hs3 & Hl3 & _ & _ & _ & _).
    assert (loggers u3 !! l = Some lg) as Hl3' by (by rewrite Hl3).
    set (tys := match ys with [] => None | _ => Some ys end) in *.
    set (r2 := mkLogger (output lg) s2 (level lg) (encoder (level lg) tys)).
    set (r3 := mkLogger (output lg) s3 (level lg) (encoder (level lg) tys)).
    exists (length (loggers u1)), w1, (length (loggers u2)),
      (set_loggers (loggers u2 ++ [r2]) u2), (length (loggers u3)),
      (set_loggers (loggers u3 ++ [r3]) u3), r2, r3.
    split; [exact (WithTags_spec u1 l lg s1 txs Hlu Hs1)|].
    rewrite Hs2e, Hs3e.
    split; [exact (WithTags_spec u2 _ r1 s2 tys H2 Hs2)|].
    split; [exact (WithTags_spec u3 l lg s3 tys Hl3' Hs3)|].
    split; [apply lookup_snoc|]. split; [apply lookup_snoc|].
    do 3 (split; [done|]).
    assert (default [] tys = ys) as Hys by (subst tys; by destruct ys).
    split.
    + rewrite <- Hys. apply (tags_of_spec _ _ r2); [apply lookup_snoc|done].
    + rewrite <- Hys. apply (tags_of_spec _ _ r3); [apply lookup_snoc|done].
  - intros lv args. unfold bind.
    destruct (variadic_spec args w) as (s1 & u1 & Hs1e & Hs1 & Hl1 & _ & _ & Hvv1 & _).
    assert (loggers u1 !! l = Some lg) as Hlu by (by rewrite Hl1).
    set (targs := match args with [] => None | _ => Some args end) in *.
    set (r1 := mkLogger (output lg) s1 (level lg) (encoder (level lg) targs)).
    set (w1 := set_loggers (loggers u1 ++ [r1]) u1).
    assert (loggers w1 !! length (loggers u1) = Some r1) as H1 by apply lookup_snoc.
    set (r := mkLogger (output lg) s1 lv (encoder lv targs)).
    set (r3 := mkLogger (output lg) (tags lg) lv (encoder lv ts)).
    set (w3 := set_loggers (loggers w ++ [r3]) w).
    assert (loggers w3 !! length (loggers w) = Some r3) as H3 by apply lookup_snoc.
    assert (variadic args w3 = Some (s1, set_loggers (loggers w3) u1)) as Hs3e.
    { revert Hs1e. unfold variadic. destruct args as [|x args]; [|unfold bind, alloc_array].
      - unfold ret. intros [= <- <-]. by destruct w.
      - unfold ret. simpl. intros [= <- <-]. done. }
    exists (length (loggers u1)), w1, (length (loggers w1)),
      (set_loggers (loggers w1 ++ [r]) w1), (length (loggers w)), w3,
      (length (loggers w3)),
      (set_loggers (loggers w3 ++ [r]) (set_loggers (loggers w3) u1)), r.
    rewrite Hs1e.
    split; [exact (WithTags_spec u1 l lg s1 targs Hlu Hs1)|].
    split; [exact (WithLevel_spec w1 _ r1 targs lv H1 Hs1)|].
    split; [exact (WithLevel_spec w l lg ts lv Hl Hv)|].
    rewrite Hs3e.
    split; [exact (WithTags_spec (set_loggers (loggers w3) u1) _ r3 s1 targs H3 Hs1)|].
    split; apply lookup_snoc.
Qed.

Lemma With_chain_last_wins_witness :
  (forall a b, exists n1 w1 n2 w2 n3 w3 r,
      WithLevel 0 a demo1 = Some (n1, w1) /\ WithLevel n1 b w1 = Some (n2, w2)
      /\ WithLevel 0 b demo1 = Some (n3, w3)
      /\ loggers w2 !! n2 = Some r /\ loggers w3 !! n3 = Some r)
  /\ (forall xs ys, exists n1 w1 n2 w2 n3 w3 r2 r3,
      (let* s := variadic xs in WithTags 0 s) demo1 = Some (n1, w1)
      /\ (let* s := variadic ys in WithTags n1 s) w1 = Some (n2, w2)
      /\ (let* s := variadic ys in WithTags 0 s) demo1 = Some (n3, w3)
      /\ loggers w2 !! n2 = Some r2 /\ loggers w3 !! n3 = Some r3
      /\ output r2 = output r3 /\ level r2 = level r3
      /\ linePrefix r2 = linePrefix r3
      /\ tags_of n2 w2 = Some ys /\ tags_of n3 w3 = Some ys)
  /\ (forall lv args, exists n1 w1 n2 w2 n3 w3 n4 w4 r,
      (let* s := variadic args in WithTags 0 s) demo1 = Some (n1, w1)
      /\ WithLevel n1 lv w1 = Some (n2, w2)
      /\ WithLevel 0 lv demo1 = Some (n3, w3)
      /\ (let* s := variadic args in WithTags n3 s) w3 = Some (n4, w4)
      /\ loggers w2 !! n2 = Some r /\ loggers w4 !! n4 = Some r).
Proof.
  apply (With_chain_last_wins demo1 0
           (mkLogger (Sink 0) (Slice 0 0 0) InfoLevel (encoder InfoLevel (Some [])))
           (Some [])).
  - reflexivity.
  - reflexivity.
Defined.

(** ** The loggers of the package and the package-level functions *)

Lemma package_init_spec rsp :
  package_init (mkWorld [] [] rsp [])
  = Some ((standardLogger, errorLogger), initial rsp).
Proof. reflexivity. Qed.

Lemma initial_reachable rsp : reachable (initial rsp).
Proof.
  set (w0 := mkWorld [] [] rsp []).
  set (w1 := exec (New Stdout) w0).
  set (w2 := exec (New Stderr) w1).
  apply (reach_step w2); [apply (reach_step w1); [apply (reach_step w0)|]|].
  - apply reach_init.
  - by apply (step_New Stdout w0 0 w1).
  - by apply (step_New Stderr w1 1 w2).
  - by apply (step_WithLevel 1 ErrorLevel w2 2 (initial rsp)).
Qed.

Lemma standardLogger_in_run rsp w :
  runs (initial rsp) w ->
  exists out,
    loggers w !! standardLogger
    = Some (mkLogger out (Slice 0 0 0) DefaultLevel (encoder DefaultLevel (Some [])))
    /\ view (arrays w) (Slice 0 0 0) = Some (Some []).
Proof.
  intros Hruns.
  destruct (runs_keep_logger (initial rsp) w standardLogger
              (mkLogger Stdout (Slice 0 0 0) DefaultLevel (encoder DefaultLevel (Some [])))
              (initial_reachable rsp) Hruns eq_refl) as [(out & Hl & Hv) _].
  exists out. split; [exact Hl|]. exact Hv.
Qed.

Lemma errorLogger_in_run rsp w :
  runs (initial rsp) w ->
  exists out,
    loggers w !! errorLogger
    = Some (mkLogger out (Slice 1 0 0) ErrorLevel (encoder ErrorLevel (Some [])))
    /\ view (arrays w) (Slice 1 0 0) = Some (Some []).
Proof.
  intros Hruns.
  destruct (runs_keep_logger (initial rsp) w errorLogger
              (mkLogger Stderr (Slice 1 0 0) ErrorLevel (encoder ErrorLevel (Some [])))
              (initial_reachable rsp) Hruns eq_refl) as [(out & Hl & Hv) _].
  exists out. split; [exact Hl|]. exact Hv.
Qed.

(** X7.  Initialisation gives [StandardLogger()] the output [os.Stdout]
    and [ErrorLogger()] the output [os.Stderr].  Whatever the program does
    afterwards, the first has the level [info], the second the level
    [error], both have no tags, and a record printed on [ErrorLogger()]
    carries the level [error]. *)
Theorem default_loggers rsp w :
  runs (initial rsp) w ->
  Output standardLogger (initial rsp) = Some (Stdout, initial rsp)
  /\ Output errorLogger (initial rsp) = Some (Stderr, initial rsp)
  /\ Level_ standardLogger w = Some (InfoLevel, w)
  /\ Level_ errorLogger w = Some (ErrorLevel, w)
  /\ tags_of standardLogger w = Some []
  /\ tags_of errorLogger w = Some []
  /\ forall id v,
       Output errorLogger w = Some (Sink id, w) ->
       exists w',
         Print errorLogger v w = Some (errorLogger, w')
         /\ written w'
            = written w
              ++ [mkCall id (klio_record ErrorLevel (Some []) (fmt.Sprint v))
                    (respond w id (written w)
                       (klio_record ErrorLevel (Some []) (fmt.Sprint v)))].
Proof.
  intros Hruns.
  destruct (standardLogger_in_run rsp w Hruns) as (outs & Hs & Hvs).
  destruct (errorLogger_in_run rsp w Hruns) as (oute & He & Hve).
  split; [done|]. split; [done|].
  split; [unfold Level_, bind, load_logger; by rewrite Hs|].
  split; [unfold Level_, bind, load_logger; by rewrite He|].
  split; [exact (tags_of_spec w _ _ (Some []) Hs Hvs)|].
  split; [exact (tags_of_spec w _ _ (Some []) He Hve)|].
  intros id v Ho. unfold Output, bind, load_logger in Ho. rewrite He in Ho.
  injection Ho as ->.
  rewrite (Print_spec w errorLogger _ id v He eq_refl). simpl.
  eexists. split; [reflexivity|]. simpl.
  rewrite encoder_unfold.
  unfold record_of, prefixFormat, resetSuffix, klio_record.
  by rewrite <- !app_assoc.
Qed.

Lemma default_loggers_witness :
  Output standardLogger (initial (respond accepting))
  = Some (Stdout, initial (respond accepting))
  /\ Output errorLogger (initial (respond accepting))
     = Some (Stderr, initial (respond accepting))
  /\ Level_ standardLogger (initial (respond accepting))
     = Some (InfoLevel, initial (respond accepting))
  /\ Level_ errorLogger (initial (respond accepting))
     = Some (ErrorLevel, initial (respond accepting))
  /\ tags_of standardLogger (initial (respond accepting)) = Some []
  /\ tags_of errorLogger (initial (respond accepting)) = Some []
  /\ forall id v,
       Output errorLogger (initial (respond accepting))
       = Some (Sink id, initial (respond accepting)) ->
       exists w',
         Print errorLogger v (initial (respond accepting)) = Some (errorLogger, w')
         /\ written w'
            = written (initial (respond accepting))
              ++ [mkCall id (klio_record ErrorLevel (Some []) (fmt.Sprint v))
                    (respond (initial (respond accepting)) id
                       (written (initial (respond accepting)))
                       (klio_record ErrorLevel (Some []) (fmt.Sprint v)))].
Proof.
  apply (default_loggers (respond accepting) (initial (respond accepting))).
  apply runs_refl.
Defined.

Lemma logAt_spec rsp w lv v id :
  runs (initial rsp) w ->
  Output standardLogger w = Some (Sink id, w) ->
  exists w',
    logAt lv v w = Some (tt, w')
    /\ written w'
       = written w
         ++ [mkCall id (klio_record lv (Some []) (fmt.Sprint v))
               (respond w id (written w) (klio_record lv (Some []) (fmt.Sprint v)))]
    /\ loggers w' !! standardLogger = loggers w !! standardLogger
    /\ Level_ standardLogger w' = Some (DefaultLevel, w')
    /\ arrays w' = arrays w.
Proof.
  intros Hruns Ho.
  destruct (standardLogger_in_run rsp w Hruns) as (out & Hs & Hvs).
  unfold Output, bind, load_logger in Ho. rewrite Hs in Ho. injection Ho as ->.
  unfold logAt, bind.
  rewrite (WithLevel_spec w standardLogger _ (Some []) lv Hs Hvs). simpl.
  set (r := mkLogger (Sink id) (Slice 0 0 0) lv (encoder lv (Some []))).
  set (w1 := set_loggers (loggers w ++ [r]) w).
  assert (loggers w1 !! length (loggers w) = Some r) as Hn by apply lookup_snoc.
  rewrite (Print_spec w1 _ r id v Hn eq_refl).
  assert (loggers w1 !! standardLogger = loggers w !! standardLogger) as Hsame.
  { rewrite Hs. by apply lookup_app_l_Some. }
  eexists. split; [reflexivity|]. simpl.
  split; [|split; [exact Hsame|split; [|done]]].
  - subst r. simpl. rewrite encoder_unfold.
    unfold record_of, prefixFormat, resetSuffix, klio_record.
    by rewrite <- !app_assoc.
  - unfold Level_, bind, load_logger. simpl.
    change (loggers w ++ [r]) with (loggers w1). unfold ptr in *.
    by rewrite Hsame, Hs.
Qed.

(** X8.  Each of [Spam], [Debug], [Verbose], [Info], [Warn], [Error] and
    [Fatal] writes one record, with the level of its name and no tags, to
    the sink the standard logger has at the time of the call (so it follows
    [SetOutput]), and leaves the standard logger, its level included, as it
    was. *)
Theorem convenience_functions rsp w f lv v id :
  runs (initial rsp) w ->
  In (f, lv) convenience ->
  Output standardLogger w = Some (Sink id, w) ->
  exists w',
    f v w = Some (tt, w')
    /\ written w'
       = written w
         ++ [mkCall id (klio_record lv (Some []) (fmt.Sprint v))
               (respond w id (written w) (klio_record lv (Some []) (fmt.Sprint v)))]
    /\ loggers w' !! standardLogger = loggers w !! standardLogger
    /\ Level_ standardLogger w' = Some (DefaultLevel, w')
    /\ arrays w' = arrays w.
Proof.
  intros Hruns Hin Ho. simpl in Hin.
  destruct Hin as [H|[H|[H|[H|[H|[H|[H|[]]]]]]]]; injection H as <- <-;
    by apply (logAt_spec rsp).
Qed.

Lemma convenience_functions_witness :
  exists w',
    Spam [fmt.str (lit "foo")] (initial (respond accepting)) = Some (tt, w')
    /\ written w'
       = written (initial (respond accepting))
         ++ [mkCall 1 (klio_record SpamLevel (Some []) (fmt.Sprint [fmt.str (lit "foo")]))
               (respond (initial (respond accepting)) 1
                  (written (initial (respond accepting)))
                  (klio_record SpamLevel (Some []) (fmt.Sprint [fmt.str (lit "foo")])))]
    /\ loggers w' !! standardLogger = loggers (initial (respond accepting)) !! standardLogger
    /\ Level_ standardLogger w' = Some (DefaultLevel, w')
    /\ arrays w' = arrays (initial (respond accepting)).
Proof.
  apply (convenience_functions (respond accepting) (initial (respond accepting))
           Spam SpamLevel [fmt.str (lit "foo")] 1).
  - apply runs_refl.
  - left. reflexivity.
  - reflexivity.
Defined.

(** X9.  [Printf] prints the text of [fmt.Sprintf] as one string operand,
    so the record holds that text as it is; each of [Spamf] ... [Fatalf]
    does so at the level of its name on a copy of the standard logger,
    which stays as it was. *)
Theorem Printf_functions (Sprintf : bytes -> list fmt.operand -> bytes)
    rsp w f lv format v id :
  runs (initial rsp) w ->
  In (f, lv) (conveniencef Sprintf) ->
  Output standardLogger w = Some (Sink id, w) ->
  Printf Sprintf standardLogger format v w
  = Print standardLogger [fmt.str (Sprintf format v)] w
  /\ exists w',
    f format v w = Some (tt, w')
    /\ written w'
       = written w
         ++ [mkCall id (klio_record lv (Some []) (Sprintf format v))
               (respond w id (written w) (klio_record lv (Some []) (Sprintf format v)))]
    /\ loggers w' !! standardLogger = loggers w !! standardLogger
    /\ Level_ standardLogger w' = Some (DefaultLevel, w').
Proof.
  intros Hruns Hin Ho. split; [done|].
  assert (forall lv', logfAt Sprintf lv' format v w
                      = logAt lv' [fmt.str (Sprintf format v)] w) as Heq by done.
  destruct (logAt_spec rsp w lv [fmt.str (Sprintf format v)] id Hruns Ho)
    as (w' & Hrun & Hw & Hl & Hlv & _).
  rewrite Sprint_str in Hw.
  exists w'. split; [|done].
  simpl in Hin.
  destruct Hin as [H|[H|[H|[H|[H|[H|[H|[]]]]]]]]; injection H as <- <-;
    exact Hrun.
Qed.

Lemma Printf_functions_witness :
  Printf (fun f _ => f) standardLogger (lit "foo") [] (initial (respond accepting))
  = Print standardLogger [fmt.str (lit "foo")] (initial (respond accepting))
  /\ exists w',
    Infof (fun f _ => f) (lit "foo") [] (initial (respond accepting)) = Some (tt, w')
    /\ written w'
       = written (initial (respond accepting))
         ++ [mkCall 1 (klio_record InfoLevel (Some []) (lit "foo"))
               (respond (initial (respond accepting)) 1
                  (written (initial (respond accepting)))
                  (klio_record InfoLevel (Some []) (lit "foo")))]
    /\ loggers w' !! standardLogger = loggers (initial (respond accepting)) !! standardLogger
    /\ Level_ standardLogger w' = Some (DefaultLevel, w').
Proof.
  apply (Printf_functions (fun f _ => f) (respond accepting)
           (initial (respond accepting)) (Infof (fun f _ => f)) InfoLevel
           (lit "foo") [] 1).
  - apply runs_refl.
  - do 3 right. left. reflexivity.
  - reflexivity.
Defined.

(** ** The bytes of a record *)

Section CleanFacts.
Import json.
Local Open Scope Z_scope.

Lemma clean_high b : high b -> clean b = true.
Proof. destruct b; intros H; try discriminate H; reflexivity. Qed.

Lemma clean_safe b : htmlSafeSet b = true -> clean b = true.
Proof. destruct b; intros H; try discriminate H; reflexivity. Qed.

Lemma clean_escapeByte b :
  (b2z b <? utf8.RuneSelf) = true ->
  forallb clean (escapeByte b) = true.
Proof. destruct b; intros H; try discriminate H; reflexivity. Qed.

Lemma clean_hex_low c : clean (hex (Z.land c 0xF)) = true.
Proof.
  assert (0 <= Z.land c 0xF < 16) as Hr.
  { change 0xF with (Z.ones 4). rewrite Z.land_ones by lia.
    apply Z.mod_pos_bound. lia. }
  unfold hex.
  assert (Z.to_nat (Z.land c 0xF) < 16)%nat as Hn by lia.
  revert Hn. generalize (Z.to_nat (Z.land c 0xF)). intros n Hn.
  do 16 (destruct n as [|n]; [reflexivity|]). lia.
Qed.

Lemma clean_appendLoop fuel : forall src,
  forallb clean (appendLoop fuel src) = true.
Proof.
  induction fuel as [|fuel IH]; intros [|b rest]; cbn [appendLoop];
    try reflexivity.
  destruct (b2z b <? utf8.RuneSelf) eqn:Hb.
  - destruct (htmlSafeSet b) eqn:Hs.
    + cbn [forallb]. by rewrite (clean_safe b Hs), IH.
    + by rewrite forallb_app, (clean_escapeByte b Hb), IH.
  - destruct (utf8.DecodeRuneInString (take utf8.UTFMax (b :: rest)))
      as [c size] eqn:Hd.
    change (take utf8.UTFMax (b :: rest)) with (b :: take 3 rest) in Hd.
    destruct ((c =? utf8.RuneError) && Nat.eqb size 1) eqn:Herr.
    { rewrite forallb_app, IH. reflexivity. }
    destruct ((c =? 0x2028) || (c =? 0x2029)) eqn:Hsep.
    { rewrite !forallb_app, IH. cbn [forallb]. rewrite clean_hex_low. reflexivity. }
    apply (DecodeRune_high b _ _ _ Hb) in Hd as [[-> ->]|[Hsz Hhigh]].
    { by rewrite Z.eqb_refl in Herr. }
    change (b :: take 3 rest) with (take 4 (b :: rest)) in Hhigh.
    rewrite take_take in Hhigh. rewrite Nat.min_l in Hhigh by done.
    rewrite forallb_app, IH, andb_true_r.
    apply forallb_forall. intros x Hx.
    apply clean_high. rewrite Forall_forall in Hhigh. apply Hhigh.
    by apply list_elem_of_In.
Qed.

Lemma clean_appendString src : forallb clean (appendString src) = true.
Proof.
  unfold appendString. rewrite !forallb_app, clean_appendLoop. reflexivity.
Qed.

Lemma clean_arrayElems l : forallb clean (arrayElems l) = true.
Proof.
  induction l as [|x l IH]; [reflexivity|].
  destruct l as [|y l]; [apply clean_appendString|].
  change (arrayElems (x :: y :: l))
    with (appendString x ++ lit "," ++ arrayElems (y :: l)).
  rewrite !forallb_app, clean_appendString, IH. reflexivity.
Qed.

Lemma clean_json_tags ts : forallb clean (json_tags ts) = true.
Proof.
  destruct ts as [l|]; [|reflexivity].
  change (json_tags (Some l)) with ([x5b] ++ arrayElems l ++ [x5d]).
  rewrite !forallb_app, clean_arrayElems. reflexivity.
Qed.

Lemma clean_not_newline l :
  forallb clean l = true -> forallb (fun b => negb (byte_eqb b newline)) l = true.
Proof.
  intros H. apply forallb_forall. intros b Hb.
  rewrite forallb_forall in H. specialize (H b Hb). by destruct b.
Qed.

Lemma not_newline_In l :
  forallb (fun b => negb (byte_eqb b newline)) l = true <-> ~ In newline l.
Proof.
  induction l as [|b l IH]; simpl; [tauto|].
  rewrite andb_true_iff, IH, negb_true_iff. split.
  - intros [Hb Hn] [Heq|Hin]; [|tauto].
    subst b. discriminate Hb.
  - intros H. split; [|tauto].
    destruct (byte_eqb b newline) eqn:E; [|done].
    apply byte_eqb_eq in E. tauto.
Qed.

Lemma encoder_no_newline lv ts : ~ In newline (encoder lv ts).
Proof.
  apply not_newline_In.
  rewrite encoder_unfold. unfold prefixFormat.
  rewrite !forallb_app, (clean_not_newline _ (clean_appendString lv)),
    (clean_not_newline _ (clean_json_tags ts)).
  reflexivity.
Qed.

Lemma appendLoop_safe s : forall fuel,
  forallb htmlSafeSet s = true ->
  (length s <= fuel)%nat ->
  appendLoop fuel s = s.
Proof.
  induction s as [|b s IH]; intros [|fuel] Hs Hf; simpl in *; try done; try lia.
  apply andb_true_iff in Hs as [Hb Hs]. rewrite Hb.
  assert ((b2z b <? utf8.RuneSelf) = true) as ->.
  { destruct b; try discriminate Hb; reflexivity. }
  f_equal. apply IH; [done|lia].
Qed.

Lemma appendString_safe s :
  forallb htmlSafeSet s = true -> appendString s = quoted s.
Proof.
  intros Hs. unfold appendString, quoted. by rewrite appendLoop_safe.
Qed.

Lemma arrayElems_safe l :
  Forall (fun t => forallb htmlSafeSet t = true) l ->
  arrayElems l = commas (map quoted l).
Proof.
  induction 1 as [|x l Hx Hl IH]; [done|].
  destruct l as [|y l]; [by apply appendString_safe|].
  change (arrayElems (x :: y :: l))
    with (appendString x ++ lit "," ++ arrayElems (y :: l)).
  change (commas (map quoted (x :: y :: l)))
    with (quoted x ++ lit "," ++ commas (map quoted (y :: l))).
  by rewrite IH, appendString_safe.
Qed.
End CleanFacts.

(** X10.  Whatever the level and the tags, the two JSON payloads of a
    prefix hold no control byte and none of the characters [<], [>] and
    [&]; so no newline occurs in a prefix, and the only bytes of a prefix
    below 0x20 are the escape bytes of its four control sequences. *)
Theorem json_payload_clean (lv : Level) (ts : option (list bytes)) :
  forallb clean (encodeLevel json.Marshal_string lv) = true
  /\ forallb clean (encodeTags json.Marshal_strings ts) = true
  /\ ~ In newline (encoder lv ts)
  /\ List.filter (fun b => (b2z b <? 0x20)%Z) (encoder lv ts)
     = [ESC; ESC; ESC; ESC].
Proof.
  split; [apply clean_appendString|].
  split; [rewrite encodeTags_json; apply clean_json_tags|].
  split; [apply encoder_no_newline|].
  assert (forall l, forallb clean l = true ->
            List.filter (fun b => (b2z b <? 0x20)%Z) l = []) as Hnone.
  { induction l as [|b l IH]; [done|]. simpl. intros H.
    apply andb_true_iff in H as [Hb H]. rewrite (IH H).
    by destruct b. }
  rewrite encoder_unfold. unfold prefixFormat.
  rewrite !List.filter_app, (Hnone _ (clean_appendString lv)),
    (Hnone _ (clean_json_tags ts)).
  reflexivity.
Qed.

(** X11.  A level and tags made of printable ASCII other than the double
    quote, the backslash, [<], [>] and [&] are printed as they are, between
    double quotes, the tags separated by commas and between brackets; the
    seven levels of the package are such. *)
Theorem safe_text_verbatim (lv : Level) (l : list bytes) :
  forallb json.htmlSafeSet lv = true ->
  Forall (fun t => forallb json.htmlSafeSet t = true) l ->
  encoder lv (Some l)
  = prefixFormat (quoted lv) (lit "[" ++ commas (map quoted l) ++ lit "]")
  /\ Forall (fun k => forallb json.htmlSafeSet k = true) knownLevels.
Proof.
  intros Hlv Hl. split.
  - rewrite encoder_unfold.
    change (json_tags (Some l)) with (lit "[" ++ json.arrayElems l ++ lit "]").
    by rewrite appendString_safe, arrayElems_safe.
  - repeat constructor.
Qed.

Lemma safe_text_verbatim_witness :
  encoder WarnLevel (Some [lit "db"; lit "http"])
  = prefixFormat (quoted WarnLevel)
      (lit "[" ++ commas (map quoted [lit "db"; lit "http"]) ++ lit "]")
  /\ Forall (fun k => forallb json.htmlSafeSet k = true) knownLevels.
Proof.
  apply (safe_text_verbatim WarnLevel [lit "db"; lit "http"]).
  - reflexivity.
  - repeat constructor.
Defined.

(** ** Lines over several calls of [Write] *)

Section WriteFacts.
Import bufio.

Lemma calls_for_app rsp id pre a : forall hist b,
  calls_for rsp id pre hist (a ++ b)
  = calls_for rsp id pre (calls_for rsp id pre hist a) b.
Proof. induction a as [|m a IH]; intros hist b; simpl; [done|]. apply IH. Qed.

Lemma calls_for_length rsp id pre msgs : forall hist,
  length (calls_for rsp id pre hist msgs) = length hist + length msgs.
Proof.
  induction msgs as [|m msgs IH]; intros hist; simpl; [lia|].
  rewrite IH, length_app. simpl. lia.
Qed.

Lemma lines_from_app_newline p q : forall cur,
  lines_from cur (p ++ newline :: q)
  = lines_from cur (p ++ [newline]) ++ lines_from [] q.
Proof.
  induction p as [|b p IH]; intros cur; simpl; [done|].
  destruct (byte_eqb b newline); [|apply IH].
  by rewrite IH.
Qed.

Lemma too_long_from_snoc_newline max p : forall n,
  too_long_from max n (p ++ [newline]) = too_long_from max n p.
Proof.
  induction p as [|b p IH]; intros n; simpl; [done|].
  destruct (byte_eqb b newline); [apply IH|]. by rewrite IH.
Qed.

Lemma too_long_from_app_newline max p q : forall n,
  too_long_from max n (p ++ newline :: q)
  = too_long_from max n p || too_long_from max 0 q.
Proof.
  induction p as [|b p IH]; intros n; simpl; [done|].
  destruct (byte_eqb b newline); [apply IH|].
  by rewrite IH, orb_assoc.
Qed.

Lemma lines_before_long_app_newline max p q : forall cur,
  too_long_from max (length cur) p = false ->
  lines_before_long max cur (p ++ newline :: q)
  = lines_from cur (p ++ [newline]) ++ lines_before_long max [] q.
Proof.
  induction p as [|b p IH]; intros cur; simpl; [done|].
  destruct (byte_eqb b newline).
  - intros H. by rewrite (IH [] H).
  - intros H. apply orb_false_iff in H as [-> H].
    apply IH. rewrite length_app. simpl.
    by replace (length cur + 1) with (S (length cur)) by lia.
Qed.

Lemma lines_from_plain ln q : forall cur,
  ~ In newline ln ->
  lines_from cur (ln ++ q) = lines_from (cur ++ ln) q.
Proof.
  induction ln as [|b ln IH]; intros cur Hn; simpl.
  - by rewrite app_nil_r.
  - destruct (byte_eqb b newline) eqn:E.
    + apply byte_eqb_eq in E. subst b. exfalso. apply Hn. by left.
    + rewrite IH; [|intros ?; apply Hn; by right].
      by rewrite <- app_assoc.
Qed.

Lemma dropCR_snoc ln : dropCR (ln ++ [creturn]) = ln.
Proof.
  unfold dropCR. rewrite last_snoc. simpl.
  rewrite length_app. simpl.
  replace (length ln + 1 - 1) with (length ln) by lia.
  by rewrite take_app_length.
Qed.

Lemma dropCR_subset cur b : In b (dropCR cur) -> In b cur.
Proof.
  unfold dropCR. destruct (last cur) as [c|]; [|done].
  destruct (byte_eqb c creturn); [|done].
  intros H. rewrite <- (take_drop (length cur - 1) cur), in_app_iff. by left.
Qed.

Lemma lines_before_long_plain max p : forall cur,
  ~ In newline cur ->
  Forall (fun t => ~ In newline t) (lines_before_long max cur p).
Proof.
  induction p as [|b p IH]; intros cur Hc; simpl.
  - destruct cur; [constructor|].
    constructor; [|constructor]. intros H. by apply dropCR_subset in H.
  - destruct (byte_eqb b newline) eqn:E.
    + constructor; [intros H; by apply dropCR_subset in H|].
      apply IH. simpl. tauto.
    + destruct (Nat.leb max (S (length cur))); [constructor|].
      apply IH. rewrite in_app_iff. intros [H|[H|[]]]; [tauto|].
      subst b. discriminate E.
Qed.

Lemma lines_from_length_cur p : forall c1 c2,
  (c1 = [] <-> c2 = []) ->
  length (lines_from c1 p) = length (lines_from c2 p).
Proof.
  induction p as [|b p IH]; intros c1 c2 H; simpl.
  - destruct c1, c2; try done.
    + discriminate (proj1 H eq_refl).
    + discriminate (proj2 H eq_refl).
  - destruct (byte_eqb b newline); [done|].
    apply IH. split; intros E; by apply app_eq_nil in E as [_ ?].
Qed.

Lemma lines_count_split b p2 p1 : forall cur,
  last (cur ++ p1) = Some b -> b <> newline -> p2 <> [] ->
  length (lines_from cur p1) + length (lines_from [] p2)
  = S (length (lines_from cur (p1 ++ p2))).
Proof.
  induction p1 as [|a p1 IH]; intros cur Hlast Hb Hp2.
  - rewrite app_nil_r in Hlast. simpl.
    destruct cur as [|c cur]; [done|]. simpl. f_equal.
    destruct p2 as [|x p2]; [done|].
    simpl. destruct (byte_eqb x newline); [done|].
    by apply lines_from_length_cur.
  - simpl. destruct (byte_eqb a newline) eqn:E.
    + apply byte_eqb_eq in E. subst a. simpl. f_equal.
      apply IH; [|done..].
      destruct p1 as [|y p1].
      * rewrite last_snoc in Hlast. congruence.
      * rewrite last_app in Hlast.
        change (last (newline :: y :: p1)) with (last (y :: p1)) in Hlast.
        change ([] ++ y :: p1) with (y :: p1).
        destruct (last (y :: p1)) eqn:E; [done|].
        by apply last_None in E.
    + apply IH; [|done..]. by rewrite <- app_assoc.
Qed.

Lemma first_line_too_long max long rest : forall cur,
  ~ In newline long ->
  length cur < max -> max <= length cur + length long ->
  too_long_from max (length cur) (long ++ rest) = true
  /\ lines_before_long max cur (long ++ rest) = [].
Proof.
  induction long as [|b long IH]; intros cur Hn Hc Hmax; simpl in *; [lia|].
  destruct (byte_eqb b newline) eqn:E.
  { apply byte_eqb_eq in E. subst b. exfalso. apply Hn. by left. }
  destruct (Nat.leb max (S (length cur))) eqn:Hle; [done|].
  apply Nat.leb_gt in Hle. simpl.
  destruct (IH (cur ++ [b])) as [Ht Hl].
  - tauto.
  - rewrite length_app. simpl. lia.
  - rewrite length_app. simpl. lia.
  - rewrite length_app in Ht. simpl in Ht.
    replace (length cur + 1) with (S (length cur)) in Ht by lia. done.
Qed.
End WriteFacts.

(** X12.  [Write] keeps nothing between calls: two calls print the lines
    of the first buffer and then the lines of the second, so a line that is
    not closed by a newline at the end of the first buffer is a record of
    its own.  When the first buffer ends in a newline, the two calls write
    what one call on the joined buffer writes. *)
Theorem Write_keeps_no_rest w l lg id p1 p2 :
  loggers w !! l = Some lg ->
  output lg = Sink id ->
  too_long p1 = false ->
  too_long p2 = false ->
  exists w1 w2,
    Write l p1 w = Some ((length p1, None), w1)
    /\ Write l p2 w1 = Some ((length p2, None), w2)
    /\ written w2
       = calls_for (respond w) id (linePrefix lg) (written w) (lines p1 ++ lines p2)
    /\ forall p, p1 = p ++ [newline] ->
         Write l (p1 ++ p2) w = Some ((length p1 + length p2, None), w2).
Proof.
  intros Hl Ho H1 H2.
  rewrite (Write_spec w l lg id p1 Hl Ho), H1, (too_long_false_lines p1 H1).
  set (w1 := set_written
               (calls_for (respond w) id (linePrefix lg) (written w) (lines p1)) w).
  assert (loggers w1 !! l = Some lg) as Hl1 by exact Hl.
  exists w1. eexists. split; [reflexivity|].
  rewrite (Write_spec w1 l lg id p2 Hl1 Ho), H2, (too_long_false_lines p2 H2).
  split; [reflexivity|].
  split; [simpl; by rewrite calls_for_app|].
  intros p ->.
  rewrite (Write_spec w l lg id _ Hl Ho).
  assert (too_long ((p ++ [newline]) ++ p2) = false) as H12.
  { unfold too_long in *. rewrite <- app_assoc. simpl.
    rewrite too_long_from_app_newline, H2.
    rewrite too_long_from_snoc_newline in H1. by rewrite H1. }
  rewrite H12, (too_long_false_lines _ H12), length_app.
  unfold lines. rewrite <- app_assoc. simpl.
  rewrite lines_from_app_newline, calls_for_app.
  by destruct w.
Qed.

Lemma Write_keeps_no_rest_witness :
  exists w1 w2,
    Write 0 (lit "foo") demo1 = Some ((length (lit "foo"), None), w1)
    /\ Write 0 (lit "bar") w1 = Some ((length (lit "bar"), None), w2)
    /\ written w2
       = calls_for (respond demo1) 0 (encoder InfoLevel (Some [])) (written demo1)
           (lines (lit "foo") ++ lines (lit "bar"))
    /\ forall p, lit "foo" = p ++ [newline] ->
         Write 0 (lit "foo" ++ lit "bar") demo1
         = Some ((length (lit "foo") + length (lit "bar"), None), w2).
Proof.
  apply (Write_keeps_no_rest demo1 0
           (mkLogger (Sink 0) (Slice 0 0 0) InfoLevel (encoder InfoLevel (Some []))) 0
           (lit "foo") (lit "bar")).
  - reflexivity.
  - reflexivity.
  - reflexivity.
  - reflexivity.
Defined.

(** X13.  A line cut in two by the end of a buffer is printed as two
    records: when the first buffer does not end in a newline and the second
    is not empty, two calls of [Write] make one write call more than one
    call on the joined buffer. *)
Theorem Write_splits_cut_line w l lg id p1 p2 b :
  loggers w !! l = Some lg ->
  output lg = Sink id ->
  last p1 = Some b -> b <> newline -> p2 <> [] ->
  too_long p1 = false ->
  too_long p2 = false ->
  too_long (p1 ++ p2) = false ->
  exists w1 w2 w12,
    Write l p1 w = Some ((length p1, None), w1)
    /\ Write l p2 w1 = Some ((length p2, None), w2)
    /\ Write l (p1 ++ p2) w = Some ((length (p1 ++ p2), None), w12)
    /\ length (written w2) = S (length (written w12)).
Proof.
  intros Hl Ho Hlast Hb Hp2 H1 H2 H12.
  rewrite (Write_spec w l lg id p1 Hl Ho), H1, (too_long_false_lines p1 H1).
  rewrite (Write_spec w l lg id _ Hl Ho), H12, (too_long_false_lines _ H12).
  set (w1 := set_written
               (calls_for (respond w) id (linePrefix lg) (written w) (lines p1)) w).
  assert (loggers w1 !! l = Some lg) as Hl1 by exact Hl.
  exists w1. eexists _, _. split; [reflexivity|].
  rewrite (Write_spec w1 l lg id p2 Hl1 Ho), H2, (too_long_false_lines p2 H2).
  split; [reflexivity|]. split; [reflexivity|]. simpl.
  rewrite !calls_for_length.
  pose proof (lines_count_split b p2 p1 [] Hlast Hb Hp2) as Hc.
  unfold lines. lia.
Qed.

Lemma Write_splits_cut_line_witness :
  exists w1 w2 w12,
    Write 0 (lit "foo") demo1 = Some ((length (lit "foo"), None), w1)
    /\ Write 0 (lit "bar") w1 = Some ((length (lit "bar"), None), w2)
    /\ Write 0 (lit "foo" ++ lit "bar") demo1
       = Some ((length (lit "foo" ++ lit "bar"), None), w12)
    /\ length (written w2) = S (length (written w12)).
Proof.
  apply (Write_splits_cut_line demo1 0
           (mkLogger (Sink 0) (Slice 0 0 0) InfoLevel (encoder InfoLevel (Some []))) 0
           (lit "foo") (lit "bar") x6f).
  - reflexivity.
  - reflexivity.
  - reflexivity.
  - discriminate.
  - discriminate.
  - reflexivity.
  - reflexivity.
  - reflexivity.
Defined.

(** X14.  [Write] drops one carriage return before a newline and one at
    the end of the buffer, and no other: a line closed by CR LF gives the
    record of the line as it stands before the CR, and a buffer that ends
    in a CR gives a last record without it, an empty one when the CR is all
    there is after the last newline. *)
Theorem Write_drops_carriage_return w l lg id ln rest :
  loggers w !! l = Some lg ->
  output lg = Sink id ->
  ~ In newline ln ->
  (too_long (ln ++ [creturn; newline] ++ rest) = false ->
   Write l (ln ++ [creturn; newline] ++ rest) w
   = Some ((length ln + 2 + length rest, None),
           set_written
             (calls_for (respond w) id (linePrefix lg) (written w) (ln :: lines rest))
             w))
  /\ (too_long (rest ++ [newline] ++ ln ++ [creturn]) = false ->
      Write l (rest ++ [newline] ++ ln ++ [creturn]) w
      = Some ((length rest + 1 + length ln + 1, None),
              set_written
                (calls_for (respond w) id (linePrefix lg) (written w)
                   (lines (rest ++ [newline]) ++ [ln]))
                w)).
Proof.
  intros Hl Ho Hn. split; intros Hok.
  - rewrite (Write_spec w l lg id _ Hl Ho), Hok, (too_long_false_lines _ Hok).
    assert (lines (ln ++ [creturn; newline] ++ rest) = ln :: lines rest) as ->.
    { unfold lines. rewrite (lines_from_plain ln _ [] Hn). simpl.
      by rewrite dropCR_snoc. }
    assert (length (ln ++ [creturn; newline] ++ rest) = length ln + 2 + length rest)
      as -> by (rewrite !length_app; simpl; lia).
    reflexivity.
  - rewrite (Write_spec w l lg id _ Hl Ho), Hok, (too_long_false_lines _ Hok).
    assert (lines (rest ++ [newline] ++ ln ++ [creturn])
            = lines (rest ++ [newline]) ++ [ln]) as ->.
    { unfold lines. simpl. rewrite lines_from_app_newline. f_equal.
      rewrite (lines_from_plain ln _ [] Hn). simpl.
      destruct (ln ++ [creturn]) eqn:E; [by destruct ln|].
      by rewrite <- E, dropCR_snoc. }
    assert (length (rest ++ [newline] ++ ln ++ [creturn])
            = length rest + 1 + length ln + 1)
      as -> by (rewrite !length_app; simpl; lia).
    reflexivity.
Qed.

Lemma Write_drops_carriage_return_witness :
  Write 0 (lit "a" ++ [creturn; newline] ++ lit "b") demo1
  = Some ((length (lit "a") + 2 + length (lit "b"), None),
          set_written
            (calls_for (respond demo1) 0 (encoder InfoLevel (Some [])) (written demo1)
               (lit "a" :: lines (lit "b")))
            demo1)
  /\ Write 0 (lit "b" ++ [newline] ++ lit "a" ++ [creturn]) demo1
     = Some ((length (lit "b") + 1 + length (lit "a") + 1, None),
             set_written
               (calls_for (respond demo1) 0 (encoder InfoLevel (Some [])) (written demo1)
                  (lines (lit "b" ++ [newline]) ++ [lit "a"]))
               demo1).
Proof.
  destruct (Write_drops_carriage_return demo1 0
              (mkLogger (Sink 0) (Slice 0 0 0) InfoLevel (encoder InfoLevel (Some []))) 0
              (lit "a") (lit "b")) as [H1 H2].
  - reflexivity.
  - reflexivity.
  - simpl. intros [H|[]]. discriminate H.
  - split; [apply H1; reflexivity|apply H2; reflexivity].
Defined.

(** X15.  When a line is too long, the lines before it have been printed
    all the same, the lines after it are not, and [Write] returns zero for
    the bytes it took: after whole lines [p], a stretch of
    [MaxScanTokenSize] bytes or more without a newline gives the records of
    [p] and [(0, ErrTooLong)]. *)
Theorem Write_fails_after_printing w l lg id p long rest :
  loggers w !! l = Some lg ->
  output lg = Sink id ->
  too_long p = false ->
  ~ In newline long ->
  bufio.MaxScanTokenSize <= length long ->
  Write l (p ++ [newline] ++ long ++ rest) w
  = Some ((0, Some bufio.ErrTooLong),
          set_written
            (calls_for (respond w) id (linePrefix lg) (written w)
               (lines (p ++ [newline])))
            w).
Proof.
  intros Hl Ho Hp Hn Hlen.
  rewrite (Write_spec w l lg id _ Hl Ho).
  destruct (first_line_too_long bufio.MaxScanTokenSize long rest [] Hn)
    as [Hlong Hnone]; [unfold bufio.MaxScanTokenSize, length; lia|exact Hlen|].
  change (length (@nil byte)) with 0 in Hlong.
  assert (too_long (p ++ [newline] ++ long ++ rest) = true) as ->.
  { unfold too_long. change ([newline] ++ long ++ rest) with (newline :: long ++ rest).
    rewrite too_long_from_app_newline, Hlong. apply orb_true_r. }
  change ([newline] ++ long ++ rest) with (newline :: long ++ rest).
  rewrite (lines_before_long_app_newline _ p (long ++ rest) [] Hp).
  rewrite Hnone. by rewrite app_nil_r.
Qed.

Lemma Write_fails_after_printing_witness :
  Write 0 (lit "ab" ++ [newline] ++ repeat x41 bufio.MaxScanTokenSize ++ lit "cd") demo1
  = Some ((0, Some bufio.ErrTooLong),
          set_written
            (calls_for (respond demo1) 0 (encoder InfoLevel (Some [])) (written demo1)
               (lines (lit "ab" ++ [newline])))
            demo1).
Proof.
  apply (Write_fails_after_printing demo1 0
           (mkLogger (Sink 0) (Slice 0 0 0) InfoLevel (encoder InfoLevel (Some []))) 0
           (lit "ab") (repeat x41 bufio.MaxScanTokenSize) (lit "cd")).
  - reflexivity.
  - reflexivity.
  - reflexivity.
  - intros H. apply repeat_spec in H. discriminate H.
  - rewrite repeat_length. apply Nat.le_refl.
Defined.

(** X16.  In a world reached through the package every record that
    [Write] hands to the sink is one line: it ends in a newline and holds no
    other, whether the call ends in a scan failure or not. *)
Theorem Write_records_are_lines w l lg id p :
  reachable w ->
  loggers w !! l = Some lg ->
  output lg = Sink id ->
  exists res new w',
    Write l p w = Some (res, w')
    /\ written w' = written w ++ new
    /\ Forall (fun c => exists body,
                 call_data c = body ++ [newline] /\ ~ In newline body) new.
Proof.
  intros Hr Hl Ho.
  destruct (reachable_consistent w Hr l lg Hl) as (ts & Hv & Hp).
  rewrite (Write_spec w l lg id p Hl Ho).
  destruct (calls_for_shape (respond w) id (linePrefix lg)
              (lines_before_long bufio.MaxScanTokenSize [] p) (written w))
    as (new & Hnew & Hdata & _).
  eexists _, new, _. split; [reflexivity|]. split; [exact Hnew|].
  pose proof (lines_before_long_plain bufio.MaxScanTokenSize p [] (fun H => H)) as Hplain.
  revert Hdata Hplain. generalize (lines_before_long bufio.MaxScanTokenSize [] p).
  clear Hnew. induction new as [|c new IH]; intros [|t msgs] Hdata Hplain;
    try discriminate Hdata; constructor.
  - injection Hdata as Hc _. inversion Hplain as [|? ? Ht _]; subst.
    exists (linePrefix lg ++ t ++ [ESC] ++ lit "_klio_reset" ++ [ESC; backslash]).
    split.
    + rewrite Hc. unfold record_of, resetSuffix. by rewrite <- !app_assoc.
    + pose proof (encoder_no_newline (level lg) ts) as He.
      intros H. rewrite Hp in H.
      apply in_app_iff in H as [H|H]; [by apply He|].
      apply in_app_iff in H as [H|H]; [done|].
      simpl in H. intuition discriminate.
  - injection Hdata as _ Hrest. inversion Hplain; subst. by apply (IH msgs).
Qed.

Lemma Write_records_are_lines_witness :
  exists res new w',
    Write 0 (lit "foo") demo1 = Some (res, w')
    /\ written w' = written demo1 ++ new
    /\ Forall (fun c => exists body,
                 call_data c = body ++ [newline] /\ ~ In newline body) new.
Proof.
  apply (Write_records_are_lines demo1 0
           (mkLogger (Sink 0) (Slice 0 0 0) InfoLevel (encoder InfoLevel (Some []))) 0
           (lit "foo")).
  - exact demo1_reachable.
  - reflexivity.
  - reflexivity.
Defined.

(** ** Level names, operands and shared tag slices *)

(** X17.  The level [ParseLevel] returns is one of the seven levels of the
    package whatever the argument and the case table, and it parses to
    itself with [true]; so does each of the seven names. *)
Theorem ParseLevel_result_parses (To_LowerCase : Z -> Z) (s : bytes) :
  In (fst (ParseLevel To_LowerCase s)) knownLevels
  /\ ParseLevel To_LowerCase (fst (ParseLevel To_LowerCase s))
     = (fst (ParseLevel To_LowerCase s), true)
  /\ Forall (fun name => ParseLevel To_LowerCase name = (name, true)) knownLevels.
Proof.
  assert (forall name, In name knownLevels ->
            ParseLevel To_LowerCase name = (name, true)) as Hname.
  { intros name Hin. simpl in Hin.
    destruct Hin as [<-|[<-|[<-|[<-|[<-|[<-|[<-|[]]]]]]]]; reflexivity. }
  assert (In (fst (ParseLevel To_LowerCase s)) knownLevels) as Hin.
  { unfold ParseLevel.
    pose proof (mapIndex_levelsMap (strings.ToLower To_LowerCase s)) as H.
    destruct (mapIndex levelsMap (strings.ToLower To_LowerCase s)) as [v|].
    - destruct H as [-> H]. exact H.
    - simpl. tauto. }
  split; [exact Hin|]. split; [by apply Hname|].
  apply Forall_forall. intros name H. apply Hname. by apply list_elem_of_In.
Qed.

Section PrintFacts.
Import fmt.

Lemma doPrint_strings ss : forall n prev,
  doPrint n prev (map str ss) = concat ss.
Proof.
  induction ss as [|s ss IH]; intros n prev; simpl; [done|].
  rewrite andb_false_r. simpl. by rewrite IH.
Qed.

Lemma doPrint_values a : forall n,
  Forall (fun o => isString o = false) a ->
  doPrint (S n) false a = concat (map (fun o => x20 :: text o) a).
Proof.
  induction a as [|o a IH]; intros n H; [done|].
  inversion H as [|? ? Ho Ha]; subst. simpl. rewrite Ho. simpl.
  by rewrite (IH (S n) Ha).
Qed.

Lemma spaced_cons x l :
  spaced (x :: l) = x ++ concat (map (fun t => x20 :: t) l).
Proof.
  revert x. induction l as [|y l IH]; intros x; simpl.
  - by rewrite app_nil_r.
  - f_equal. f_equal. apply IH.
Qed.

Lemma Sprint_values a :
  Forall (fun o => isString o = false) a ->
  Sprint a = spaced (map text a).
Proof.
  intros H. destruct a as [|o a]; [done|].
  inversion H as [|? ? Ho Ha]; subst.
  change (map text (o :: a)) with (text o :: map text a).
  rewrite spaced_cons, map_map. unfold Sprint. simpl. rewrite Ho.
  by rewrite (doPrint_values a 0 Ha).
Qed.
End PrintFacts.

(** X18.  [Print] joins its operands as [fmt.Sprint] does: strings are put
    one after the other with nothing between them, operands that are not
    strings are separated by one blank, and no blank goes between a string
    and its neighbour. *)
Theorem Print_joins_operands w l lg id :
  loggers w !! l = Some lg ->
  output lg = Sink id ->
  (forall ss,
      Print l (map fmt.str ss) w
      = Some (l, set_written
                   (written w ++
                      [mkCall id (record_of (linePrefix lg) (concat ss))
                         (respond w id (written w)
                            (record_of (linePrefix lg) (concat ss)))]) w))
  /\ (forall a,
        Forall (fun o => fmt.isString o = false) a ->
        Print l a w
        = Some (l, set_written
                     (written w ++
                        [mkCall id (record_of (linePrefix lg) (spaced (map fmt.text a)))
                           (respond w id (written w)
                              (record_of (linePrefix lg) (spaced (map fmt.text a))))]) w))
  /\ (forall s o,
        fmt.Sprint [fmt.str s; o] = s ++ fmt.text o
        /\ fmt.Sprint [o; fmt.str s] = fmt.text o ++ s).
Proof.
  intros Hl Ho. split; [|split].
  - intros ss. rewrite (Print_spec w l lg id _ Hl Ho).
    unfold fmt.Sprint. by rewrite doPrint_strings.
  - intros a Ha. rewrite (Print_spec w l lg id _ Hl Ho).
    by rewrite (Sprint_values a Ha).
  - intros s o. unfold fmt.Sprint. simpl.
    rewrite !andb_false_r, !app_nil_r. simpl. done.
Qed.

Lemma Print_joins_operands_witness :
  (forall ss,
      Print 0 (map fmt.str ss) demo1
      = Some (0, set_written
                   (written demo1 ++
                      [mkCall 0 (record_of (encoder InfoLevel (Some [])) (concat ss))
                         (respond demo1 0 (written demo1)
                            (record_of (encoder InfoLevel (Some [])) (concat ss)))])
                   demo1))
  /\ (forall a,
        Forall (fun o => fmt.isString o = false) a ->
        Print 0 a demo1
        = Some (0, set_written
                     (written demo1 ++
                        [mkCall 0 (record_of (encoder InfoLevel (Some []))
                                     (spaced (map fmt.text a)))
                           (respond demo1 0 (written demo1)
                              (record_of (encoder InfoLevel (Some []))
                                 (spaced (map fmt.text a))))])
                     demo1))
  /\ (forall s o,
        fmt.Sprint [fmt.str s; o] = s ++ fmt.text o
        /\ fmt.Sprint [o; fmt.str s] = fmt.text o ++ s).
Proof.
  apply (Print_joins_operands demo1 0
           (mkLogger (Sink 0) (Slice 0 0 0) InfoLevel (encoder InfoLevel (Some []))) 0).
  - reflexivity.
  - reflexivity.
Defined.

Lemma view_store a arr off len elems i v es :
  a !! arr = Some es ->
  view a (Slice arr off len) = Some (Some elems) ->
  i < len ->
  view (<[arr := <[off + i := v]> es]> a) (Slice arr off len)
  = Some (Some (<[i := v]> elems)).
Proof.
  intros Ha Hv Hi. unfold view in *. rewrite Ha in Hv.
  rewrite list_lookup_insert_eq by (by apply lookup_lt_Some in Ha).
  rewrite length_insert.
  destruct (Nat.leb (off + len) (length es)) eqn:Hle; [|done].
  injection Hv as <-.
  rewrite drop_insert_ge by lia.
  rewrite take_insert_lt by lia.
  by replace (off + i - off) with i by lia.
Qed.

(** X19.  [WithTags(s...)] keeps the caller's slice: a store through [s]
    after the call shows in what [Tags()] of the new logger returns, and
    does not show in the records the new logger prints, which carry the
    tags [s] had at the call. *)
Theorem WithTags_spread_shares_array w l lg id arr off len elems i v :
  loggers w !! l = Some lg ->
  output lg = Sink id ->
  view (arrays w) (Slice arr off len) = Some (Some elems) ->
  i < len ->
  exists n w1 w2,
    WithTags l (Slice arr off len) w = Some (n, w1)
    /\ slice_store (Slice arr off len) i v w1 = Some (tt, w2)
    /\ tags_of n w2 = Some (<[i := v]> elems)
    /\ forall msg,
         Print n msg w2
         = Some (n, set_written
                      (written w2 ++
                         [mkCall id (klio_record (level lg) (Some elems) (fmt.Sprint msg))
                            (respond w2 id (written w2)
                               (klio_record (level lg) (Some elems) (fmt.Sprint msg)))])
                      w2).
Proof.
  intros Hl Ho Hv Hi.
  rewrite (WithTags_spec w l lg _ _ Hl Hv).
  set (lg' := mkLogger (output lg) (Slice arr off len) (level lg)
                (encoder (level lg) (Some elems))).
  set (w1 := set_loggers (loggers w ++ [lg']) w).
  assert (exists es, arrays w !! arr = Some es) as [es Hes].
  { unfold view in Hv. destruct (arrays w !! arr) as [es|]; [by exists es|done]. }
  set (w2 := set_arrays (<[arr := <[off + i := v]> es]> (arrays w)) w1).
  assert (slice_store (Slice arr off len) i v w1 = Some (tt, w2)) as Hstore.
  { unfold slice_store. apply Nat.ltb_lt in Hi. rewrite Hi.
    change (arrays w1) with (arrays w). by rewrite Hes. }
  assert (loggers w2 !! length (loggers w) = Some lg') as Hn by apply lookup_snoc.
  exists (length (loggers w)), w1, w2.
  split; [done|]. split; [exact Hstore|]. split.
  - rewrite (tags_of_spec w2 _ lg' (Some (<[i := v]> elems)) Hn); [done|].
    by apply view_store.
  - intros msg. rewrite (Print_spec w2 _ lg' id msg Hn Ho).
    subst lg'. simpl linePrefix. rewrite encoder_unfold.
    unfold record_of, prefixFormat, resetSuffix, klio_record.
    by rewrite <- !app_assoc.
Qed.

Lemma WithTags_spread_shares_array_witness :
  exists n w1 w2,
    WithTags 0 (Slice 1 0 3) demo2 = Some (n, w1)
    /\ slice_store (Slice 1 0 3) 0 (lit "x") w1 = Some (tt, w2)
    /\ tags_of n w2 = Some (<[0 := lit "x"]> [lit "a"; lit "b"; lit "c"])
    /\ forall msg,
         Print n msg w2
         = Some (n, set_written
                      (written w2 ++
                         [mkCall 0 (klio_record InfoLevel
                                      (Some [lit "a"; lit "b"; lit "c"]) (fmt.Sprint msg))
                            (respond w2 0 (written w2)
                               (klio_record InfoLevel
                                  (Some [lit "a"; lit "b"; lit "c"]) (fmt.Sprint msg)))])
                      w2).
Proof.
  apply (WithTags_spread_shares_array demo2 0
           (mkLogger (Sink 0) (Slice 0 0 0) InfoLevel (encoder InfoLevel (Some []))) 0
           1 0 3 [lit "a"; lit "b"; lit "c"] 0 (lit "x")).
  - reflexivity.
  - reflexivity.
  - reflexivity.
  - lia.
Defined.

(** X20.  [New] never fails, whatever the writer, the nil one included.
    The new logger has the writer as its output, the level [info], no tags
    and a tag slice that is not nil; the loggers there were stay as they
    are, and the first record the new logger prints carries the level
    [info] and the tags [[]]. *)
Theorem New_defaults out w :
  exists w',
    New out w = Some (length (loggers w), w')
    /\ Output (length (loggers w)) w' = Some (out, w')
    /\ Level_ (length (loggers w)) w' = Some (InfoLevel, w')
    /\ tags_of (length (loggers w)) w' = Some []
    /\ (exists lg, loggers w' !! length (loggers w) = Some lg
                   /\ tags lg <> nil_slice)
    /\ (forall l lg, loggers w !! l = Some lg -> loggers w' !! l = Some lg)
    /\ written w' = written w
    /\ forall id v, out = Sink id ->
         Print (length (loggers w)) v w'
         = Some (length (loggers w),
                 set_written
                   (written w' ++
                      [mkCall id (klio_record InfoLevel (Some []) (fmt.Sprint v))
                         (respond w' id (written w')
                            (klio_record InfoLevel (Some []) (fmt.Sprint v)))]) w').
Proof.
  rewrite New_spec. eexists. split; [reflexivity|].
  set (lg := mkLogger out (Slice (length (arrays w)) 0 0) DefaultLevel
               (encoder DefaultLevel (Some []))).
  set (w' := mkWorld _ _ _ _).
  assert (loggers w' !! length (loggers w) = Some lg) as Hn by apply lookup_snoc.
  assert (view (arrays w') (tags lg) = Some (Some [])) as Hv.
  { simpl. by rewrite lookup_snoc. }
  split; [unfold Output, bind, load_logger, ptr; by rewrite Hn|].
  split; [unfold Level_, bind, load_logger, ptr; by rewrite Hn|].
  split; [exact (tags_of_spec w' _ lg (Some []) Hn Hv)|].
  split; [by exists lg|].
  split; [intros l lg0 H; by apply lookup_app_l_Some|].
  split; [done|].
  intros id v ->. rewrite (Print_spec w' _ lg id v Hn eq_refl).
  subst lg. simpl linePrefix. rewrite encoder_unfold.
  unfold record_of, prefixFormat, resetSuffix, klio_record.
  by rewrite <- !app_assoc.
Qed.

Lemma New_defaults_witness :
  exists w',
    New (Sink 0) accepting = Some (length (loggers accepting), w')
    /\ Output (length (loggers accepting)) w' = Some (Sink 0, w')
    /\ Level_ (length (loggers accepting)) w' = Some (InfoLevel, w')
    /\ tags_of (length (loggers accepting)) w' = Some []
    /\ (exists lg, loggers w' !! length (loggers accepting) = Some lg
                   /\ tags lg <> nil_slice)
    /\ (forall l lg, loggers accepting !! l = Some lg -> loggers w' !! l = Some lg)
    /\ written w' = written accepting
    /\ forall id v, Sink 0 = Sink id ->
         Print (length (loggers accepting)) v w'
         = Some (length (loggers accepting),
                 set_written
                   (written w' ++
                      [mkCall id (klio_record InfoLevel (Some []) (fmt.Sprint v))
                         (respond w' id (written w')
                            (klio_record InfoLevel (Some []) (fmt.Sprint v)))]) w').
Proof. exact (New_defaults (Sink 0) accepting). Defined.

Lemma calls_for_answers r1 r2 id pre ms : forall h1 h2,
  map call_data h1 = map call_data h2 ->
  map call_sink h1 = map call_sink h2 ->
  map call_data (calls_for r1 id pre h1 ms) = map call_data (calls_for r2 id pre h2 ms)
  /\ map call_sink (calls_for r1 id pre h1 ms)
     = map call_sink (calls_for r2 id pre h2 ms).
Proof.
  induction ms as [|m ms IH]; intros h1 h2 Hd Hs; [done|].
  simpl. apply IH; rewrite !map_app; simpl; congruence.
Qed.

(** X21.  [Write] never looks at what a sink answers: whatever two sinks
    answer to the writes, be it short counts or failures, the result of
    [Write] is the same and so are the write calls up to their answers. *)
Theorem sink_answers_are_ignored w r1 r2 l lg id p :
  loggers w !! l = Some lg ->
  output lg = Sink id ->
  exists res w1 w2,
    Write l p (set_respond r1 w) = Some (res, w1)
    /\ Write l p (set_respond r2 w) = Some (res, w2)
    /\ map call_data (written w1) = map call_data (written w2)
    /\ map call_sink (written w1) = map call_sink (written w2)
    /\ loggers w1 = loggers w2 /\ arrays w1 = arrays w2.
Proof.
  intros Hl Ho.
  rewrite (Write_spec (set_respond r1 w) l lg id p Hl Ho).
  rewrite (Write_spec (set_respond r2 w) l lg id p Hl Ho).
  eexists _, _, _. split; [reflexivity|]. split; [reflexivity|]. simpl.
  destruct (calls_for_answers r1 r2 id (linePrefix lg)
              (lines_before_long bufio.MaxScanTokenSize [] p)
              (written w) (written w) eq_refl eq_refl) as [Hd Hs].
  by rewrite Hd, Hs.
Qed.

Lemma sink_answers_are_ignored_witness :
  exists res w1 w2,
    Write 0 (lit "foo") (set_respond (fun _ _ d => (length d, None)) demo1)
    = Some (res, w1)
    /\ Write 0 (lit "foo") (set_respond (fun _ _ _ => (0, Some (SinkError 7))) demo1)
       = Some (res, w2)
    /\ map call_data (written w1) = map call_data (written w2)
    /\ map call_sink (written w1) = map call_sink (written w2)
    /\ loggers w1 = loggers w2 /\ arrays w1 = arrays w2.
Proof.
  apply (sink_answers_are_ignored demo1 (fun _ _ d => (length d, None))
           (fun _ _ _ => (0, Some (SinkError 7))) 0
           (mkLogger (Sink 0) (Slice 0 0 0) InfoLevel (encoder InfoLevel (Some []))) 0
           (lit "foo")).
  - reflexivity.
  - reflexivity.
Defined.

(** X22.  In a world reached through the package the cached prefix of
    every logger is up to date: running [updateLinePrefix] again changes
    nothing. *)
Theorem updateLinePrefix_is_stable w l lg :
  reachable w ->
  loggers w !! l = Some lg ->
  updateLinePrefix l w = Some (tt, w).
Proof.
  intros Hr Hl.
  destruct (reachable_consistent w Hr l lg Hl) as (ts & Hv & Hp).
  rewrite (updateLinePrefix_spec w l lg ts Hl Hv), <- Hp.
  assert (mkLogger (output lg) (tags lg) (level lg) (linePrefix lg) = lg) as ->
    by by destruct lg.
  rewrite list_insert_id by exact Hl. by destruct w.
Qed.

Lemma updateLinePrefix_is_stable_witness :
  updateLinePrefix 0 demo1 = Some (tt, demo1).
Proof.
  apply (updateLinePrefix_is_stable demo1 0
           (mkLogger (Sink 0) (Slice 0 0 0) InfoLevel (encoder InfoLevel (Some [])))).
  - exact demo1_reachable.
  - reflexivity.
Defined.
